(** * gitmaster: scan, classify, preview and move pipeline

    A shallow embedding of the TypeScript sources
    [lib/utils/path.ts], [lib/utils/git.ts], [lib/services/scanner.ts],
    [lib/actions/scan.ts], [lib/actions/repositories.ts] and
    [lib/actions/triage.ts], with the properties of the specification
    stated and settled against it.

    Conventions.  JavaScript strings are [string]s of bytes.
    [Js.toLowerCase] is [String.prototype.toLowerCase] on ASCII strings:
    it folds [A-Z] and leaves every other byte alone, so the functions
    built on it agree with the code on ASCII paths and texts.  Where a
    statement about all paths depends on how letters outside ASCII are
    folded, the function is given again with the folding as a parameter
    (the modules [PathFold], [ScannerFold] and [ScanFold]) and the
    statement is proved for every folding.  A function that may throw
    returns [Res]; code that talks to the file system threads an explicit
    state through a small monad. *)

From Stdlib Require Import String Ascii List Bool Arith ZArith Lia.
From Stdlib Require Import DecimalString.
From Equations Require Import Equations.
Import ListNotations.
Local Open Scope string_scope.
Local Open Scope list_scope.
Local Open Scope nat_scope.

(** ** Results of code that may throw *)

Inductive Res (A : Type) : Type :=
| Ok (a : A)
| Throw (message : string).
Arguments Ok {A} a.
Arguments Throw {A} message.

(** ** JavaScript string primitives *)

Module Js.

Definition lowerChar (c : ascii) : ascii :=
  let n := nat_of_ascii c in
  if andb (65 <=? n) (n <=? 90) then ascii_of_nat (n + 32) else c.

(** [s.toLowerCase()] on ASCII strings: the letters [A-Z] are folded,
    every other byte is kept.  On strings with cased letters outside
    ASCII the method of JavaScript folds more. *)
Fixpoint toLowerCase (s : string) : string :=
  match s with
  | EmptyString => EmptyString
  | String c r => String (lowerChar c) (toLowerCase r)
  end.

Definition upperChar (c : ascii) : ascii :=
  let n := nat_of_ascii c in
  if andb (97 <=? n) (n <=? 122) then ascii_of_nat (n - 32) else c.

Definition isLetter (c : ascii) : bool :=
  let n := nat_of_ascii c in
  orb (andb (65 <=? n) (n <=? 90)) (andb (97 <=? n) (n <=? 122)).

(** [s.startsWith(p)] *)
Fixpoint startsWith (s p : string) : bool :=
  match p with
  | EmptyString => true
  | String b p' =>
      match s with
      | EmptyString => false
      | String a s' => if Ascii.eqb a b then startsWith s' p' else false
      end
  end.

(** [s.includes(p)] *)
Fixpoint includes (s p : string) : bool :=
  if startsWith s p then true
  else match s with
       | EmptyString => false
       | String _ s' => includes s' p
       end.

(** [s.endsWith(p)] *)
Fixpoint endsWith (s p : string) : bool :=
  if String.eqb s p then true
  else match s with
       | EmptyString => false
       | String _ s' => endsWith s' p
       end.

(** [arr.includes(x)] on an array of strings *)
Definition arrIncludes (arr : list string) (x : string) : bool :=
  existsb (String.eqb x) arr.

(** Template rendering of a non-negative integer. *)
Definition showNat (n : nat) : string :=
  NilEmpty.string_of_uint (Nat.to_uint n).

(** [s.split(sep)] for a one-character separator. *)
Fixpoint splitOn (sep : ascii) (s : string) : list string :=
  match s with
  | EmptyString => [EmptyString]
  | String c r =>
      if Ascii.eqb c sep then EmptyString :: splitOn sep r
      else match splitOn sep r with
           | [] => [String c EmptyString]
           | h :: t => String c h :: t
           end
  end.

(** [parts.join(sep)] *)
Fixpoint join (sep : string) (parts : list string) : string :=
  match parts with
  | [] => EmptyString
  | [p] => p
  | p :: rest => (p ++ sep ++ join sep rest)%string
  end.

(** [s] between double quotes, as in a template literal. *)
Definition quoted (s : string) : string :=
  let q := String (ascii_of_nat 34) EmptyString in (q ++ s ++ q)%string.

(** Truthiness of a string: the empty string is falsy. *)
Definition truthy (s : string) : bool := negb (String.eqb s EmptyString).

(** Truthiness of [string | null | undefined]. *)
Definition truthyOpt (s : option string) : bool :=
  match s with
  | Some x => truthy x
  | None => false
  end.

End Js.

(** ** Node's [path] module, POSIX flavour

    [path.resolve] is library code; it is modelled for one argument, with
    the process working directory [cwd] (an absolute path) made explicit. *)

Module NodePath.

(** [normalizeString(path, false, '/')]: drop empty and [.] segments, let
    [..] remove the segment before it, never climbing above the root. *)
Definition normalizeSegments (segs : list string) : list string :=
  fold_left
    (fun acc seg =>
       if orb (String.eqb seg EmptyString) (String.eqb seg ".") then acc
       else if String.eqb seg ".." then removelast acc
       else acc ++ [seg])
    segs [].

Definition resolve (cwd p : string) : string :=
  let full :=
    if String.eqb p EmptyString then cwd
    else if Js.startsWith p "/" then p
    else (cwd ++ "/" ++ p)%string in
  ("/" ++ Js.join "/" (normalizeSegments (Js.splitOn "/"%char full)))%string.

End NodePath.

(** ** lib/utils/path.ts *)

Module Path.

Definition slash : ascii := "/"%char.
Definition backslash : ascii := ascii_of_nat 92.

(** [inputPath.replace(/\\/g, '/')] *)
Fixpoint normalizeWindowsPath (inputPath : string) : string :=
  match inputPath with
  | EmptyString => EmptyString
  | String c r =>
      String (if Ascii.eqb c backslash then slash else c)
             (normalizeWindowsPath r)
  end.

Definition isSep (c : ascii) : bool :=
  orb (Ascii.eqb c slash) (Ascii.eqb c backslash).

(** [part.replace(/[/\\]+$/, '')] *)
Fixpoint stripTrailingSeps (s : string) : string :=
  match s with
  | EmptyString => EmptyString
  | String c r =>
      match stripTrailingSeps r with
      | EmptyString => if isSep c then EmptyString else String c EmptyString
      | r' => String c r'
      end
  end.

(** [s.replace(/[/\\]+/g, '/')] *)
Fixpoint collapseSeps (s : string) : string :=
  match s with
  | EmptyString => EmptyString
  | String c r =>
      if isSep c then
        match r with
        | String d _ => if isSep d then collapseSeps r
                        else String slash (collapseSeps r)
        | EmptyString => String slash EmptyString
        end
      else String c (collapseSeps r)
  end.

Fixpoint stripAllButLast (parts : list string) : list string :=
  match parts with
  | [] => []
  | [p] => [p]
  | p :: rest => stripTrailingSeps p :: stripAllButLast rest
  end.

Definition joinPaths (parts : list string) : string :=
  collapseSeps (Js.join "/" (stripAllButLast parts)).

(** [split('/').filter(Boolean)] *)
Definition segments (s : string) : list string :=
  filter Js.truthy (Js.splitOn slash s).

(** Security check: the target path is inside the allowed root. *)
Definition isInsideAllowedRoot (cwd targetPath rootPath : string) : bool :=
  let normalizedTarget :=
    Js.toLowerCase (normalizeWindowsPath (NodePath.resolve cwd targetPath)) in
  let normalizedRoot :=
    Js.toLowerCase (normalizeWindowsPath (NodePath.resolve cwd rootPath)) in
  Js.startsWith normalizedTarget normalizedRoot.

(** [target] lies under [root] in the directory tree: the segments of the
    resolved root are a prefix of the segments of the resolved target. *)
Fixpoint segPrefix (r t : list string) : bool :=
  match r with
  | [] => true
  | x :: r' =>
      match t with
      | [] => false
      | y :: t' => if String.eqb x y then segPrefix r' t' else false
      end
  end.

Definition liesUnder (cwd targetPath rootPath : string) : bool :=
  segPrefix
    (segments (Js.toLowerCase
                 (normalizeWindowsPath (NodePath.resolve cwd rootPath))))
    (segments (Js.toLowerCase
                 (normalizeWindowsPath (NodePath.resolve cwd targetPath)))).

(** [normalized.match(/^([A-Za-z]):/)], upper-cased. *)
Definition getDriveLetter (inputPath : string) : option ascii :=
  match normalizeWindowsPath inputPath with
  | String c (String ":"%char _) =>
      if Js.isLetter c then Some (Js.upperChar c) else None
  | _ => None
  end.

Definition isSameDrive (path1 path2 : string) : bool :=
  match getDriveLetter path1, getDriveLetter path2 with
  | Some d1, Some d2 => Ascii.eqb d1 d2
  | _, _ => false
  end.

Definition getRepoNameFromPath (repoPath : string) : string :=
  match rev (segments (normalizeWindowsPath repoPath)) with
  | [] => "unknown"
  | last :: _ => last
  end.

(** The loop variant of the suffix search: the candidates still to try. *)
Definition remaining (suffix : nat) : nat := 101 - suffix.
Arguments remaining : simpl never.

Definition suffixLimit : nat := 100.
Arguments suffixLimit : simpl never.

Definition inspect {A : Type} (a : A) : {b : A | a = b} :=
  exist _ a eq_refl.

Definition candidateOf (basePath : string) (suffix : nat) : string :=
  (basePath ++ "-" ++ Js.showNat suffix)%string.

Definition taken (normalizedExisting : list string) (p : string) : bool :=
  Js.arrIncludes normalizedExisting (Js.toLowerCase (normalizeWindowsPath p)).

(** The [while (true)] loop of [generateConflictFreePath], from the
    current value of [suffix]. *)
Equations? suffixLoop (basePath : string) (normalizedExisting : list string)
  (suffix : nat) : Res string by wf (remaining suffix) lt :=
  suffixLoop basePath normalizedExisting suffix
    with negb (taken normalizedExisting (candidateOf basePath suffix)) := {
    | true => Ok (candidateOf basePath suffix)
    | false with inspect (suffixLimit <? S suffix) := {
        | exist _ true _ => Throw "Too many path conflicts"
        | exist _ false H =>
            suffixLoop basePath normalizedExisting (S suffix) } }.
Proof.
  apply Nat.ltb_ge in H. unfold remaining, suffixLimit in *. lia.
Qed.

Definition generateConflictFreePath
  (basePath : string) (existingPaths : list string) : Res string :=
  let normalizedBase := Js.toLowerCase (normalizeWindowsPath basePath) in
  let normalizedExisting :=
    map (fun p => Js.toLowerCase (normalizeWindowsPath p)) existingPaths in
  if negb (Js.arrIncludes normalizedExisting normalizedBase)
  then Ok basePath
  else suffixLoop basePath normalizedExisting 2.

(** The suffix search as the specification words it: the candidates
    [basePath-2], [basePath-3], ... up to [basePath-100], the first free
    one taken. *)
Definition isFree (basePath : string) (normalizedExisting : list string)
           (k : nat) : bool :=
  negb (taken normalizedExisting (candidateOf basePath k)).

Definition firstFree (basePath : string) (normalizedExisting : list string)
  : option nat :=
  find (isFree basePath normalizedExisting) (seq 2 99).

Definition resolveConflict (basePath : string) (existingPaths : list string)
  : Res string :=
  let normalizedExisting :=
    map (fun p => Js.toLowerCase (normalizeWindowsPath p)) existingPaths in
  if negb (Js.arrIncludes normalizedExisting
             (Js.toLowerCase (normalizeWindowsPath basePath)))
  then Ok basePath
  else match firstFree basePath normalizedExisting with
       | Some k => Ok (candidateOf basePath k)
       | None => Throw "Too many path conflicts"
       end.

(** A path written with backslashes between its parts. *)
Definition winPath (parts : list string) : string :=
  Js.join (String backslash EmptyString) parts.

(** [x], [x-2], ..., [x-101]: 101 sequential conflicts. *)
Definition sequentialConflicts : list string :=
  "x" :: map (fun i => ("x-" ++ Js.showNat i)%string) (seq 2 100).

(** *** The other helpers of path.ts *)

Definition bs : string := String backslash EmptyString.

(** The line terminators, which [.] in a regular expression does not
    match: LF, CR, and U+2028 and U+2029 (three bytes each in UTF-8). *)
Fixpoint hasLineTerminator (s : string) : bool :=
  match s with
  | EmptyString => false
  | String c r =>
      let n := nat_of_ascii c in
      if orb (Nat.eqb n 10) (Nat.eqb n 13) then true
      else
        match r with
        | String d (String e _) =>
            if andb (Nat.eqb n 226)
                    (andb (Nat.eqb (nat_of_ascii d) 128)
                          (orb (Nat.eqb (nat_of_ascii e) 168)
                               (Nat.eqb (nat_of_ascii e) 169)))
            then true
            else hasLineTerminator r
        | _ => hasLineTerminator r
        end
  end.

(** The match of the mount-point pattern: [/mnt/], one letter, a slash
    and anything up to the end of the input without a line terminator;
    the drive letter and the rest of the path are captured. *)
Definition matchMnt (inputPath : string) : option (ascii * string) :=
  match inputPath with
  | String "/"%char (String "m"%char (String "n"%char (String "t"%char
      (String "/"%char (String c (String "/"%char rest)))))) =>
      if andb (Js.isLetter c) (negb (hasLineTerminator rest))
      then Some (c, rest) else None
  | _ => None
  end.

Definition normalizeWslPath (inputPath : string) : string :=
  match matchMnt inputPath with
  | Some (c, restOfPath) =>
      String (Js.upperChar c) (":/" ++ restOfPath)%string
  | None => normalizeWindowsPath inputPath
  end.

(** The test of the mount-point prefix: [/mnt/], one letter, a slash. *)
Definition isMntPath (inputPath : string) : bool :=
  match inputPath with
  | String "/"%char (String "m"%char (String "n"%char (String "t"%char
      (String "/"%char (String c (String "/"%char _)))))) => Js.isLetter c
  | _ => false
  end.

Definition isWslPath (inputPath : string) : bool :=
  let normalized := Js.toLowerCase inputPath in
  if orb (Js.startsWith normalized (bs ++ bs ++ "wsl$" ++ bs)%string)
         (Js.startsWith normalized
            (bs ++ bs ++ "wsl.localhost" ++ bs)%string)
  then true
  else if isMntPath inputPath then true
  else if andb (Js.startsWith inputPath "/")
               (negb (Js.startsWith inputPath "//"))
  then true
  else false.

(** The characters refused in a path: the angle brackets, the colon, the
    double quote, the bar, the question mark and the star. *)
Definition isInvalidChar (c : ascii) : bool :=
  let n := nat_of_ascii c in
  existsb (Nat.eqb n) [60; 62; 58; 34; 124; 63; 42].

Fixpoint hasInvalidChar (s : string) : bool :=
  match s with
  | EmptyString => false
  | String c r => orb (isInvalidChar c) (hasInvalidChar r)
  end.

(** [inputPath.replace(/^[A-Za-z]:/, '')] *)
Definition withoutDrive (inputPath : string) : string :=
  match inputPath with
  | String c (String ":"%char r) => if Js.isLetter c then r else inputPath
  | _ => inputPath
  end.

Definition isValidPath (inputPath : string) : bool :=
  if orb (negb (Js.truthy inputPath)) (String.length inputPath <? 3)
  then false
  else if hasInvalidChar (withoutDrive inputPath) then false
  else if 250 <? String.length inputPath then false
  else true.

(** [normalized.match(/^[A-Za-z]:/)] *)
Definition hasDrivePrefix (normalized : string) : bool :=
  match normalized with
  | String c (String ":"%char _) => Js.isLetter c
  | _ => false
  end.

(** [parts[0]]; the string a missing element becomes in a concatenation. *)
Definition firstPart (parts : list string) : string :=
  match parts with
  | p :: _ => p
  | [] => "undefined"
  end.

Definition getParentDirectory (inputPath : string) : string :=
  let normalized := normalizeWindowsPath inputPath in
  let parts := segments normalized in
  if length parts <=? 1 then
    if hasDrivePrefix normalized then (firstPart parts ++ ":/")%string
    else "/"
  else
    let parts' := removelast parts in
    let result := Js.join "/" parts' in
    if hasDrivePrefix normalized then
      if Js.truthy result then result else (firstPart parts' ++ ":/")%string
    else ("/" ++ result)%string.

(** No two separators in a row. *)
Fixpoint noDoubleSep (s : string) : bool :=
  match s with
  | EmptyString => true
  | String c r =>
      match r with
      | String d _ => andb (negb (andb (isSep c) (isSep d))) (noDoubleSep r)
      | EmptyString => true
      end
  end.

Fixpoint noBackslash (s : string) : bool :=
  match s with
  | EmptyString => true
  | String c r => andb (negb (Ascii.eqb c backslash)) (noBackslash r)
  end.

Fixpoint noSep (s : string) : bool :=
  match s with
  | EmptyString => true
  | String c r => andb (negb (isSep c)) (noSep r)
  end.

End Path.

(** ** lib/utils/path.ts, whatever the case folding

    [generateConflictFreePath] with [String.prototype.toLowerCase] taken
    as a parameter: what is proved of it for every folding function holds
    of the code, on paths with letters outside ASCII too.  [Path] has the
    same function with the ASCII folding [Js.toLowerCase], which agrees
    with the code on ASCII paths and can be run. *)

Module PathFold.
Import Path.

Section Fold.

(** [s.toLowerCase()] *)
Variable toLowerCase : string -> string.

Definition taken (normalizedExisting : list string) (p : string) : bool :=
  Js.arrIncludes normalizedExisting (toLowerCase (normalizeWindowsPath p)).

(** The [while (true)] loop of [generateConflictFreePath], from the
    current value of [suffix]. *)
Equations? suffixLoop (basePath : string) (normalizedExisting : list string)
  (suffix : nat) : Res string by wf (remaining suffix) lt :=
  suffixLoop basePath normalizedExisting suffix
    with negb (taken normalizedExisting (candidateOf basePath suffix)) := {
    | true => Ok (candidateOf basePath suffix)
    | false with inspect (suffixLimit <? S suffix) := {
        | exist _ true _ => Throw "Too many path conflicts"
        | exist _ false H =>
            suffixLoop basePath normalizedExisting (S suffix) } }.
Proof.
  apply Nat.ltb_ge in H. unfold remaining, suffixLimit in *. lia.
Qed.

Definition generateConflictFreePath
  (basePath : string) (existingPaths : list string) : Res string :=
  let normalizedBase := toLowerCase (normalizeWindowsPath basePath) in
  let normalizedExisting :=
    map (fun p => toLowerCase (normalizeWindowsPath p)) existingPaths in
  if negb (Js.arrIncludes normalizedExisting normalizedBase)
  then Ok basePath
  else suffixLoop basePath normalizedExisting 2.

(** The suffix search as the specification words it: [basePath] when it
    is not, case-insensitively, among the existing paths; otherwise the
    first free one of the candidates [basePath-2], [basePath-3], ..., up
    to [basePath-100]; the exhaustion error when none of them is free. *)
Definition isFree (basePath : string) (normalizedExisting : list string)
           (k : nat) : bool :=
  negb (taken normalizedExisting (candidateOf basePath k)).

Definition firstFree (basePath : string) (normalizedExisting : list string)
  : option nat :=
  find (isFree basePath normalizedExisting) (seq 2 99).

Definition resolveConflict (basePath : string) (existingPaths : list string)
  : Res string :=
  let normalizedExisting :=
    map (fun p => toLowerCase (normalizeWindowsPath p)) existingPaths in
  if negb (Js.arrIncludes normalizedExisting
             (toLowerCase (normalizeWindowsPath basePath)))
  then Ok basePath
  else match firstFree basePath normalizedExisting with
       | Some k => Ok (candidateOf basePath k)
       | None => Throw "Too many path conflicts"
       end.

End Fold.

End PathFold.

(** ** lib/utils/git.ts: the discovery walker *)

Module Git.

Inductive EntryKind : Type := KFile | KDirectory | KSymlink | KOther.

(** A [Dirent] of [fs.readdir(_, { withFileTypes: true })]. *)
Record Dirent : Type := mkDirent { d_name : string; d_kind : EntryKind }.

Definition isDirectory (e : Dirent) : bool :=
  match d_kind e with KDirectory => true | _ => false end.

Definition isSymbolicLink (e : Dirent) : bool :=
  match d_kind e with KSymlink => true | _ => false end.

Definition skipDirs : list string :=
  [ "node_modules"; "vendor"; ".cache"; "__pycache__"; ".venv"; "venv";
    "env"; ".env"; "dist"; "build"; "out"; "target"; ".next"; ".nuxt";
    ".output"; "coverage" ].

Definition shouldSkipDirectory (name : string) : bool :=
  Js.arrIncludes skipDirs name.

(** [s.replace(/\/+/g, '/')] *)
Fixpoint collapseSlashes (s : string) : string :=
  match s with
  | EmptyString => EmptyString
  | String c r =>
      if Ascii.eqb c Path.slash then
        match r with
        | String d _ => if Ascii.eqb d Path.slash then collapseSlashes r
                        else String Path.slash (collapseSlashes r)
        | EmptyString => String Path.slash EmptyString
        end
      else String c (collapseSlashes r)
  end.

(** The child path pushed on the queue, the leading [//] of a UNC path
    kept. *)
Definition childPath (currentPath name : string) : string :=
  let fullPath := (currentPath ++ "/" ++ name)%string in
  let isUNC := Js.startsWith fullPath "//" in
  let fullPath := collapseSlashes fullPath in
  if isUNC then ("/" ++ fullPath)%string else fullPath.

Record QueueItem : Type := mkItem { q_path : string; q_depth : nat }.

(** The [for (const entry of entries)] loop at one directory: the paths
    it yields and the queue it leaves. *)
Fixpoint scanEntries (current : QueueItem) (entries : list Dirent)
         (queue : list QueueItem) : list string * list QueueItem :=
  match entries with
  | [] => ([], queue)
  | entry :: rest =>
      if negb (isDirectory entry) then scanEntries current rest queue
      else if String.eqb (d_name entry) ".git" then ([q_path current], queue)
      else if Js.startsWith (d_name entry) "." then
        scanEntries current rest queue
      else if shouldSkipDirectory (d_name entry) then
        scanEntries current rest queue
      else
        let fullPath := childPath (q_path current) (d_name entry) in
        scanEntries current rest
          (queue ++ [mkItem fullPath (q_depth current + 1)])
  end.

(** The entries the loop queues: directories other than [.git], hidden
    directories and the skipped ones. *)
Definition eligible (e : Dirent) : bool :=
  andb (isDirectory e)
       (andb (negb (String.eqb (d_name e) ".git"))
             (andb (negb (Js.startsWith (d_name e) "."))
                   (negb (shouldSkipDirectory (d_name e))))).

Definition isMarker (e : Dirent) : bool :=
  andb (isDirectory e) (String.eqb (d_name e) ".git").

Definition queued (current : QueueItem) (e : Dirent) : QueueItem :=
  mkItem (childPath (q_path current) (d_name e)) (q_depth current + 1).

Section Walker.

(** [normalizeForFs] of [./path] is imported by git.ts but is not among
    the sources; it is a parameter of the walker. *)
Variable normalizeForFs : string -> string.

(** The file system as the walker sees it: [fs.readdir], which may throw. *)
Variable readdir : string -> Res (list Dirent).

(** The [while (queue.length > 0)] loop; the result is the sequence of
    yielded paths, [None] when [fuel] iterations were not enough. *)
Fixpoint walk (fuel : nat) (maxDepth : nat) (queue : list QueueItem)
  : option (list string) :=
  match fuel with
  | O => None
  | S fuel' =>
      match queue with
      | [] => Some []
      | current :: rest =>
          if maxDepth <? q_depth current then walk fuel' maxDepth rest
          else
            match readdir (q_path current) with
            | Throw _ => walk fuel' maxDepth rest
            | Ok entries =>
                let '(yielded, queue') := scanEntries current entries rest in
                option_map (app yielded) (walk fuel' maxDepth queue')
            end
      end
  end.

Definition findGitRepos (fuel : nat) (directory : string) (maxDepth : nat)
  : option (list string) :=
  let normalizedDir := normalizeForFs directory in
  walk fuel maxDepth [mkItem normalizedDir 0].

End Walker.

(** A finite directory table, for running the walker on concrete trees. *)
Definition tableFs (table : list (string * list Dirent)) (p : string)
  : Res (list Dirent) :=
  match find (fun kv => String.eqb (fst kv) p) table with
  | Some kv => Ok (snd kv)
  | None => Throw "ENOENT: no such file or directory"
  end.

Definition dir (name : string) : Dirent := mkDirent name KDirectory.
Definition file (name : string) : Dirent := mkDirent name KFile.

(** A repository [/r] whose listing returns the directory [a] before
    [.git]; [a] is itself a repository. *)
Definition nestedBeforeMarker : list (string * list Dirent) :=
  [ ("/r", [dir "a"; dir ".git"; file "README.md"]);
    ("/r/a", [dir ".git"; dir "src"]);
    ("/r/a/src", [file "main.py"]) ].

(** The same tree, [.git] listed first. *)
Definition nestedAfterMarker : list (string * list Dirent) :=
  [ ("/r", [dir ".git"; dir "a"; file "README.md"]);
    ("/r/a", [dir ".git"; dir "src"]);
    ("/r/a/src", [file "main.py"]) ].

End Git.

(** ** The work left to the walker

    A measure of the queue of [findGitRepos] that every round of its loop
    decreases: the directories it can still reach within the depth
    limit. *)

Module GitWalk.
Import Git.

Section Walker.

Variable readdir : string -> Res (list Dirent).

(** The items the loop queues when it takes [item] off the queue. *)
Definition children (item : QueueItem) : list QueueItem :=
  match readdir (q_path item) with
  | Ok entries => snd (scanEntries item entries [])
  | Throw _ => []
  end.

(** The rounds of the loop spent on [item] and on what it leads to, with
    [levels] levels left above the depth limit. *)
Fixpoint work (levels : nat) (item : QueueItem) : nat :=
  match levels with
  | O => 1
  | S levels' => 1 + list_sum (map (work levels') (children item))
  end.

Definition levelsLeft (maxDepth : nat) (item : QueueItem) : nat :=
  maxDepth + 1 - q_depth item.

Definition queueWork (maxDepth : nat) (queue : list QueueItem) : nat :=
  list_sum (map (fun item => work (levelsLeft maxDepth item) item) queue).

(** A directory whose listing has the marker [.git]. *)
Definition hasMarker (p : string) : Prop :=
  exists entries, readdir p = Ok entries /\ existsb isMarker entries = true.

End Walker.

End GitWalk.

(** ** lib/services/scanner.ts: the theme classifier *)

Module Scanner.

Definition Dict : Type := list (string * string).

(** [obj?.[key]] on a [Record<string, string>] *)
Definition lookup (key : string) (d : Dict) : option string :=
  match find (fun kv => String.eqb (fst kv) key) d with
  | Some kv => Some (snd kv)
  | None => None
  end.

Record PackageJson : Type := mkPackageJson {
  dependencies : option Dict;
  devDependencies : option Dict
}.

Record ThemeSuggestionInput : Type := mkInput {
  packageJson : option PackageJson;
  files : option (list string);
  remoteUrl : option string;
  readmeContent : option string;
  repoDescription : option string
}.

(** [packageJson?.dependencies?.[key]] is truthy. *)
Definition hasDependency (pj : option PackageJson) (key : string) : bool :=
  match pj with
  | Some p =>
      match dependencies p with
      | Some d => Js.truthyOpt (lookup key d)
      | None => false
      end
  | None => false
  end.

Definition hasDevDependency (pj : option PackageJson) (key : string) : bool :=
  match pj with
  | Some p =>
      match devDependencies p with
      | Some d => Js.truthyOpt (lookup key d)
      | None => false
      end
  | None => false
  end.

Definition archivedKeywords : list string :=
  [ "archived"; "deprecated"; "legacy"; "old"; "unmaintained";
    "no longer maintained"; "obsolete"; "inactive" ].

Definition THEME_KEYWORDS : list (string * list string) :=
  [ ("nextjs",
     [ "next.js"; "nextjs"; "react"; "typescript"; "tailwind"; "vercel";
       "frontend"; "web app"; "dashboard"; "ui"; "component" ]);
    ("python",
     [ "python"; "django"; "flask"; "fastapi"; "pytorch"; "tensorflow";
       "machine learning"; "ml"; "ai"; "data science"; "pandas"; "numpy";
       "jupyter"; "notebook"; "pip"; "conda" ]);
    ("experiments",
     [ "experiment"; "poc"; "proof of concept"; "prototype"; "demo";
       "learning"; "tutorial"; "playground"; "sandbox"; "test"; "example" ]);
    ("archived", archivedKeywords) ].

(** [remoteUrl?.includes(s)] *)
Definition urlIncludes (url : option string) (s : string) : bool :=
  match url with
  | Some u => Js.includes u s
  | None => false
  end.

Definition orEmpty (s : option string) : string :=
  match s with
  | Some x => if Js.truthy x then x else EmptyString
  | None => EmptyString
  end.

Definition textContentOf (input : ThemeSuggestionInput) : string :=
  Js.toLowerCase
    (Js.join " " [orEmpty (readmeContent input);
                  orEmpty (repoDescription input)]).

(** [keywords.filter(kw => textContent.includes(kw)).length] *)
Definition score (textContent : string) (keywords : list string) : nat :=
  length (filter (fun kw => Js.includes textContent kw) keywords).

(** [Array.prototype.sort] is stable; with the comparator
    [(a, b) => b[1] - a[1]] an entry goes before the first entry of a
    strictly smaller score. *)
Fixpoint insertDesc (x : string * nat) (l : list (string * nat))
  : list (string * nat) :=
  match l with
  | [] => [x]
  | y :: l' => if snd y <? snd x then x :: y :: l' else y :: insertDesc x l'
  end.

Definition sortDesc (l : list (string * nat)) : list (string * nat) :=
  fold_left (fun acc x => insertDesc x acc) l [].

Definition pythonIndicators : list string :=
  [ "requirements.txt"; "setup.py"; "pyproject.toml"; "Pipfile" ].

Definition suggestTheme (input : ThemeSuggestionInput) : string :=
  let files := match files input with Some f => f | None => [] end in
  let textContent := textContentOf input in
  if orb (urlIncludes (remoteUrl input) "archived")
       (orb (urlIncludes (remoteUrl input) "deprecated")
            (existsb (fun kw => Js.includes textContent kw) archivedKeywords))
  then "archived"
  else if orb (hasDependency (packageJson input) "next")
              (hasDevDependency (packageJson input) "next")
  then "nextjs"
  else if andb (hasDependency (packageJson input) "react")
               (andb (negb (hasDependency (packageJson input) "next"))
                     (negb (hasDevDependency (packageJson input) "next")))
  then "nextjs"
  else if orb (existsb (fun f => Js.arrIncludes pythonIndicators f) files)
              (existsb (fun f => Js.endsWith f ".py") files)
  then "python"
  else if hasDependency (packageJson input) "vue"
  then "experiments"
  else
    let fromText :=
      if 0 <? String.length textContent then
        let scores :=
          map (fun tk => (fst tk, score textContent (snd tk)))
              THEME_KEYWORDS in
        match sortDesc (filter (fun e => 0 <? snd e) scores) with
        | bestTheme :: _ =>
            if 2 <=? snd bestTheme then Some (fst bestTheme) else None
        | [] => None
        end
      else None in
    match fromText with
    | Some theme => theme
    | None => "unclassified"
    end.

(** The number of distinct archival keywords occurring in the combined
    readme and description text. *)
Definition archivalHits (input : ThemeSuggestionInput) : nat :=
  score (textContentOf input) archivedKeywords.

(** The condition under which the specification has "archived"
    returned: a URL signal, or at least two archival keywords. *)
Definition archivedAsClaimed (input : ThemeSuggestionInput) : bool :=
  orb (urlIncludes (remoteUrl input) "archived")
      (orb (urlIncludes (remoteUrl input) "deprecated")
           (2 <=? archivalHits input)).

Definition textInput (readme : string) : ThemeSuggestionInput :=
  mkInput None None None (Some readme) None.

End Scanner.

(** ** lib/types.ts and the record store *)

Inductive TriageStatus : Type := Pending | Manual | Auto | Ignored.


(** [ActionResult<T>] *)
Inductive ActionResult (T : Type) : Type :=
| Success (data : T) (message : option string)
| Failure (error : string).
Arguments Success {T} data message.
Arguments Failure {T} error.

Definition statusName (s : TriageStatus) : string :=
  match s with
  | Pending => "pending"
  | Manual => "manual"
  | Auto => "auto"
  | Ignored => "ignored"
  end.


Module Store.

(** A row of the [Repository] table.  The time stamps the store keeps on
    its own ([createdAt], [updatedAt], [lastSyncAt]) are left out: no
    action of the pipeline reads or writes them.  [triageStatus] is a
    text column; the actions write the four values of [TriageStatus]
    only. *)
Record Repository : Type := mkRepository {
  id : Z;
  name : string;
  remoteUrl : option string;
  originalPath : string;
  physicalPath : option string;
  theme : option string;
  triageStatus : TriageStatus;
  lastCommitSha : option string;
  isDirty : bool
}.

Definition Table : Type := list Repository.

Record Settings : Type := mkSettings {
  organizationRoot : option string;
  autoTriageEnabled : bool;
  backupDestination : option string
}.

(** [prisma.repository.findUnique({ where: { id } })] *)
Definition findUnique (i : Z) (t : Table) : option Repository :=
  find (fun r => Z.eqb (id r) i) t.

(** [prisma.repository.findMany({ where: { id: { in: ids } } })], in table
    order. *)
Definition findManyIn (ids : list Z) (t : Table) : list Repository :=
  filter (fun r => existsb (Z.eqb (id r)) ids) t.

(** [prisma.repository.update({ where: { id }, data })]: the row is
    rewritten by [f]; the call throws when no row has the id. *)
Definition update (i : Z) (f : Repository -> Repository) (t : Table)
  : Res Table :=
  match findUnique i t with
  | Some _ => Ok (map (fun r => if Z.eqb (id r) i then f r else r) t)
  | None => Throw "Record to update not found."
  end.

(** [prisma.repository.updateMany({ where: { id: { in: ids } }, data })] *)
Definition updateMany (ids : list Z) (f : Repository -> Repository)
           (t : Table) : Table :=
  map (fun r => if existsb (Z.eqb (id r)) ids then f r else r) t.

(** The id the store gives a new row: above every id in the table. *)
Definition nextId (t : Table) : Z :=
  fold_left (fun acc r => Z.max acc (id r)) t 0%Z + 1.

(** [prisma.repository.create({ data })]; columns not given take their
    defaults ([physicalPath] null, [isDirty] as given). *)
Definition create (mk : Z -> Repository) (t : Table) : Table :=
  t ++ [mk (nextId t)].

Definition setTheme (th : option string) (r : Repository) : Repository :=
  mkRepository (id r) (name r) (remoteUrl r) (originalPath r)
    (physicalPath r) th (triageStatus r) (lastCommitSha r) (isDirty r).

Definition setStatus (s : TriageStatus) (r : Repository) : Repository :=
  mkRepository (id r) (name r) (remoteUrl r) (originalPath r)
    (physicalPath r) (theme r) s (lastCommitSha r) (isDirty r).

Definition setPhysicalPath (p : option string) (r : Repository)
  : Repository :=
  mkRepository (id r) (name r) (remoteUrl r) (originalPath r)
    p (theme r) (triageStatus r) (lastCommitSha r) (isDirty r).

Definition setVolatile (url sha : option string) (dirty : bool)
           (r : Repository) : Repository :=
  mkRepository (id r) (name r) url (originalPath r)
    (physicalPath r) (theme r) (triageStatus r) sha dirty.

(** A theme that is set is not the empty string. *)
Definition themeSet (r : Repository) : Prop := theme r <> Some EmptyString.



End Store.

(** ** lib/types.ts: system paths and the path schemas *)

Module Schemas.

Definition SYSTEM_PATHS_WINDOWS : list string :=
  [ "C:/Windows"; "C:/Program Files"; "C:/Program Files (x86)";
    "C:/ProgramData"; "C:/Users/Default"; "C:/Recovery";
    "C:/$Recycle.Bin"; "C:/System Volume Information" ].

Definition SYSTEM_PATHS_UNIX : list string :=
  [ "/bin"; "/boot"; "/dev"; "/etc"; "/lib"; "/lib64"; "/opt"; "/proc";
    "/root"; "/sbin"; "/sys"; "/tmp"; "/usr"; "/var" ].

Definition isSystemPath (path : string) : bool :=
  let normalizedPath := Js.toLowerCase (Path.normalizeWindowsPath path) in
  if existsb (fun systemPath =>
                Js.startsWith normalizedPath (Js.toLowerCase systemPath))
             SYSTEM_PATHS_WINDOWS
  then true
  else if existsb (fun systemPath =>
                     orb (Js.startsWith normalizedPath systemPath)
                         (String.eqb normalizedPath systemPath))
                  SYSTEM_PATHS_UNIX
  then true
  else false.

(** [scanDirSchema] and [settingsSchema] on the path they are given: at
    least three characters, and no system path. *)
Definition pathAccepted (path : string) : bool :=
  andb (3 <=? String.length path) (negb (isSystemPath path)).

End Schemas.

(** ** lib/services/scan-progress.ts: the progress of a scan

    The module keeps two variables, [scanCancelled] and [scanProgress];
    [Date.now()] is an argument of the operations that read the clock.
    The listeners only observe the progress, and what they throw is
    caught: they are left out. *)

Module Progress.

Inductive Status : Type := Idle | Scanning | Completed | Error | Cancelled.

Record ScanProgress : Type := mkProgress {
  status : Status;
  currentDirectory : string;
  currentDirectoryIndex : nat;
  totalDirectories : nat;
  reposFound : nat;
  startedAt : option nat;
  completedAt : option nat;
  error : option string
}.

Record Cell : Type := mkCell {
  scanCancelled : bool;
  scanProgress : ScanProgress
}.

Definition idle : ScanProgress :=
  mkProgress Idle EmptyString 0 0 0 None None None.

Definition initial : Cell := mkCell false idle.

Definition startScan (now totalDirectories : nat) (c : Cell) : Cell :=
  mkCell false
    (mkProgress Scanning EmptyString 0 totalDirectories 0 (Some now) None
                None).

Definition isScanInProgress (c : Cell) : bool :=
  match status (scanProgress c) with Scanning => true | _ => false end.

Definition cancelScan (now : nat) (c : Cell) : Cell :=
  if isScanInProgress c then
    let p := scanProgress c in
    mkCell true
      (mkProgress Cancelled (currentDirectory p) (currentDirectoryIndex p)
                  (totalDirectories p) (reposFound p) (startedAt p)
                  (Some now) (error p))
  else c.

(** The argument of [updateScanProgress]: the fields that are given. *)
Record Update : Type := mkUpdate {
  u_currentDirectory : option string;
  u_currentDirectoryIndex : option nat;
  u_reposFound : option nat
}.

Definition given {A : Type} (o : option A) (a : A) : A :=
  match o with Some x => x | None => a end.

Definition updateScanProgress (u : Update) (c : Cell) : Cell :=
  let p := scanProgress c in
  mkCell (scanCancelled c)
    (mkProgress (status p)
                (given (u_currentDirectory u) (currentDirectory p))
                (given (u_currentDirectoryIndex u) (currentDirectoryIndex p))
                (totalDirectories p)
                (given (u_reposFound u) (reposFound p))
                (startedAt p) (completedAt p) (error p)).

Definition completeScan (now found : nat) (c : Cell) : Cell :=
  let p := scanProgress c in
  mkCell (scanCancelled c)
    (mkProgress Completed (currentDirectory p) (currentDirectoryIndex p)
                (totalDirectories p) found (startedAt p) (Some now)
                (error p)).

Definition failScan (now : nat) (err : string) (c : Cell) : Cell :=
  let p := scanProgress c in
  mkCell (scanCancelled c)
    (mkProgress Error (currentDirectory p) (currentDirectoryIndex p)
                (totalDirectories p) (reposFound p) (startedAt p) (Some now)
                (Some err)).

Definition resetScan (c : Cell) : Cell := mkCell (scanCancelled c) idle.

(** The calls a run of the server makes to the module, in order. *)
Inductive Op : Type :=
| OStart (now totalDirectories : nat)
| OCancel (now : nat)
| OUpdate (u : Update)
| OComplete (now found : nat)
| OFail (now : nat) (err : string)
| OReset.

Definition step (c : Cell) (op : Op) : Cell :=
  match op with
  | OStart now total => startScan now total c
  | OCancel now => cancelScan now c
  | OUpdate u => updateScanProgress u c
  | OComplete now found => completeScan now found c
  | OFail now err => failScan now err c
  | OReset => resetScan c
  end.

Definition run (ops : list Op) : Cell := fold_left step ops initial.

(** What a client polling the progress can rely on. *)
Definition consistent (c : Cell) : Prop :=
  let p := scanProgress c in
  match status p with
  | Idle => startedAt p = None /\ completedAt p = None /\ error p = None
  | Scanning =>
      startedAt p <> None /\ completedAt p = None /\ error p = None
      /\ scanCancelled c = false
  | Cancelled =>
      startedAt p <> None /\ completedAt p <> None
      /\ scanCancelled c = true
  | Completed => completedAt p <> None
  | Error => completedAt p <> None /\ error p <> None
  end.

End Progress.

(** ** lib/actions/scan.ts: persisting the scan results

    The version of [triggerScan] that reports progress and seeds the
    theme from the classifier. *)

Module Scan.
Import Store.

(** What [scanDirectory] pushes for a repository. *)
Record RepoScanResult : Type := mkScanResult {
  sr_name : string;
  sr_path : string;
  sr_remoteUrl : option string;
  sr_lastCommitSha : option string;
  sr_isDirty : bool;
  sr_suggestedTheme : option string
}.

(** [new Map(existingRepos.map(r => [key r, r.id]))] *)
Definition existingPathMap (existingRepos : Table) : list (string * Z) :=
  map (fun r =>
         (Js.toLowerCase (Path.normalizeWindowsPath (originalPath r)), id r))
      existingRepos.

(** [map.get(key)]: of several entries with one key the last one stays. *)
Definition mapGet (key : string) (m : list (string * Z)) : option Z :=
  match find (fun kv => String.eqb (fst kv) key) (rev m) with
  | Some kv => Some (snd kv)
  | None => None
  end.

Record Counters : Type := mkCounters { newRepos : nat; updatedRepos : nat }.

(** The data of the update of an existing row. *)
Definition refresh (existingRepo : option Repository)
           (result : RepoScanResult) (r : Repository) : Repository :=
  let r' :=
    setVolatile (sr_remoteUrl result) (sr_lastCommitSha result)
                (sr_isDirty result) r in
  match existingRepo with
  | Some e =>
      if andb (negb (Js.truthyOpt (theme e)))
              (Js.truthyOpt (sr_suggestedTheme result))
      then setTheme (sr_suggestedTheme result) r'
      else r'
  | None => r'
  end.

(** One round of the [for (const result of scanResults)] loop. *)
Definition upsertOne (pathMap : list (string * Z)) (result : RepoScanResult)
           (st : Table * Counters) : Res (Table * Counters) :=
  let '(t, c) := st in
  let storedPath := Path.normalizeWindowsPath (sr_path result) in
  let lookupPath := Js.toLowerCase storedPath in
  let existingId := mapGet lookupPath pathMap in
  match existingId with
  | Some i =>
      if negb (Z.eqb i 0) then
        let existingRepo := findUnique i t in
        match update i (refresh existingRepo result) t with
        | Ok t' => Ok (t', mkCounters (newRepos c) (S (updatedRepos c)))
        | Throw m => Throw m
        end
      else
        Ok (create (fun i' =>
                      mkRepository i' (sr_name result) (sr_remoteUrl result)
                        storedPath None
                        (if Js.truthyOpt (sr_suggestedTheme result)
                         then sr_suggestedTheme result else None)
                        Pending (sr_lastCommitSha result) (sr_isDirty result))
                   t,
            mkCounters (S (newRepos c)) (updatedRepos c))
  | None =>
      Ok (create (fun i' =>
                    mkRepository i' (sr_name result) (sr_remoteUrl result)
                      storedPath None
                      (if Js.truthyOpt (sr_suggestedTheme result)
                       then sr_suggestedTheme result else None)
                      Pending (sr_lastCommitSha result) (sr_isDirty result))
                 t,
          mkCounters (S (newRepos c)) (updatedRepos c))
  end.

Fixpoint upsertLoop (pathMap : list (string * Z))
         (scanResults : list RepoScanResult) (st : Table * Counters)
  : Res (Table * Counters) :=
  match scanResults with
  | [] => Ok st
  | result :: rest =>
      match upsertOne pathMap result st with
      | Ok st' => upsertLoop pathMap rest st'
      | Throw m => Throw m
      end
  end.

(** The part of [triggerScan] that follows the scan itself: the upsert of
    every result against the rows present when it starts.  A throw leaves
    the rows already written in place. *)
Definition persistScanResults (scanResults : list RepoScanResult) (t : Table)
  : Res (Table * Counters) :=
  let existingRepos := t in
  upsertLoop (existingPathMap existingRepos) scanResults
             (t, mkCounters 0 0).

(** What the re-scan leaves of an existing row [r] in the row [r'] that
    replaces it: everything but the volatile fields, and the theme when
    one was set. *)
Definition keeps (r r' : Repository) : Prop :=
  id r' = id r /\ name r' = name r /\ originalPath r' = originalPath r
  /\ physicalPath r' = physicalPath r /\ triageStatus r' = triageStatus r
  /\ (Js.truthyOpt (theme r) = true -> theme r' = theme r).

(** The state of the upsert loop: the rows present at the start, each
    still kept, followed by the rows created since; ids are unique. *)
Definition loopInv (t cur : Table) : Prop :=
  NoDup (map id cur)
  /\ exists kept created, cur = kept ++ created /\ Forall2 keeps t kept.

(** The themes of the rows after a scan, when it went through. *)
Definition themesAfter (r : Res (Table * Counters))
  : option (list (option string)) :=
  match r with
  | Ok (t, _) => Some (map theme t)
  | Throw _ => None
  end.

(** A row whose theme is the empty string, and a scan result for it. *)
Definition blankThemed : Repository :=
  mkRepository 7 "tool" None "C:/src/tool" None (Some EmptyString) Pending
               None false.

Definition rescanTool : RepoScanResult :=
  mkScanResult "tool" "c:/SRC/Tool" None (Some "abc123") true
               (Some "python").

Definition classified : Repository :=
  mkRepository 8 "site" None "C:/src/site" None (Some "nextjs") Manual
               None false.

Definition rescanSite : RepoScanResult :=
  mkScanResult "site" "c:/src/site" (Some "git@host:site.git")
               (Some "def456") true (Some "python").

End Scan.

(** ** lib/services/scanner.ts: the results of a scan *)

Module ScannerResults.
Import Scan.

(** The key under which a path is compared: separators unified, lower
    case. *)
Definition pathKey (p : string) : string :=
  Js.toLowerCase (Path.normalizeWindowsPath p).

(** [seen.has(key)] on the [Map] of [deduplicateByPath], kept in insertion
    order. *)
Definition seenHas (key : string) (seen : list (string * RepoScanResult))
  : bool :=
  existsb (fun kv => String.eqb (fst kv) key) seen.

(** The [for (const result of results)] loop of [deduplicateByPath]. *)
Fixpoint dedupLoop (results : list RepoScanResult)
         (seen : list (string * RepoScanResult))
  : list (string * RepoScanResult) :=
  match results with
  | [] => seen
  | result :: rest =>
      let normalizedPath := pathKey (sr_path result) in
      if negb (seenHas normalizedPath seen)
      then dedupLoop rest (seen ++ [(normalizedPath, result)])
      else dedupLoop rest seen
  end.

Definition deduplicateByPath (results : list RepoScanResult)
  : list RepoScanResult :=
  map snd (dedupLoop results []).

(** The keys of the rows of a table and of the results of a scan. *)
Definition rowKeys (t : Store.Table) : list string :=
  map (fun r => pathKey (Store.originalPath r)) t.

Definition resultKeys (results : list RepoScanResult) : list string :=
  map (fun r => pathKey (sr_path r)) results.

(** Whether a row of [t] has the key [k], and the keys of the results that
    no row of [t] has, in the order of the results. *)
Definition knownKey (t : Store.Table) (k : string) : bool :=
  existsb (String.eqb k) (rowKeys t).

Definition freshKeys (t : Store.Table) (results : list RepoScanResult)
  : list string :=
  filter (fun k => negb (knownKey t k)) (resultKeys results).

(** The state of the upsert loop of [persistScanResults] after the results
    [done], started on the table [t]: the rows of [t] are kept, one row was
    created for each fresh key, and the counters count them. *)
Definition scanInv (t : Store.Table) (done : list RepoScanResult)
           (cur : Store.Table) (c : Counters) : Prop :=
  loopInv t cur
  /\ (forall i, In i (map Store.id t) -> In i (map Store.id cur))
  /\ Forall (fun r => (0 < Store.id r)%Z) cur
  /\ rowKeys cur = rowKeys t ++ freshKeys t done
  /\ newRepos c = length (freshKeys t done)
  /\ newRepos c + updatedRepos c = length done.

End ScannerResults.

(** ** lib/services/scanner.ts: the results of a scan, whatever the case
    folding

    [deduplicateByPath] with [String.prototype.toLowerCase] taken as a
    parameter; [ScannerResults] has it at the ASCII folding. *)

Module ScannerFold.
Import Scan ScannerResults.

Section Fold.

(** [s.toLowerCase()] *)
Variable toLowerCase : string -> string.

(** [normalizeWindowsPath(result.path).toLowerCase()] *)
Definition pathKey (p : string) : string :=
  toLowerCase (Path.normalizeWindowsPath p).

(** The [for (const result of results)] loop of [deduplicateByPath]; the
    [Map] is kept in insertion order. *)
Fixpoint dedupLoop (results : list RepoScanResult)
         (seen : list (string * RepoScanResult))
  : list (string * RepoScanResult) :=
  match results with
  | [] => seen
  | result :: rest =>
      let normalizedPath := pathKey (sr_path result) in
      if negb (seenHas normalizedPath seen)
      then dedupLoop rest (seen ++ [(normalizedPath, result)])
      else dedupLoop rest seen
  end.

Definition deduplicateByPath (results : list RepoScanResult)
  : list RepoScanResult :=
  map snd (dedupLoop results []).

Definition resultKeys (results : list RepoScanResult) : list string :=
  map (fun r => pathKey (sr_path r)) results.

End Fold.

End ScannerFold.

(** ** lib/actions/scan.ts: persisting the scan results, whatever the case
    folding

    The upsert loop of [triggerScan] with [String.prototype.toLowerCase]
    taken as a parameter; [Scan] has it at the ASCII folding. *)

Module ScanFold.
Import Store Scan ScannerResults.

Section Fold.

(** [s.toLowerCase()] *)
Variable toLowerCase : string -> string.

(** [new Map(existingRepos.map(r => [key r, r.id]))] *)
Definition existingPathMap (existingRepos : Table) : list (string * Z) :=
  map (fun r =>
         (toLowerCase (Path.normalizeWindowsPath (originalPath r)), id r))
      existingRepos.

(** One round of the [for (const result of scanResults)] loop. *)
Definition upsertOne (pathMap : list (string * Z)) (result : RepoScanResult)
           (st : Table * Counters) : Res (Table * Counters) :=
  let '(t, c) := st in
  let storedPath := Path.normalizeWindowsPath (sr_path result) in
  let lookupPath := toLowerCase storedPath in
  let existingId := mapGet lookupPath pathMap in
  match existingId with
  | Some i =>
      if negb (Z.eqb i 0) then
        let existingRepo := findUnique i t in
        match update i (refresh existingRepo result) t with
        | Ok t' => Ok (t', mkCounters (newRepos c) (S (updatedRepos c)))
        | Throw m => Throw m
        end
      else
        Ok (create (fun i' =>
                      mkRepository i' (sr_name result) (sr_remoteUrl result)
                        storedPath None
                        (if Js.truthyOpt (sr_suggestedTheme result)
                         then sr_suggestedTheme result else None)
                        Pending (sr_lastCommitSha result) (sr_isDirty result))
                   t,
            mkCounters (S (newRepos c)) (updatedRepos c))
  | None =>
      Ok (create (fun i' =>
                    mkRepository i' (sr_name result) (sr_remoteUrl result)
                      storedPath None
                      (if Js.truthyOpt (sr_suggestedTheme result)
                       then sr_suggestedTheme result else None)
                      Pending (sr_lastCommitSha result) (sr_isDirty result))
                 t,
          mkCounters (S (newRepos c)) (updatedRepos c))
  end.

Fixpoint upsertLoop (pathMap : list (string * Z))
         (scanResults : list RepoScanResult) (st : Table * Counters)
  : Res (Table * Counters) :=
  match scanResults with
  | [] => Ok st
  | result :: rest =>
      match upsertOne pathMap result st with
      | Ok st' => upsertLoop pathMap rest st'
      | Throw m => Throw m
      end
  end.

Definition persistScanResults (scanResults : list RepoScanResult) (t : Table)
  : Res (Table * Counters) :=
  let existingRepos := t in
  upsertLoop (existingPathMap existingRepos) scanResults
             (t, mkCounters 0 0).

(** The keys of the rows of a table; whether a row of [t] has the key
    [k]; the keys of the results that no row of [t] has, in the order of
    the results. *)
Definition rowKeys (t : Table) : list string :=
  map (fun r => ScannerFold.pathKey toLowerCase (originalPath r)) t.

Definition knownKey (t : Table) (k : string) : bool :=
  existsb (String.eqb k) (rowKeys t).

Definition freshKeys (t : Table) (results : list RepoScanResult)
  : list string :=
  filter (fun k => negb (knownKey t k))
         (ScannerFold.resultKeys toLowerCase results).

(** The state of the upsert loop after the results [done], started on the
    table [t]: the rows of [t] are kept, one row was created for each
    fresh key, and the counters count them. *)
Definition scanInv (t : Table) (done : list RepoScanResult)
           (cur : Table) (c : Counters) : Prop :=
  loopInv t cur
  /\ (forall i, In i (map id t) -> In i (map id cur))
  /\ Forall (fun r => (0 < id r)%Z) cur
  /\ rowKeys cur = rowKeys t ++ freshKeys t done
  /\ newRepos c = length (freshKeys t done)
  /\ newRepos c + updatedRepos c = length done.

End Fold.

End ScanFold.

(** ** lib/actions/repositories.ts

    The actions as functions from the table to the table they leave and
    the result they report.  The table is the one the code leaves in
    every case.  The result is the one reported when the calls of
    [revalidatePath] that follow the update return: these calls are left
    out, and where one of them throws the code reports a failure with
    its message, the update already made. *)

Module Repositories.
Import Store.

(** The error of a call refused by the zod schema.  The code reports the
    message of the first issue, which zod words, and this text when the
    issue has none. *)
Definition zodIssue : string := "Invalid data".

(** [assignThemeSchema]: a positive integer id and a theme of at least
    one character. *)
Definition assignThemeValid (repoId : Z) (th : string) : bool :=
  andb (0 <? repoId)%Z (1 <=? String.length th).

Definition assignTheme (repoId : Z) (th : string) (t : Table)
  : Table * ActionResult unit :=
  if negb (assignThemeValid repoId th) then (t, Failure zodIssue)
  else
    match findUnique repoId t with
    | None => (t, Failure "Repository not found")
    | Some repo =>
        match update repoId
                (fun r => setStatus Manual (setTheme (Some th) r)) t with
        | Ok t' =>
            (t', Success tt
                   (Some ("Theme " ++ Js.quoted th ++ " assigned to "
                            ++ name repo)%string))
        | Throw m => (t, Failure m)
        end
    end.

Definition bulkAssignThemeValid (repoIds : list Z) (th : string) : bool :=
  andb (andb (forallb (fun i => (0 <? i)%Z) repoIds)
             (1 <=? length repoIds))
       (1 <=? String.length th).

Definition bulkAssignTheme (repoIds : list Z) (th : string) (t : Table)
  : Table * ActionResult unit :=
  if negb (bulkAssignThemeValid repoIds th) then (t, Failure zodIssue)
  else
    (updateMany repoIds (fun r => setStatus Manual (setTheme (Some th) r)) t,
     Success tt
       (Some ("Theme " ++ Js.quoted th ++ " assigned to "
                ++ Js.showNat (length repoIds) ++ " repositories")%string)).

Definition setTriageStatus (repoId : Z) (status : TriageStatus) (t : Table)
  : Table * ActionResult unit :=
  match findUnique repoId t with
  | None => (t, Failure "Repository not found")
  | Some repo =>
      match update repoId (setStatus status) t with
      | Ok t' =>
          (t', Success tt
                 (Some ("Status updated to "
                          ++ Js.quoted (statusName status))%string))
      | Throw m => (t, Failure m)
      end
  end.

Definition ignoreRepository (repoId : Z) (t : Table)
  : Table * ActionResult unit :=
  setTriageStatus repoId Ignored t.

End Repositories.

(** ** lib/actions/triage.ts: the move planner *)

Module Planner.
Import Store.

Record MovePreview : Type := mkPreview {
  repoId : Z;
  repoName : string;
  from : string;
  to : string;
  p_theme : string;
  conflicts : list string;
  warnings : list string
}.

(** [set.add(x)] on a [Set<string>] kept in insertion order. *)
Definition setAdd (x : string) (s : list string) : list string :=
  if Js.arrIncludes s x then s else s ++ [x].

(** [a || b] on [string | null] and [string]. *)
Definition orElse (a : option string) (b : string) : string :=
  match a with
  | Some x => if Js.truthy x then x else b
  | None => b
  end.

(** One round of the [for (const repo of repos)] loop: the entry pushed
    and the set of taken paths afterwards. *)
Definition previewOne (root : string) (repo : Repository)
           (existingPaths : list string) : Res (MovePreview * list string) :=
  if negb (Js.truthyOpt (theme repo)) then
    Ok (mkPreview (id repo) (name repo) (originalPath repo)
                  EmptyString EmptyString ["No theme assigned"] [],
        existingPaths)
  else
    let th := orElse (theme repo) EmptyString in
    let targetDir := Path.joinPaths [root; th] in
    let targetPath := Path.joinPaths [targetDir; name repo] in
    let warnings1 :=
      if isDirty repo then ["Repository has uncommitted changes"] else [] in
    let sourcePath := orElse (physicalPath repo) (originalPath repo) in
    let warnings2 :=
      if negb (Path.isSameDrive sourcePath targetPath)
      then warnings1 ++ ["Cross-drive move (will copy and delete)"]
      else warnings1 in
    let normalizedTarget :=
      Js.toLowerCase (Path.normalizeWindowsPath targetPath) in
    let resolved :=
      if Js.arrIncludes existingPaths normalizedTarget then
        match Path.generateConflictFreePath targetPath existingPaths with
        | Ok newPath =>
            Ok (newPath,
                warnings2 ++
                  [("Path conflict: will use "
                      ++ Path.getRepoNameFromPath newPath)%string])
        | Throw m => Throw m
        end
      else Ok (targetPath, warnings2) in
    match resolved with
    | Ok (targetPath', warnings3) =>
        Ok (mkPreview (id repo) (name repo) sourcePath targetPath' th
                      [] warnings3,
            setAdd (Js.toLowerCase (Path.normalizeWindowsPath targetPath'))
                   existingPaths)
    | Throw m => Throw m
    end.

Fixpoint previewLoop (root : string) (repos : list Repository)
         (existingPaths : list string) (previews : list MovePreview)
  : Res (list MovePreview) :=
  match repos with
  | [] => Ok previews
  | repo :: rest =>
      match previewOne root repo existingPaths with
      | Ok (entry, existingPaths') =>
          previewLoop root rest existingPaths' (previews ++ [entry])
      | Throw m => Throw m
      end
  end.

(** [generateMovePreview(repoIds)].  [settings] is the row read from the
    store, [t] the repository table, and [existing] the set returned by
    [getExistingPaths] for the organization root. *)
Definition generateMovePreview (settings : option Settings) (t : Table)
           (existing : list string) (repoIds : list Z)
  : ActionResult (list MovePreview) :=
  match settings with
  | None => Failure "Organization root not configured. Update Settings first."
  | Some s =>
      if negb (Js.truthyOpt (organizationRoot s)) then
        Failure "Organization root not configured. Update Settings first."
      else
        let root := orElse (organizationRoot s) EmptyString in
        let repos := findManyIn repoIds t in
        if Nat.eqb (length repos) 0 then Failure "No repositories found"
        else
          match previewLoop root repos existing [] with
          | Ok previews => Success previews None
          | Throw m => Failure m
          end
  end.

Definition noThemeEntry (e : MovePreview) : Prop :=
  to e = EmptyString /\ conflicts e = ["No theme assigned"].

(** The entry [e] of the preview accounts for the row [r]. *)
Definition accountsFor (r : Repository) (e : MovePreview) : Prop :=
  repoId e = id r /\ repoName e = name r
  /\ (Js.truthyOpt (theme r) = false
      -> noThemeEntry e /\ from e = originalPath r)
  /\ (Js.truthyOpt (theme r) = true
      -> conflicts e = [] /\ Some (p_theme e) = theme r).

Definition rootConfigured (settings : option Settings) : bool :=
  match settings with
  | Some s => Js.truthyOpt (organizationRoot s)
  | None => false
  end.

(** The ids of the entries of a preview, when there is one. *)
Definition previewIds (r : ActionResult (list MovePreview))
  : option (list Z) :=
  match r with
  | Success previews _ => Some (map repoId previews)
  | Failure _ => None
  end.

(** Two rows for running the planner: one classified, one not. *)
Definition repoA : Repository :=
  mkRepository 1 "app" None "D:/src/app" None (Some "nextjs") Manual
               None false.

Definition repoB : Repository :=
  mkRepository 2 "lib" None "C:/src/lib" None None Pending None true.

Definition settingsC : Settings :=
  mkSettings (Some "C:/Org") false None.

End Planner.

(** ** lib/actions/triage.ts: the move executor *)

Module Executor.
Import Store Planner.

Inductive ConflictMode : Type := Suffix | Skip | Fail.

Record MoveOptions : Type := mkOptions {
  createBackup : bool;
  handleConflicts : ConflictMode
}.

Definition DEFAULT_MOVE_OPTIONS : MoveOptions := mkOptions false Suffix.

Record MoveResult : Type := mkResult {
  r_success : bool;
  r_repoId : Z;
  r_repoName : string;
  r_from : string;
  r_to : string;
  r_error : option string
}.

Record MoveSummary : Type := mkSummary {
  successful : nat;
  failed : nat;
  results : list MoveResult
}.

(** The calls the executor makes to its collaborators, in the order it
    makes them. *)
Inductive Event : Type :=
| EvMkdir (p : string)
| EvAccess (p : string)
| EvRename (src dest : string)
| EvReaddir (p : string)
| EvReadlink (p : string)
| EvSymlink (target dest : string)
| EvCopyFile (src dest : string)
| EvRm (p : string)
| EvDbUpdate (i : Z) (physical : string)
| EvRevalidate (p : string).

(** The host the executor runs on: Node's [fs/promises] and [path], and
    Next's [revalidatePath], over a state [W] of the outside world.  Every
    call may change the world and may throw. *)
Class Host (W : Type) : Type := {
  fs_mkdir : string -> W -> W * Res unit;
  fs_access : string -> W -> W * Res unit;
  fs_rename : string -> string -> W -> W * Res unit;
  fs_readdir : string -> W -> W * Res (list Git.Dirent);
  fs_readlink : string -> W -> W * Res string;
  fs_symlink : string -> string -> W -> W * Res unit;
  fs_copyFile : string -> string -> W -> W * Res unit;
  fs_rm : string -> W -> W * Res unit;
  revalidatePath : string -> W -> W * Res unit;
  path_dirname : string -> string;
  path_join : string -> string -> string
}.

(** What a computation comes to: a value, a thrown error, or a recursion
    that has not finished within its fuel. *)
Inductive Outcome (A : Type) : Type :=
| Return (a : A)
| Raise (message : string)
| OutOfFuel.
Arguments Return {A} a.
Arguments Raise {A} message.
Arguments OutOfFuel {A}.

(** The kinds of events. *)
Definition isCopyEvent (e : Event) : bool :=
  match e with
  | EvMkdir _ | EvReaddir _ | EvReadlink _ | EvSymlink _ _
  | EvCopyFile _ _ => true
  | _ => false
  end.

Definition isRm (e : Event) : bool :=
  match e with EvRm _ => true | _ => false end.

Definition isRename (e : Event) : bool :=
  match e with EvRename _ _ => true | _ => false end.

(** The events that touch the store only. *)
Definition isDbEvent (e : Event) : bool :=
  match e with EvDbUpdate _ _ => true | _ => false end.

(** What identifies the entry in a per-entry result. *)
Definition moveKey (m : MovePreview) : Z * string * string * string :=
  (repoId m, repoName m, from m, to m).

Definition resultKey (r : MoveResult) : Z * string * string * string :=
  (r_repoId r, r_repoName r, r_from r, r_to r).

(** A result records a success, or a failure with its error. *)
Definition wellFormed (r : MoveResult) : Prop :=
  r_success r = true <-> r_error r = None.

Section WithHost.

Context {W : Type} `{Host W}.

Record St : Type := mkSt {
  world : W;
  table : Table;
  trace : list Event
}.

Definition M (A : Type) : Type := St -> St * Outcome A.

Definition ret {A : Type} (a : A) : M A := fun st => (st, Return a).

Definition bind {A B : Type} (m : M A) (k : A -> M B) : M B :=
  fun st =>
    match m st with
    | (st', Return a) => k a st'
    | (st', Raise msg) => (st', Raise msg)
    | (st', OutOfFuel) => (st', OutOfFuel)
    end.

(** [try { m } catch (error) { h error.message }] *)
Definition tryCatch {A : Type} (m : M A) (h : string -> M A) : M A :=
  fun st =>
    match m st with
    | (st', Raise msg) => h msg st'
    | other => other
    end.

(** A call to the host, recorded in the trace. *)
Definition call {A : Type} (e : Event) (op : W -> W * Res A) : M A :=
  fun st =>
    let '(w', r) := op (world st) in
    let st' := mkSt w' (table st) (trace st ++ [e]) in
    match r with
    | Ok a => (st', Return a)
    | Throw msg => (st', Raise msg)
    end.

Definition mkdir (p : string) : M unit := call (EvMkdir p) (fs_mkdir p).
Definition access (p : string) : M unit := call (EvAccess p) (fs_access p).
Definition rename (src dest : string) : M unit :=
  call (EvRename src dest) (fs_rename src dest).
Definition readdir (p : string) : M (list Git.Dirent) :=
  call (EvReaddir p) (fs_readdir p).
Definition readlink (p : string) : M string :=
  call (EvReadlink p) (fs_readlink p).
Definition symlink (target dest : string) : M unit :=
  call (EvSymlink target dest) (fs_symlink target dest).
Definition copyFile (src dest : string) : M unit :=
  call (EvCopyFile src dest) (fs_copyFile src dest).
Definition rm (p : string) : M unit := call (EvRm p) (fs_rm p).
Definition revalidate (p : string) : M unit :=
  call (EvRevalidate p) (revalidatePath p).

(** [prisma.repository.update] setting [physicalPath] and
    [triageStatus: "auto"]. *)
Definition markMoved (i : Z) (physical : string) : M unit :=
  fun st =>
    let tr := trace st ++ [EvDbUpdate i physical] in
    match update i (fun r => setStatus Auto
                               (setPhysicalPath (Some physical) r))
                 (table st) with
    | Ok t' => (mkSt (world st) t' tr, Return tt)
    | Throw msg => (mkSt (world st) (table st) tr, Raise msg)
    end.

(** [for (const x of xs) { await body(x) }] *)
Fixpoint forEach {A : Type} (xs : list A) (body : A -> M unit) : M unit :=
  match xs with
  | [] => ret tt
  | x :: rest => bind (body x) (fun _ => forEach rest body)
  end.

(** The body of the loop of [copyDirectory] for one entry; [recur] is the
    recursive call. *)
Definition copyEntry (recur : string -> string -> M unit)
           (src dest : string) (entry : Git.Dirent) : M unit :=
  let srcPath := path_join src (Git.d_name entry) in
  let destPath := path_join dest (Git.d_name entry) in
  if Git.isSymbolicLink entry then
    bind (readlink srcPath) (fun linkTarget => symlink linkTarget destPath)
  else if Git.isDirectory entry then recur srcPath destPath
  else copyFile srcPath destPath.

(** [copyDirectory(src, dest)]; [fuel] bounds the depth of the recursion. *)
Fixpoint copyDirectory (fuel : nat) (src dest : string) : M unit :=
  match fuel with
  | O => fun st => (st, OutOfFuel)
  | S fuel' =>
      bind (mkdir dest) (fun _ =>
      bind (readdir src) (fun entries =>
      forEach entries (copyEntry (copyDirectory fuel') src dest)))
  end.

(** "Perform the move": rename on one drive, copy then delete across
    drives. *)
Definition relocate (fuel : nat) (src dest : string) : M unit :=
  if Path.isSameDrive src dest then rename src dest
  else bind (copyDirectory fuel src dest) (fun _ => rm src).

Definition failure (move : MovePreview) (err : string) : MoveResult :=
  mkResult false (repoId move) (repoName move) (from move) (to move)
           (Some err).

Definition success (move : MovePreview) : MoveResult :=
  mkResult true (repoId move) (repoName move) (from move) (to move) None.

(** The second half of the body of the loop of [executeMoves]: the target
    check, the move and the update of the store. *)
Definition moveChecked (fuel : nat) (options : MoveOptions)
           (move : MovePreview) : M MoveResult :=
  bind (tryCatch (bind (access (to move)) (fun _ => ret true))
                 (fun _ => ret false))
       (fun targetExists =>
          match targetExists, handleConflicts options with
          | true, Skip => ret (failure move "Target already exists (skipped)")
          | true, Fail => ret (failure move "Target already exists")
          | _, _ =>
              bind (relocate fuel (from move) (to move)) (fun _ =>
              bind (markMoved (repoId move)
                              (Path.normalizeWindowsPath (to move)))
                   (fun _ => ret (success move)))
          end).

(** The body of the loop of [executeMoves] for one entry: the result it
    pushes. *)
Definition attemptMove (fuel : nat) (options : MoveOptions)
           (move : MovePreview) : M MoveResult :=
  tryCatch
    (let targetDir := path_dirname (to move) in
     bind (mkdir targetDir) (fun _ =>
     bind (tryCatch (bind (access (from move)) (fun _ => ret true))
                    (fun _ => ret false))
          (fun sourceExists =>
             if sourceExists then moveChecked fuel options move
             else ret (failure move "Source directory not found"))))
    (fun msg => ret (failure move msg)).

Definition record (r : MoveResult) (acc : MoveSummary) : MoveSummary :=
  if r_success r
  then mkSummary (S (successful acc)) (failed acc) (results acc ++ [r])
  else mkSummary (successful acc) (S (failed acc)) (results acc ++ [r]).

(** The summary after the results [rs], pushed in this order. *)
Definition summarize (rs : list MoveResult) : MoveSummary :=
  fold_left (fun a r => record r a) rs (mkSummary 0 0 []).

(** [for (const move of validMoves)] *)
Fixpoint runMoves (fuel : nat) (options : MoveOptions)
         (validMoves : list MovePreview) (acc : MoveSummary)
  : M MoveSummary :=
  match validMoves with
  | [] => ret acc
  | move :: rest =>
      bind (attemptMove fuel options move) (fun r =>
      runMoves fuel options rest (record r acc))
  end.

Definition isValidMove (m : MovePreview) : bool :=
  andb (Nat.eqb (length (conflicts m)) 0)
       (negb (String.eqb (to m) EmptyString)).

Definition movedMessage (successful failed : nat) : string :=
  let tail :=
    if 0 <? failed then (", " ++ Js.showNat failed ++ " failed")%string
    else EmptyString in
  ("Moved " ++ Js.showNat successful ++ " repositories" ++ tail)%string.

Definition executeMoves (fuel : nat) (moves : list MovePreview)
           (options : MoveOptions) : M (ActionResult MoveSummary) :=
  tryCatch
    (let validMoves := filter isValidMove moves in
     if Nat.eqb (length validMoves) 0 then
       ret (Failure "No valid moves to execute. Resolve conflicts first.")
     else
       bind (runMoves fuel options validMoves (mkSummary 0 0 [])) (fun sum =>
       bind (revalidate "/dashboard/repos") (fun _ =>
       bind (revalidate "/dashboard/triage") (fun _ =>
       bind (revalidate "/dashboard") (fun _ =>
       ret (Success sum
              (Some (movedMessage (successful sum) (failed sum)))))))))
    (fun msg => ret (Failure msg)).

(** The checks before the move of an entry. *)
Definition preChecks (move : MovePreview) : list Event :=
  [EvMkdir (path_dirname (to move)); EvAccess (from move);
   EvAccess (to move)].

(** A computation respects a relation between the states before and
    after it. *)
Definition respects (R : St -> St -> Prop) {A : Type} (m : M A) : Prop :=
  forall st, R st (fst (m st)).

(** The events added to the trace are all of the kind [E]. *)
Definition emitsOnly (E : Event -> bool) (s s' : St) : Prop :=
  exists evs, trace s' = trace s ++ evs /\ forallb E evs = true.

(** The events of the step "perform the move" of an entry: one rename
    on one drive; across drives the events of a copy, followed by the
    delete of the source when, and only when, the copy has returned. *)
Inductive Relocation (fuel : nat) (src dest : string) : list Event -> Prop :=
| RelRename :
    Path.isSameDrive src dest = true ->
    Relocation fuel src dest [EvRename src dest]
| RelCopyOnly (st0 st1 : St) (o : Outcome unit) (cp : list Event) :
    Path.isSameDrive src dest = false ->
    copyDirectory fuel src dest st0 = (st1, o) ->
    o <> Return tt ->
    trace st1 = trace st0 ++ cp ->
    Relocation fuel src dest cp
| RelCopyThenDelete (st0 st1 : St) (cp : list Event) :
    Path.isSameDrive src dest = false ->
    copyDirectory fuel src dest st0 = (st1, Return tt) ->
    trace st1 = trace st0 ++ cp ->
    Relocation fuel src dest (cp ++ [EvRm src]).

(** [pre] is an initial part of [l]. *)
Definition isPrefix {A : Type} (pre l : list A) : Prop :=
  exists rest, l = pre ++ rest.

(** A computation that does not run out of fuel. *)
Definition finishes {A : Type} (m : M A) : Prop :=
  forall st, snd (m st) <> OutOfFuel.

(** The recursion of [copyDirectory] never runs out of [fuel]: the host
    has no directory tree deeper than that. *)
Definition copyBounded (fuel : nat) : Prop :=
  forall src dest st, snd (copyDirectory fuel src dest st) <> OutOfFuel.

(** [revalidatePath] does not throw. *)
Definition revalidateTotal : Prop :=
  forall p w, snd (revalidatePath p w) = Ok tt.

End WithHost.

Arguments St W : clear implicits.
Arguments M W A : clear implicits.

End Executor.

(** ** lib/actions/triage.ts: the paths taken below the root, and what the
    executor may change *)

Module Triage.
Import Store Planner Executor ScannerResults.

(** What the move of a row leaves of it: the row itself, or the row with
    a physical path and the status [auto]. *)
Definition relocated (r r' : Repository) : Prop :=
  r' = r \/ exists p, r' = setStatus Auto (setPhysicalPath (Some p) r).

(** The message of the entry refused for its existing target. *)
Definition targetExistsMessage (mode : ConflictMode) : string :=
  match mode with
  | Skip => "Target already exists (skipped)"
  | _ => "Target already exists"
  end.


Section WithHost.

Context {W : Type} `{Host W}.

(** The inner loop of [getExistingPaths]: the directories of one theme
    directory, added to the set under their keys. *)
Definition addRepoPaths (themePath : string) (repos : list Git.Dirent)
           (paths : list string) : list string :=
  fold_left (fun acc repo =>
               if Git.isDirectory repo
               then setAdd (pathKey (path_join themePath (Git.d_name repo)))
                           acc
               else acc)
            repos paths.

(** The outer loop of [getExistingPaths]; a listing that throws ends it,
    the paths added so far stay in the set. *)
Fixpoint themesLoop (root : string) (themes : list Git.Dirent)
         (paths : list string) (st : St W) : St W * list string :=
  match themes with
  | [] => (st, paths)
  | theme :: rest =>
      if negb (Git.isDirectory theme) then themesLoop root rest paths st
      else
        let themePath := path_join root (Git.d_name theme) in
        match readdir themePath st with
        | (st', Return repos) =>
            themesLoop root rest (addRepoPaths themePath repos paths) st'
        | (st', _) => (st', paths)
        end
  end.

(** [getExistingPaths(root)]: whatever is thrown is swallowed. *)
Definition getExistingPaths (root : string) (st : St W)
  : St W * list string :=
  match readdir root st with
  | (st', Return themes) => themesLoop root themes [] st'
  | (st', _) => (st', [])
  end.

Definition isReaddir (e : Event) : bool :=
  match e with EvReaddir _ => true | _ => false end.

(** [s] below the source and [d] below the destination of a copy, at the
    same place. *)
Inductive Mirror (src dest : string) : string -> string -> Prop :=
| MirrorRoot : Mirror src dest src dest
| MirrorJoin (s d name : string) :
    Mirror src dest s d ->
    Mirror src dest (path_join s name) (path_join d name).

(** An event of a copy from [src] to [dest] that reads below [src] only
    and writes below [dest] only, at the mirrored place. *)
Definition placed (src dest : string) (e : Event) : Prop :=
  match e with
  | EvMkdir d => exists s, Mirror src dest s d
  | EvSymlink _ d => exists s, Mirror src dest s d
  | EvReaddir s => exists d, Mirror src dest s d
  | EvReadlink s => exists d, Mirror src dest s d
  | EvCopyFile s d => Mirror src dest s d
  | _ => False
  end.

Definition emitsPlaced (src dest : string) (s s' : St W) : Prop :=
  exists evs, trace s' = trace s ++ evs /\ Forall (placed src dest) evs.

End WithHost.

End Triage.

(** ** What a relocation is

    The recursive copy and the step "perform the move" as relations
    between the answers of the host and the calls made: what the
    specification calls a recursive copy that keeps symbolic links as
    links, followed by the delete of the source. *)

Module Relocate.
Import Store Planner Executor.

Section WithHost.

Context {W : Type} `{Host W}.

(** [CopyTree src dest w evs w' r]: from the world [w], the copy of the
    directory [src] to [dest] makes the calls [evs], in this order, and
    ends in the world [w'] with the result [r].  The destination is made,
    the source listed, and its entries are copied in the order of the
    listing: a symbolic link is read and made again as a link, whatever
    it points to; a directory is copied in the same way; any other entry
    is copied as a file.  The first call that throws ends the copy. *)
Inductive CopyTree : string -> string -> W -> list Event -> W -> Res unit
                     -> Prop :=
| CopyNoTarget (src dest : string) (w w1 : W) (msg : string) :
    fs_mkdir dest w = (w1, Throw msg) ->
    CopyTree src dest w [EvMkdir dest] w1 (Throw msg)
| CopyNoListing (src dest : string) (w w1 w2 : W) (msg : string) :
    fs_mkdir dest w = (w1, Ok tt) ->
    fs_readdir src w1 = (w2, Throw msg) ->
    CopyTree src dest w [EvMkdir dest; EvReaddir src] w2 (Throw msg)
| CopyListed (src dest : string) (w w1 w2 w3 : W)
             (entries : list Git.Dirent) (evs : list Event) (r : Res unit) :
    fs_mkdir dest w = (w1, Ok tt) ->
    fs_readdir src w1 = (w2, Ok entries) ->
    CopyEntries src dest entries w2 evs w3 r ->
    CopyTree src dest w (EvMkdir dest :: EvReaddir src :: evs) w3 r
with CopyEntries : string -> string -> list Git.Dirent -> W -> list Event
                   -> W -> Res unit -> Prop :=
| CopyNone (src dest : string) (w : W) :
    CopyEntries src dest [] w [] w (Ok tt)
| CopyNext (src dest : string) (entry : Git.Dirent)
           (rest : list Git.Dirent) (w w1 w2 : W) (evs1 evs2 : list Event)
           (r : Res unit) :
    CopyOne src dest entry w evs1 w1 (Ok tt) ->
    CopyEntries src dest rest w1 evs2 w2 r ->
    CopyEntries src dest (entry :: rest) w (evs1 ++ evs2) w2 r
| CopyStops (src dest : string) (entry : Git.Dirent)
            (rest : list Git.Dirent) (w w1 : W) (evs1 : list Event)
            (msg : string) :
    CopyOne src dest entry w evs1 w1 (Throw msg) ->
    CopyEntries src dest (entry :: rest) w evs1 w1 (Throw msg)
with CopyOne : string -> string -> Git.Dirent -> W -> list Event -> W
               -> Res unit -> Prop :=
| CopyLink (src dest : string) (entry : Git.Dirent) (w w1 w2 : W)
           (linkTarget : string) (r : Res unit) :
    Git.isSymbolicLink entry = true ->
    fs_readlink (path_join src (Git.d_name entry)) w = (w1, Ok linkTarget) ->
    fs_symlink linkTarget (path_join dest (Git.d_name entry)) w1 = (w2, r) ->
    CopyOne src dest entry w
            [EvReadlink (path_join src (Git.d_name entry));
             EvSymlink linkTarget (path_join dest (Git.d_name entry))]
            w2 r
| CopyLinkUnread (src dest : string) (entry : Git.Dirent) (w w1 : W)
                 (msg : string) :
    Git.isSymbolicLink entry = true ->
    fs_readlink (path_join src (Git.d_name entry)) w = (w1, Throw msg) ->
    CopyOne src dest entry w
            [EvReadlink (path_join src (Git.d_name entry))] w1 (Throw msg)
| CopySubdirectory (src dest : string) (entry : Git.Dirent) (w w1 : W)
                   (evs : list Event) (r : Res unit) :
    Git.isSymbolicLink entry = false ->
    Git.isDirectory entry = true ->
    CopyTree (path_join src (Git.d_name entry))
             (path_join dest (Git.d_name entry)) w evs w1 r ->
    CopyOne src dest entry w evs w1 r
| CopyPlainFile (src dest : string) (entry : Git.Dirent) (w w1 : W)
                (r : Res unit) :
    Git.isSymbolicLink entry = false ->
    Git.isDirectory entry = false ->
    fs_copyFile (path_join src (Git.d_name entry))
                (path_join dest (Git.d_name entry)) w = (w1, r) ->
    CopyOne src dest entry w
            [EvCopyFile (path_join src (Git.d_name entry))
                        (path_join dest (Git.d_name entry))] w1 r.

(** The outcome of a computation that has ended with the result [r]. *)
Definition outcomeOf (r : Res unit) : Outcome unit :=
  match r with
  | Ok _ => Return tt
  | Throw msg => Raise msg
  end.

(** [Relocated src dest w evs w' r]: from the world [w], the relocation of
    [src] to [dest] makes the calls [evs] and ends in [w'] with the result
    [r]: on one drive a single rename; across drives a copy of the tree,
    followed by the delete of the source when the copy has ended without
    a throw, and by nothing when it has not. *)
Inductive Relocated (src dest : string) (w : W)
  : list Event -> W -> Res unit -> Prop :=
| RelocatedByRename (w1 : W) (r : Res unit) :
    Path.isSameDrive src dest = true ->
    fs_rename src dest w = (w1, r) ->
    Relocated src dest w [EvRename src dest] w1 r
| RelocatedByCopy (cp : list Event) (w1 w2 : W) (r : Res unit) :
    Path.isSameDrive src dest = false ->
    CopyTree src dest w cp w1 (Ok tt) ->
    fs_rm src w1 = (w2, r) ->
    Relocated src dest w (cp ++ [EvRm src]) w2 r
| RelocatedNot (cp : list Event) (w1 : W) (msg : string) :
    Path.isSameDrive src dest = false ->
    CopyTree src dest w cp w1 (Throw msg) ->
    Relocated src dest w cp w1 (Throw msg).

(** [Checked options move w evs w' verdict]: from the world [w], the
    checks before the move of an entry make the calls [evs] and end in
    [w']; [verdict] is the error of the entry the checks refuse, and
    [None] when they let the move go on: the parent of the target is made,
    the source is found, and the target is absent or, when it is there,
    the conflicts are handled by suffix. *)
Inductive Checked (options : MoveOptions) (move : MovePreview) (w : W)
  : list Event -> W -> option string -> Prop :=
| CheckedNoParent (w1 : W) (msg : string) :
    fs_mkdir (path_dirname (to move)) w = (w1, Throw msg) ->
    Checked options move w [EvMkdir (path_dirname (to move))] w1 (Some msg)
| CheckedNoSource (w1 w2 : W) (msg : string) :
    fs_mkdir (path_dirname (to move)) w = (w1, Ok tt) ->
    fs_access (from move) w1 = (w2, Throw msg) ->
    Checked options move w
            [EvMkdir (path_dirname (to move)); EvAccess (from move)] w2
            (Some "Source directory not found")
| CheckedTargetExists (w1 w2 w3 : W) :
    fs_mkdir (path_dirname (to move)) w = (w1, Ok tt) ->
    fs_access (from move) w1 = (w2, Ok tt) ->
    fs_access (to move) w2 = (w3, Ok tt) ->
    handleConflicts options <> Suffix ->
    Checked options move w (preChecks move) w3
            (Some (Triage.targetExistsMessage (handleConflicts options)))
| CheckedPassed (w1 w2 w3 : W) (r3 : Res unit) :
    fs_mkdir (path_dirname (to move)) w = (w1, Ok tt) ->
    fs_access (from move) w1 = (w2, Ok tt) ->
    fs_access (to move) w2 = (w3, r3) ->
    handleConflicts options = Suffix \/ (exists msg, r3 = Throw msg) ->
    Checked options move w (preChecks move) w3 None.

(** The state and the result of an entry whose checks have led to the
    state [checked] and whose relocation has made the calls [rel] and
    ended in the world [w] with the result [r]: after a relocation that
    has not thrown the row is updated, and the entry is a success when
    the update goes through; a throw of the relocation or of the update
    makes the entry a failure with that message. *)
Definition settled (move : MovePreview) (checked : St W)
           (rel : list Event) (w : W) (r : Res unit)
           (done : St W * Outcome MoveResult) : Prop :=
  match r with
  | Ok _ =>
      let physical := Path.normalizeWindowsPath (to move) in
      let tr := trace checked ++ rel ++ [EvDbUpdate (repoId move) physical] in
      match update (repoId move)
                   (fun row => setStatus Auto
                                 (setPhysicalPath (Some physical) row))
                   (table checked) with
      | Ok t' => done = (mkSt w t' tr, Return (success move))
      | Throw msg =>
          done = (mkSt w (table checked) tr, Return (failure move msg))
      end
  | Throw msg =>
      done = (mkSt w (table checked) (trace checked ++ rel),
              Return (failure move msg))
  end.

End WithHost.

End Relocate.

(** ** A simulated host

    A small file system, a table from absolute paths to nodes, on which
    the executor can be run.  Paths longer than [pathMax] are refused, as
    the real hosts do ([ENAMETOOLONG]). *)

Module Sim.
Import Store Planner Executor.

Inductive Node : Type := NFile | NDir | NLink (target : string).

Definition Fs : Type := list (string * Node).

Definition pathMax : nat := 40.

Definition lookupNode (p : string) (fs : Fs) : option Node :=
  match find (fun kv => String.eqb (fst kv) p) fs with
  | Some kv => Some (snd kv)
  | None => None
  end.

Definition present (p : string) (fs : Fs) : bool :=
  match lookupNode p fs with Some _ => true | None => false end.

(** [k] is [p] or lies below it. *)
Definition isUnder (k p : string) : bool :=
  orb (String.eqb k p) (Js.startsWith k (p ++ "/")%string).

Definition kindOf (n : Node) : Git.EntryKind :=
  match n with
  | NFile => Git.KFile
  | NDir => Git.KDirectory
  | NLink _ => Git.KSymlink
  end.

(** The name of [k] when it is a child of [p]. *)
Definition childName (p k : string) : option string :=
  if Js.startsWith k (p ++ "/")%string then
    let name := substring (String.length p + 1)
                          (String.length k - String.length p - 1) k in
    if orb (String.eqb name EmptyString) (Js.includes name "/") then None
    else Some name
  else None.

Definition children (p : string) (fs : Fs) : list Git.Dirent :=
  flat_map (fun kv =>
              match childName p (fst kv) with
              | Some name => [Git.mkDirent name (kindOf (snd kv))]
              | None => []
              end) fs.

Definition put (p : string) (n : Node) (fs : Fs) : Fs :=
  filter (fun kv => negb (String.eqb (fst kv) p)) fs ++ [(p, n)].

Definition sim_mkdir (p : string) (fs : Fs) : Fs * Res unit :=
  if pathMax <? String.length p then (fs, Throw "ENAMETOOLONG")
  else if present p fs then (fs, Ok tt)
  else (fs ++ [(p, NDir)], Ok tt).

Definition sim_access (p : string) (fs : Fs) : Fs * Res unit :=
  if present p fs then (fs, Ok tt)
  else (fs, Throw "ENOENT: no such file or directory").

Definition rekey (src dest : string) (kv : string * Node) : string * Node :=
  if isUnder (fst kv) src then
    ((dest ++ substring (String.length src)
                        (String.length (fst kv) - String.length src)
                        (fst kv))%string,
     snd kv)
  else kv.

Definition sim_rename (src dest : string) (fs : Fs) : Fs * Res unit :=
  if present src fs then (map (rekey src dest) fs, Ok tt)
  else (fs, Throw "ENOENT: no such file or directory").

Definition sim_readdir (p : string) (fs : Fs) : Fs * Res (list Git.Dirent) :=
  if pathMax <? String.length p then (fs, Throw "ENAMETOOLONG")
  else
    match lookupNode p fs with
    | Some NDir => (fs, Ok (children p fs))
    | Some _ => (fs, Throw "ENOTDIR: not a directory")
    | None => (fs, Throw "ENOENT: no such file or directory")
    end.

Definition sim_readlink (p : string) (fs : Fs) : Fs * Res string :=
  match lookupNode p fs with
  | Some (NLink target) => (fs, Ok target)
  | _ => (fs, Throw "EINVAL: invalid argument")
  end.

Definition sim_symlink (target dest : string) (fs : Fs) : Fs * Res unit :=
  if present dest fs then (fs, Throw "EEXIST: file already exists")
  else (fs ++ [(dest, NLink target)], Ok tt).

Definition sim_copyFile (src dest : string) (fs : Fs) : Fs * Res unit :=
  match lookupNode src fs with
  | Some NFile => (put dest NFile fs, Ok tt)
  | _ => (fs, Throw "ENOENT: no such file or directory")
  end.

(** [fs.rm(p, { recursive: true, force: true })] *)
Definition sim_rm (p : string) (fs : Fs) : Fs * Res unit :=
  (filter (fun kv => negb (isUnder (fst kv) p)) fs, Ok tt).

Definition sim_revalidate (p : string) (fs : Fs) : Fs * Res unit :=
  (fs, Ok tt).

Definition sim_dirname (p : string) : string :=
  Js.join "/" (removelast (Js.splitOn "/"%char p)).

Definition sim_join (a b : string) : string := (a ++ "/" ++ b)%string.

#[export] Instance simHost : Host Fs := {
  fs_mkdir := sim_mkdir;
  fs_access := sim_access;
  fs_rename := sim_rename;
  fs_readdir := sim_readdir;
  fs_readlink := sim_readlink;
  fs_symlink := sim_symlink;
  fs_copyFile := sim_copyFile;
  fs_rm := sim_rm;
  revalidatePath := sim_revalidate;
  path_dirname := sim_dirname;
  path_join := sim_join
}.

(** Enough fuel for every copy on the simulated host. *)
Definition simFuel : nat := pathMax + 2.

(** A repository on drive D with a file, a sub-directory and a symbolic
    link, and an organization root on drive C. *)
Definition disk : Fs :=
  [ ("D:/src", NDir);
    ("D:/src/app", NDir);
    ("D:/src/app/README.md", NFile);
    ("D:/src/app/lib", NDir);
    ("D:/src/app/lib/main.py", NFile);
    ("D:/src/app/current", NLink "lib");
    ("C:/src", NDir);
    ("C:/src/lib", NDir);
    ("C:/src/lib/index.ts", NFile);
    ("C:/Org", NDir) ].

Definition rows : Table :=
  [ mkRepository 1 "app" None "D:/src/app" None (Some "nextjs") Manual
                 None false;
    mkRepository 2 "lib" None "C:/src/lib" None (Some "nextjs") Manual
                 None true;
    mkRepository 3 "gone" None "C:/src/gone" None (Some "python") Manual
                 None false ].

Definition start : St Fs := mkSt disk rows [].

Definition moveApp : MovePreview :=
  mkPreview 1 "app" "D:/src/app" "C:/Org/nextjs/app" "nextjs" []
            ["Cross-drive move (will copy and delete)"].


Definition moveGone : MovePreview :=
  mkPreview 3 "gone" "C:/src/gone" "C:/Org/python/gone" "python" [] [].



End Sim.

(** ** A host whose cache invalidation fails

    The simulated file system, with a [revalidatePath] that throws, as
    the hook does when it is called where no cache can be invalidated. *)

Module StaleSim.
Import Executor Sim.



End StaleSim.

(** * Properties *)

(** ** Path utilities *)

Module PathProps.
Import Path.

Lemma suffixLoop_unfold (b : string) (ne : list string) (s : nat) :
  suffixLoop b ne s =
  if negb (taken ne (candidateOf b s)) then Ok (candidateOf b s)
  else if suffixLimit <? S s then Throw "Too many path conflicts"
       else suffixLoop b ne (S s).
Proof.
  funelim (suffixLoop b ne s); rewrite Heq; simpl;
    try match goal with
        | e : (suffixLimit <? _) = _ |- _ => rewrite e
        end; reflexivity.
Qed.

(** From [s], with [S n] candidates left up to the limit, the loop finds
    the first free candidate or throws. *)
Lemma suffixLoop_find (n : nat) :
  forall (b : string) (ne : list string) (s : nat),
    s + n = 100 ->
    suffixLoop b ne s =
    match find (isFree b ne) (seq s (S n)) with
    | Some k => Ok (candidateOf b k)
    | None => Throw "Too many path conflicts"
    end.
Proof.
  induction n as [|n IH]; intros b ne s Hs; rewrite suffixLoop_unfold.
  - simpl. unfold isFree.
    destruct (negb (taken ne (candidateOf b s))); [reflexivity|].
    replace s with 100 by lia. reflexivity.
  - cbn [seq find]. unfold isFree at 1.
    destruct (negb (taken ne (candidateOf b s))); [reflexivity|].
    assert (Hlt : (suffixLimit <? S s) = false)
      by (apply Nat.ltb_ge; unfold suffixLimit; lia).
    rewrite Hlt. apply IH. lia.
Qed.

Lemma generateConflictFreePath_resolve (basePath : string)
      (existingPaths : list string) :
  generateConflictFreePath basePath existingPaths
  = resolveConflict basePath existingPaths.
Proof.
  unfold generateConflictFreePath, resolveConflict, firstFree.
  destruct (negb _); [reflexivity|].
  apply (suffixLoop_find 98). reflexivity.
Qed.

(** *** The same, whatever the case folding *)

Lemma foldLoop_unfold (lower : string -> string) (b : string)
      (ne : list string) (s : nat) :
  PathFold.suffixLoop lower b ne s =
  if negb (PathFold.taken lower ne (candidateOf b s))
  then Ok (candidateOf b s)
  else if suffixLimit <? S s then Throw "Too many path conflicts"
       else PathFold.suffixLoop lower b ne (S s).
Proof.
  funelim (PathFold.suffixLoop lower b ne s); rewrite Heq; simpl;
    try match goal with
        | e : (suffixLimit <? _) = _ |- _ => rewrite e
        end; reflexivity.
Qed.

Lemma foldLoop_find (lower : string -> string) (n : nat) :
  forall (b : string) (ne : list string) (s : nat),
    s + n = 100 ->
    PathFold.suffixLoop lower b ne s =
    match find (PathFold.isFree lower b ne) (seq s (S n)) with
    | Some k => Ok (candidateOf b k)
    | None => Throw "Too many path conflicts"
    end.
Proof.
  induction n as [|n IH]; intros b ne s Hs; rewrite foldLoop_unfold.
  - simpl. unfold PathFold.isFree.
    destruct (negb (PathFold.taken lower ne (candidateOf b s)));
      [reflexivity|].
    replace s with 100 by lia. reflexivity.
  - cbn [seq find]. unfold PathFold.isFree at 1.
    destruct (negb (PathFold.taken lower ne (candidateOf b s)));
      [reflexivity|].
    assert (Hlt : (suffixLimit <? S s) = false)
      by (apply Nat.ltb_ge; unfold suffixLimit; lia).
    rewrite Hlt. apply IH. lia.
Qed.

Lemma foldPath_resolve (lower : string -> string) (basePath : string)
      (existingPaths : list string) :
  PathFold.generateConflictFreePath lower basePath existingPaths
  = PathFold.resolveConflict lower basePath existingPaths.
Proof.
  unfold PathFold.generateConflictFreePath, PathFold.resolveConflict,
    PathFold.firstFree.
  destruct (negb _); [reflexivity|].
  apply (foldLoop_find lower 98). reflexivity.
Qed.

(** The function of [Path] is the one of [PathFold] at the ASCII
    folding. *)
Lemma generateConflictFreePath_ascii (basePath : string)
      (existingPaths : list string) :
  generateConflictFreePath basePath existingPaths
  = PathFold.generateConflictFreePath Js.toLowerCase basePath existingPaths.
Proof.
  rewrite generateConflictFreePath_resolve, foldPath_resolve. reflexivity.
Qed.

(** C7: whatever [toLowerCase] does, [generateConflictFreePath] returns
    [basePath] unchanged when it is not (case-insensitively) among the
    existing paths; otherwise the first free candidate among
    [basePath-2], ..., [basePath-100]; and when none of them is free it
    throws the exhaustion error: the search always ends.  The three
    instances of the specification, on ASCII paths, are computed with the
    ASCII folding, at which the function is the one of [Path]. *)
Theorem generateConflictFreePath_first_free :
  (forall (toLowerCase : string -> string) basePath existingPaths,
      PathFold.generateConflictFreePath toLowerCase basePath existingPaths
      = PathFold.resolveConflict toLowerCase basePath existingPaths)
  /\ (forall basePath existingPaths,
         PathFold.generateConflictFreePath Js.toLowerCase basePath
                                           existingPaths
         = generateConflictFreePath basePath existingPaths)
  /\ generateConflictFreePath "X" ["x"] = Ok "X-2"
  /\ generateConflictFreePath "X" ["x"; "x-2"; "x-3"] = Ok "X-4"
  /\ generateConflictFreePath "X" sequentialConflicts
     = Throw "Too many path conflicts"
  /\ length sequentialConflicts = 101.
Proof.
  split; [exact foldPath_resolve|].
  split; [intros; symmetry; apply generateConflictFreePath_ascii|].
  repeat split; vm_compute; reflexivity.
Qed.

(** C10: there is a target outside the root that [isInsideAllowedRoot]
    accepts: the check is a prefix test on the resolved, lower-cased
    strings, so a sibling whose name extends the root's name passes,
    whatever the working directory. *)
Theorem isInsideAllowedRoot_accepts_sibling :
  (exists target root,
      forall cwd,
        liesUnder cwd target root = false
        /\ isInsideAllowedRoot cwd target root = true)
  /\ liesUnder "/srv/app" "C:/repo-backup" "C:/repo" = false
  /\ isInsideAllowedRoot "/srv/app" "C:/repo-backup" "C:/repo" = true.
Proof.
  split.
  - exists "/repo-backup", "/repo". intros cwd. split; reflexivity.
  - split; reflexivity.
Qed.

End PathProps.

(** ** The unit tests of the repository, run on the embedding *)

Module RepoTests.
Import Path Scanner.

Example normalize_backslashes :
  normalizeWindowsPath (winPath ["C:"; "Users"; "test"; "project"])
  = "C:/Users/test/project".
Proof. reflexivity. Qed.

Example joinPaths_parts :
  joinPaths ["C:/Users"; "test"; "project"] = "C:/Users/test/project"
  /\ joinPaths ["C:/Users/"; "test/"; "project"] = "C:/Users/test/project"
  /\ joinPaths ["C://Users"; "test//dir"; "project"]
     = "C:/Users/test/dir/project"
  /\ joinPaths ["C:/Users"] = "C:/Users"
  /\ joinPaths [winPath ["C:"; "Users"]; "test"] = "C:/Users/test".
Proof. repeat split; reflexivity. Qed.

Example isInsideAllowedRoot_cases :
  isInsideAllowedRoot "/srv" "C:/Projects/app" "C:/Projects" = true
  /\ isInsideAllowedRoot "/srv" "C:/Projects" "C:/Projects" = true
  /\ isInsideAllowedRoot "/srv" "D:/Other/app" "C:/Projects" = false
  /\ isInsideAllowedRoot "/srv" "C:/Projects/../Other" "C:/Projects" = false
  /\ isInsideAllowedRoot "/srv" "c:/projects/app" "C:/Projects" = true.
Proof. repeat split; reflexivity. Qed.

Example getDriveLetter_cases :
  getDriveLetter "C:/Users/test" = Some "C"%char
  /\ getDriveLetter (winPath ["D:"; "Projects"]) = Some "D"%char
  /\ getDriveLetter "c:/users" = Some "C"%char
  /\ getDriveLetter "/home/user" = None
  /\ getDriveLetter "relative/path" = None.
Proof. repeat split; reflexivity. Qed.

Example isSameDrive_cases :
  isSameDrive "C:/Users/test" "C:/Projects/app" = true
  /\ isSameDrive "c:/users" "C:/projects" = true
  /\ isSameDrive "C:/Users" "D:/Projects" = false
  /\ isSameDrive "/home/user" "C:/Users" = false
  /\ isSameDrive "C:/Users" "/mnt/c/Users" = false.
Proof. repeat split; reflexivity. Qed.

Example getRepoNameFromPath_cases :
  getRepoNameFromPath "C:/Projects/my-app" = "my-app"
  /\ getRepoNameFromPath "C:/Projects/my-app/" = "my-app"
  /\ getRepoNameFromPath (winPath ["C:"; "Projects"; "my-app"]) = "my-app"
  /\ getRepoNameFromPath EmptyString = "unknown".
Proof. repeat split; reflexivity. Qed.

Example generateConflictFreePath_cases :
  generateConflictFreePath "C:/Projects/my-app" ["C:/Projects/other-app"]
  = Ok "C:/Projects/my-app"
  /\ generateConflictFreePath "C:/Projects/my-app" ["c:/projects/my-app"]
     = Ok "C:/Projects/my-app-2"
  /\ generateConflictFreePath "C:/Projects/my-app"
       ["c:/projects/my-app"; "c:/projects/my-app-2";
        "c:/projects/my-app-3"]
     = Ok "C:/Projects/my-app-4"
  /\ generateConflictFreePath "c:/projects/my-app" ["C:/PROJECTS/MY-APP"]
     = Ok "c:/projects/my-app-2".
Proof. repeat split; vm_compute; reflexivity. Qed.

Example suggestTheme_manifest :
  suggestTheme
    (mkInput (Some (mkPackageJson (Some [("next", "^14.0.0")]) None))
             None None None None) = "nextjs"
  /\ suggestTheme
       (mkInput (Some (mkPackageJson None (Some [("next", "^14.0.0")])))
                None None None None) = "nextjs"
  /\ suggestTheme
       (mkInput (Some (mkPackageJson
                         (Some [("react", "^18.0.0");
                                ("react-dom", "^18.0.0")]) None))
                None None None None) = "nextjs"
  /\ suggestTheme
       (mkInput (Some (mkPackageJson (Some [("vue", "^3.0.0")]) None))
                None None None None) = "experiments"
  /\ suggestTheme
       (mkInput (Some (mkPackageJson (Some [("lodash", "^4.0.0")]) None))
                (Some ["README.md"; "LICENSE"]) None None None)
     = "unclassified".
Proof. repeat split; reflexivity. Qed.

Example suggestTheme_files_and_url :
  suggestTheme (mkInput None (Some ["requirements.txt"; "main.py"])
                        None None None) = "python"
  /\ suggestTheme (mkInput None (Some ["main.py"; "utils.py"])
                           None None None) = "python"
  /\ suggestTheme (mkInput None None
                     (Some "https://github.com/user/archived-project.git")
                     None None) = "archived"
  /\ suggestTheme (mkInput None (Some ["setup.py"])
                     (Some "https://github.com/user/archived-python.git")
                     None None) = "archived"
  /\ suggestTheme (mkInput None None None None None) = "unclassified"
  /\ suggestTheme
       (mkInput (Some (mkPackageJson (Some [("next", "^14.0.0")]) None))
                (Some ["requirements.txt"]) None None None) = "nextjs".
Proof. repeat split; reflexivity. Qed.

Example suggestTheme_readme :
  suggestTheme
    (textInput
       ("This is a machine learning project using PyTorch "
          ++ "and pandas for data science.")%string)
  = "python"
  /\ suggestTheme
       (textInput "This is a proof of concept prototype for learning React.")
     = "experiments"
  /\ suggestTheme
       (textInput "This project is deprecated and no longer maintained.")
     = "archived"
  /\ suggestTheme
       (textInput
          "A modern web app dashboard built with Next.js and Tailwind CSS.")
     = "nextjs"
  /\ suggestTheme (textInput "A project about something with react.")
     = "unclassified"
  /\ suggestTheme
       (mkInput None None None None
                (Some "A FastAPI backend with pandas data processing"))
     = "python".
Proof. repeat split; vm_compute; reflexivity. Qed.

End RepoTests.

(** ** The discovery walker *)

Module GitProps.
Import Git.

(** Where the listing has [.git] after other entries, the eligible
    directories before it are already on the queue when the repository
    is yielded. *)
Lemma scanEntries_before_marker (current : QueueItem)
      (pre post : list Dirent) (marker : Dirent) :
  isMarker marker = true ->
  forallb (fun e => negb (isMarker e)) pre = true ->
  forall queue,
    scanEntries current (pre ++ marker :: post) queue
    = ([q_path current], queue ++ map (queued current) (filter eligible pre)).
Proof.
  intros Hm. unfold isMarker in Hm. apply andb_prop in Hm.
  destruct Hm as [Hd Hn].
  induction pre as [|e pre IH]; intros Hpre queue; simpl.
  - rewrite Hd, Hn. simpl. now rewrite app_nil_r.
  - simpl in Hpre. apply andb_prop in Hpre. destruct Hpre as [He Hpre].
    unfold isMarker in He. unfold eligible.
    destruct (isDirectory e); simpl in *; [|now apply IH].
    destruct (String.eqb (d_name e) ".git"); [discriminate|]. simpl.
    destruct (Js.startsWith (d_name e) "."); simpl; [now apply IH|].
    destruct (shouldSkipDirectory (d_name e)); simpl; [now apply IH|].
    rewrite IH by assumption. unfold queued at 2.
    now rewrite <- app_assoc.
Qed.

(** C9: on a repository whose listing returns a directory before [.git],
    the walker yields the repository and then descends into it: the
    directory queued before the marker was met is expanded, and the
    repository nested there is yielded too.  With [.git] listed first the
    same tree yields the outer repository alone. *)
Theorem findGitRepos_descends_into_repo :
  findGitRepos (fun p => p) (tableFs nestedBeforeMarker) 16 "/r" 5
  = Some ["/r"; "/r/a"]
  /\ findGitRepos (fun p => p) (tableFs nestedAfterMarker) 16 "/r" 5
     = Some ["/r"].
Proof. split; reflexivity. Qed.

End GitProps.

(** ** The theme classifier *)

Module ScannerProps.
Import Scanner.

Lemma existsb_score (text : string) (kws : list string) :
  existsb (fun kw => Js.includes text kw) kws = true
  <-> 1 <= score text kws.
Proof.
  unfold score. induction kws as [|k kws IH]; simpl.
  - split; [discriminate | lia].
  - destruct (Js.includes text k); simpl; [split; [lia | reflexivity]|].
    exact IH.
Qed.

Lemma insertDesc_In (x y : string * nat) (l : list (string * nat)) :
  In y (insertDesc x l) -> y = x \/ In y l.
Proof.
  induction l as [|z l IH]; simpl.
  - intros [<-|[]]. now left.
  - destruct (snd z <? snd x); simpl.
    + intros [<-|[<-|Hy]]; auto.
    + intros [<-|Hy]; auto. destruct (IH Hy); auto.
Qed.

Lemma sortDesc_In (y : string * nat) (l : list (string * nat)) :
  In y (sortDesc l) -> In y l.
Proof.
  unfold sortDesc.
  assert (G : forall acc, In y (fold_left (fun a x => insertDesc x a) l acc)
                          -> In y acc \/ In y l).
  { induction l as [|x l IH]; simpl; intros acc Hy; [now left|].
    destruct (IH _ Hy) as [Hacc|Hl]; [|now auto].
    destruct (insertDesc_In _ _ _ Hacc) as [->|Hacc']; auto. }
  intros Hy. destruct (G [] Hy) as [[]|Hl]. exact Hl.
Qed.

(** The text scoring names "archived" only with an archival keyword in
    the text. *)
Lemma best_archived (text : string) (best : string * nat)
      (rest : list (string * nat)) :
  sortDesc (filter (fun e => 0 <? snd e)
              (map (fun tk => (fst tk, score text (snd tk))) THEME_KEYWORDS))
  = best :: rest ->
  fst best = "archived" ->
  1 <= score text archivedKeywords.
Proof.
  intros Hs Hb.
  assert (Hin : In best (best :: rest)) by now left.
  rewrite <- Hs in Hin. apply sortDesc_In in Hin.
  apply filter_In in Hin. destruct Hin as [Hin Hpos].
  apply Nat.ltb_lt in Hpos.
  simpl in Hin.
  destruct Hin as [<-|[<-|[<-|[<-|[]]]]]; simpl in Hb; try discriminate.
  simpl in Hpos. lia.
Qed.

(** What the code does: [suggestTheme] returns "archived" exactly when the
    remote URL contains "archived" or "deprecated", or at least one
    archival keyword occurs in the combined readme and description text.
    The early test on the text asks for one keyword, where the scoring
    further down, and the repository's test of it, ask for two. *)
Lemma suggestTheme_archived_iff (input : ThemeSuggestionInput) :
  suggestTheme input = "archived"
  <-> (urlIncludes (remoteUrl input) "archived" = true
       \/ urlIncludes (remoteUrl input) "deprecated" = true
       \/ 1 <= archivalHits input).
Proof.
  unfold archivalHits. rewrite <- existsb_score.
  unfold suggestTheme.
  destruct (urlIncludes (remoteUrl input) "archived") eqn:Ha;
    [simpl; split; auto|].
  destruct (urlIncludes (remoteUrl input) "deprecated") eqn:Hd;
    [simpl; split; auto|].
  destruct (existsb _ archivedKeywords) eqn:He; [simpl; split; auto|].
  simpl orb. cbv iota.
  split; [|intros [H|[H|H]]; discriminate].
  intros Hres. exfalso.
  repeat match type of Hres with
         | (if ?c then _ else _) = _ =>
             destruct c; [discriminate Hres|]
         end.
  destruct (0 <? String.length (textContentOf input)); [|discriminate Hres].
  destruct (sortDesc _) as [|best rest] eqn:Hs; [discriminate Hres|].
  destruct (2 <=? snd best); [|discriminate Hres].
  pose proof (best_archived _ _ _ Hs Hres) as Hpos.
  apply existsb_score in Hpos. congruence.
Qed.

(** C6: the code misses the threshold of two keywords for "archived".  On
    a readme with the single archival keyword "old" and no URL, where the
    claim has another theme returned, [suggestTheme] returns "archived";
    on the readme of the repository's own test, with the single keyword
    "react" of another theme, it returns "unclassified" as the test
    requires. *)
Theorem suggestTheme_single_keyword_archived :
  suggestTheme (textInput "An old project") = "archived"
  /\ archivedAsClaimed (textInput "An old project") = false
  /\ archivalHits (textInput "An old project") = 1
  /\ suggestTheme (textInput "A project about something with react.")
     = "unclassified"
  /\ score (textContentOf
              (textInput "A project about something with react."))
           ["next.js"; "nextjs"; "react"; "typescript"; "tailwind";
            "vercel"; "frontend"; "web app"; "dashboard"; "ui";
            "component"] = 1.
Proof. repeat split; reflexivity. Qed.

End ScannerProps.

(** ** The record store and the scan upsert *)

Module StoreProps.
Import Store.

Lemma findUnique_Some (i : Z) (t : Table) (r : Repository) :
  findUnique i t = Some r -> In r t /\ id r = i.
Proof.
  unfold findUnique. intros Hf. apply find_some in Hf.
  destruct Hf as [Hin He]. apply Z.eqb_eq in He. auto.
Qed.

Lemma findUnique_In (i : Z) (t : Table) :
  In i (map id t) -> exists r, findUnique i t = Some r.
Proof.
  unfold findUnique. induction t as [|x t IH]; simpl; [intros []|].
  intros [Hx|Hin].
  - exists x. rewrite Hx, Z.eqb_refl. reflexivity.
  - destruct (Z.eqb (id x) i); [now exists x | now apply IH].
Qed.

Lemma NoDup_key (t : Table) (a b : Repository) :
  NoDup (map id t) -> In a t -> In b t -> id a = id b -> a = b.
Proof.
  induction t as [|r t IH]; simpl; [intros _ []|].
  intros Hnd Ha Hb Hid. inversion Hnd as [|x l Hnotin Hnd']; subst.
  destruct Ha as [->|Ha], Hb as [->|Hb]; auto.
  - exfalso. apply Hnotin. rewrite Hid. now apply in_map.
  - exfalso. apply Hnotin. rewrite <- Hid. now apply in_map.
Qed.

Lemma fold_max_ge (t : Table) :
  forall a, (a <= fold_left (fun acc r => Z.max acc (id r)) t a)%Z
            /\ forall r, In r t ->
                 (id r <= fold_left (fun acc r => Z.max acc (id r)) t a)%Z.
Proof.
  induction t as [|x t IH]; simpl; intros a.
  - split; [lia | intros r []].
  - destruct (IH (Z.max a (id x))) as [Ha Hr]. split; [lia|].
    intros r [->|Hin]; [lia | now apply Hr].
Qed.

Lemma nextId_fresh (t : Table) : ~ In (nextId t) (map id t).
Proof.
  intros Hin. apply in_map_iff in Hin. destruct Hin as [r [Hr Hin]].
  unfold nextId in Hr.
  destruct (fold_max_ge t 0%Z) as [_ Hge]. specialize (Hge r Hin). lia.
Qed.

Lemma update_Ok (i : Z) (f : Repository -> Repository) (t : Table) :
  In i (map id t) ->
  update i f t = Ok (map (fun r => if Z.eqb (id r) i then f r else r) t).
Proof.
  intros Hin. unfold update.
  destruct (findUnique_In i t Hin) as [r ->]. reflexivity.
Qed.

Lemma update_inv (i : Z) (f : Repository -> Repository) (t t' : Table)
      (P : Repository -> Prop) :
  (forall r, P r -> P (f r)) ->
  Forall P t -> update i f t = Ok t' -> Forall P t'.
Proof.
  intros Hf Ht. unfold update.
  destruct (findUnique i t); [|discriminate].
  intros Hu. injection Hu as <-.
  apply Forall_map. eapply Forall_impl; [|exact Ht].
  intros x Hx. simpl. destruct (Z.eqb (id x) i); auto.
Qed.


End StoreProps.

Module ScanProps.
Import Store Scan StoreProps.

Lemma mapGet_In (key : string) (t : Table) (i : Z) :
  mapGet key (existingPathMap t) = Some i -> In i (map id t).
Proof.
  unfold mapGet.
  destruct (find _ (rev (existingPathMap t))) as [kv|] eqn:Hf; [|discriminate].
  intros Hi. injection Hi as <-.
  apply find_some in Hf. destruct Hf as [Hin _].
  apply in_rev in Hin. unfold existingPathMap in Hin.
  apply in_map_iff in Hin. destruct Hin as [r [<- Hr]].
  simpl. now apply in_map.
Qed.

Lemma refresh_fields (e : option Repository) (res : RepoScanResult)
      (r : Repository) :
  id (refresh e res r) = id r /\ name (refresh e res r) = name r
  /\ originalPath (refresh e res r) = originalPath r
  /\ physicalPath (refresh e res r) = physicalPath r
  /\ triageStatus (refresh e res r) = triageStatus r.
Proof.
  unfold refresh. destruct e as [e|]; [|repeat split].
  destruct (andb _ _); repeat split.
Qed.

Lemma refresh_theme (res : RepoScanResult) (r : Repository) :
  Js.truthyOpt (theme r) = true -> theme (refresh (Some r) res r) = theme r.
Proof.
  intros Ht. unfold refresh. rewrite Ht. reflexivity.
Qed.

Lemma refresh_volatile (e : option Repository) (res : RepoScanResult)
      (r : Repository) :
  remoteUrl (refresh e res r) = sr_remoteUrl res
  /\ lastCommitSha (refresh e res r) = sr_lastCommitSha res
  /\ isDirty (refresh e res r) = sr_isDirty res.
Proof.
  unfold refresh. destruct e as [e|]; [|repeat split].
  destruct (andb _ _); repeat split.
Qed.

Lemma keeps_refl (r : Repository) : keeps r r.
Proof. unfold keeps. repeat split. Qed.

Lemma keeps_refresh (r r' : Repository) (res : RepoScanResult) :
  keeps r r' -> keeps r (refresh (Some r') res r').
Proof.
  unfold keeps. intros (H1 & H2 & H3 & H4 & H5 & H6).
  destruct (refresh_fields (Some r') res r') as (F1 & F2 & F3 & F4 & F5).
  repeat split; try congruence.
  intros Ht. specialize (H6 Ht). rewrite <- H6.
  apply refresh_theme. rewrite H6. exact Ht.
Qed.

Lemma keeps_ids (t kept : Table) :
  Forall2 keeps t kept -> map id kept = map id t.
Proof.
  induction 1 as [|r r' t kept Hk _ IH]; simpl; [reflexivity|].
  destruct Hk as [-> _]. now rewrite IH.
Qed.

Lemma Forall2_keeps_map (t kept : Table) (g : Repository -> Repository) :
  Forall2 keeps t kept ->
  (forall r r', keeps r r' -> In r' kept -> keeps r (g r')) ->
  Forall2 keeps t (map g kept).
Proof.
  induction 1 as [|r r' t kept Hr _ IH]; intros Hg; simpl; constructor.
  - apply Hg; [exact Hr | now left].
  - apply IH. intros x x' Hx Hin. apply Hg; [exact Hx | now right].
Qed.

Lemma loopInv_create (t cur : Table) (mk : Z -> Repository) :
  (forall i, id (mk i) = i) ->
  loopInv t cur -> loopInv t (create mk cur).
Proof.
  intros Hmk (Hnd & kept & created & -> & Hk). unfold create, loopInv. split.
  - rewrite map_app. simpl. rewrite Hmk.
    apply NoDup_app; [exact Hnd | repeat constructor; intros [] | ].
    intros x Hx [<-|[]]. now apply (nextId_fresh (kept ++ created)).
  - exists kept, (created ++ [mk (nextId (kept ++ created))]).
    now rewrite app_assoc.
Qed.

Lemma loopInv_update (t cur : Table) (i : Z) (e : Repository)
      (res : RepoScanResult) :
  findUnique i cur = Some e ->
  loopInv t cur ->
  loopInv t (map (fun r => if Z.eqb (id r) i
                           then refresh (Some e) res r else r) cur).
Proof.
  intros Hf (Hnd & kept & created & -> & Hk).
  apply findUnique_Some in Hf. destruct Hf as [He Hid].
  set (g := fun r => if Z.eqb (id r) i then refresh (Some e) res r else r).
  assert (Hg : forall r, id (g r) = id r).
  { intros r. unfold g. destruct (Z.eqb (id r) i); [|reflexivity].
    apply refresh_fields. }
  split.
  - rewrite map_map. erewrite map_ext; [exact Hnd | exact Hg].
  - exists (map g kept), (map g created). split; [apply map_app|].
    apply Forall2_keeps_map; [exact Hk|].
    intros r r' Hr Hin. unfold g.
    destruct (Z.eqb (id r') i) eqn:Hi; [|exact Hr].
    apply Z.eqb_eq in Hi.
    assert (r' = e) as ->.
    { apply (NoDup_key _ _ _ Hnd); [apply in_or_app; now left | exact He|].
      congruence. }
    now apply keeps_refresh.
Qed.

Lemma upsertOne_total (t cur : Table) (c : Counters) (res : RepoScanResult) :
  loopInv t cur ->
  (forall i, In i (map id t) -> In i (map id cur)) ->
  exists cur' c',
    upsertOne (existingPathMap t) res (cur, c) = Ok (cur', c')
    /\ loopInv t cur'
    /\ (forall i, In i (map id t) -> In i (map id cur')).
Proof.
  intros Hinv Hids. unfold upsertOne.
  set (mk := fun i' => mkRepository i' _ _ _ _ _ _ _ _).
  assert (Hcreate :
            loopInv t (create mk cur)
            /\ forall i, In i (map id t) -> In i (map id (create mk cur))).
  { split; [apply loopInv_create; [reflexivity | exact Hinv]|].
    intros i Hi. unfold create. rewrite map_app. apply in_or_app.
    left. now apply Hids. }
  destruct (mapGet _ _) as [i|] eqn:Hget;
    [|eexists _, _; split; [reflexivity | exact Hcreate]].
  destruct (negb (Z.eqb i 0));
    [|eexists _, _; split; [reflexivity | exact Hcreate]].
  apply mapGet_In in Hget.
  destruct (findUnique_In i cur (Hids _ Hget)) as [e He].
  rewrite He, (update_Ok _ _ _ (Hids _ Hget)).
  eexists _, _. split; [reflexivity|]. split.
  - now apply loopInv_update.
  - intros j Hj. rewrite map_map.
    erewrite map_ext; [now apply Hids|].
    intros r. cbv beta. destruct (Z.eqb (id r) i); [|reflexivity].
    exact (proj1 (refresh_fields _ _ _)).
Qed.

Lemma upsertLoop_total (t : Table) (results : list RepoScanResult) :
  forall cur c,
    loopInv t cur ->
    (forall i, In i (map id t) -> In i (map id cur)) ->
    exists cur' c',
      upsertLoop (existingPathMap t) results (cur, c) = Ok (cur', c')
      /\ loopInv t cur'.
Proof.
  induction results as [|res results IH]; intros cur c Hinv Hids;
    cbn [upsertLoop].
  - now exists cur, c.
  - destruct (upsertOne_total t cur c res Hinv Hids)
      as (cur1 & c1 & -> & Hinv1 & Hids1).
    now apply IH.
Qed.

Lemma loopInv_start (t : Table) : NoDup (map id t) -> loopInv t t.
Proof.
  intros Hnd. split; [exact Hnd|]. exists t, []. split.
  - now rewrite app_nil_r.
  - induction t; constructor; [apply keeps_refl|].
    apply IHt. now inversion Hnd.
Qed.

(** With unique ids the upsert goes through, and every row present before
    it is kept. *)
Lemma persistScanResults_total (results : list RepoScanResult) (t : Table) :
  NoDup (map id t) ->
  exists t' c,
    persistScanResults results t = Ok (t', c)
    /\ exists kept created, t' = kept ++ created /\ Forall2 keeps t kept.
Proof.
  intros Hnd. unfold persistScanResults.
  destruct (upsertLoop_total t results t (mkCounters 0 0)
              (loopInv_start t Hnd) (fun i Hi => Hi))
    as (t' & c & Heq & _ & Hk).
  now exists t', c.
Qed.

(** The scan writes no empty theme: the suggestion it stores is a
    non-empty string. *)
Lemma persistScanResults_themeSet (results : list RepoScanResult)
      (t t' : Table) (c : Counters) :
  Forall themeSet t ->
  persistScanResults results t = Ok (t', c) ->
  Forall themeSet t'.
Proof.
  unfold persistScanResults. generalize (existingPathMap t) as pm.
  generalize (mkCounters 0 0) as c0. intros c0 pm. revert t c0.
  assert (Hsug : forall res, Js.truthyOpt (sr_suggestedTheme res) = true ->
                             sr_suggestedTheme res <> Some EmptyString).
  { intros res. destruct (sr_suggestedTheme res) as [x|]; [|discriminate].
    simpl. unfold Js.truthy. intros Hx Heq. injection Heq as ->.
    discriminate Hx. }
  induction results as [|res results IH]; intros cur c0 Hcur;
    cbn [upsertLoop].
  - intros Hok. now injection Hok as <- _.
  - destruct (upsertOne pm res (cur, c0)) as [[cur1 c1]|m] eqn:Hone;
      [|discriminate].
    apply IH. revert Hone. unfold upsertOne.
    set (mk := fun i' => mkRepository i' _ _ _ _ _ _ _ _).
    assert (Hmk : Forall themeSet (create mk cur)).
    { unfold create. apply Forall_app. split; [exact Hcur|].
      constructor; [|constructor]. unfold themeSet, mk. simpl.
      destruct (Js.truthyOpt (sr_suggestedTheme res)) eqn:Hs;
        [now apply Hsug | discriminate]. }
    destruct (mapGet _ pm) as [i|];
      [|intros Hok; now injection Hok as <- _].
    destruct (negb (Z.eqb i 0)); [|intros Hok; now injection Hok as <- _].
    destruct (update i _ cur) as [u|m] eqn:Hu; [|discriminate].
    intros Hok. injection Hok as <- _.
    eapply update_inv; [|exact Hcur | exact Hu].
    intros r Hr. unfold themeSet, refresh.
    destruct (findUnique i cur) as [e|]; [|exact Hr].
    destruct (negb (Js.truthyOpt (theme e))); [|exact Hr]. simpl.
    destruct (Js.truthyOpt (sr_suggestedTheme res)) eqn:Hs; [|exact Hr].
    simpl. now apply Hsug.
Qed.

(** The guard of the update is a truthiness test.  On a row whose theme
    is the empty string, which no action of the repository writes (see
    [persistScanResults_themeSet] and, for the theme assignments,
    [assignTheme_themeSet] and [bulkAssignTheme_themeSet]), the re-scan
    would write the suggested theme. *)
Lemma persistScanResults_overwrites_empty_theme :
  theme blankThemed = Some EmptyString
  /\ themesAfter (persistScanResults [rescanTool] [blankThemed])
     = Some [Some "python"].
Proof. split; reflexivity. Qed.

End ScanProps.

(** ** The move executor *)

Module ExecutorProps.
Import Store Planner Executor StoreProps.

Section WithHost.

Context {W : Type} `{Host W}.

(** *** Relations between the state before and after a computation *)

Section Respects.

Variable R : St W -> St W -> Prop.
Variable E : Event -> bool.
Hypothesis R_refl : forall s, R s s.
Hypothesis R_trans : forall a b c, R a b -> R b c -> R a c.
Hypothesis R_event :
  forall s w e, E e = true -> R s (mkSt w (table s) (trace s ++ [e])).

Lemma respects_ret {A : Type} (a : A) : respects R (ret a).
Proof. intros st. apply R_refl. Qed.

Lemma respects_bind {A B : Type} (m : M W A) (k : A -> M W B) :
  respects R m -> (forall a, respects R (k a)) -> respects R (bind m k).
Proof.
  intros Hm Hk st. unfold bind. specialize (Hm st).
  destruct (m st) as [st' [a|msg|]]; simpl in *; auto.
  eapply R_trans; [exact Hm | apply Hk].
Qed.

Lemma respects_tryCatch {A : Type} (m : M W A) (h : string -> M W A) :
  respects R m -> (forall msg, respects R (h msg)) -> respects R (tryCatch m h).
Proof.
  intros Hm Hh st. unfold tryCatch. specialize (Hm st).
  destruct (m st) as [st' [a|msg|]]; simpl in *; auto.
  eapply R_trans; [exact Hm | apply Hh].
Qed.

Lemma respects_call {A : Type} (e : Event) (op : W -> W * Res A) :
  E e = true -> respects R (call e op).
Proof.
  intros He st. unfold call.
  destruct (op (world st)) as [w [a|msg]]; simpl; now apply R_event.
Qed.

Lemma respects_forEach {A : Type} (xs : list A) (body : A -> M W unit) :
  (forall x, respects R (body x)) -> respects R (forEach xs body).
Proof.
  intros Hb. induction xs as [|x xs IH]; simpl.
  - apply respects_ret.
  - apply respects_bind; auto.
Qed.

Hypothesis E_copy : forall e, isCopyEvent e = true -> E e = true.

Lemma respects_copyDirectory (fuel : nat) :
  forall src dest, respects R (copyDirectory fuel src dest).
Proof.
  induction fuel as [|fuel IH]; intros src dest; simpl.
  - intros st. apply R_refl.
  - apply respects_bind; [apply respects_call; now apply E_copy|].
    intros _. apply respects_bind; [apply respects_call; now apply E_copy|].
    intros entries. apply respects_forEach. intros entry.
    unfold copyEntry.
    destruct (Git.isSymbolicLink entry).
    + apply respects_bind; [apply respects_call; now apply E_copy|].
      intros t. apply respects_call. now apply E_copy.
    + destruct (Git.isDirectory entry); [apply IH|].
      apply respects_call. now apply E_copy.
Qed.

Hypothesis E_all : forall e, E e = true.
Hypothesis R_markMoved : forall i p, respects R (markMoved i p).

Lemma respects_attemptMove (fuel : nat) (options : MoveOptions)
      (move : MovePreview) :
  respects R (attemptMove fuel options move).
Proof.
  unfold attemptMove, moveChecked, relocate.
  apply respects_tryCatch; [|intros; apply respects_ret].
  apply respects_bind; [now apply respects_call|]. intros _.
  apply respects_bind.
  { apply respects_tryCatch; [|intros; apply respects_ret].
    apply respects_bind; [now apply respects_call|].
    intros; apply respects_ret. }
  intros [|]; [|apply respects_ret].
  apply respects_bind.
  { apply respects_tryCatch; [|intros; apply respects_ret].
    apply respects_bind; [now apply respects_call|].
    intros; apply respects_ret. }
  assert (Hmove :
            respects R
              (bind (if Path.isSameDrive (from move) (to move)
                     then rename (from move) (to move)
                     else bind (copyDirectory fuel (from move) (to move))
                               (fun _ => rm (from move)))
                    (fun _ =>
                       bind (markMoved (repoId move)
                               (Path.normalizeWindowsPath (to move)))
                            (fun _ => ret (success move))))).
  { apply respects_bind.
    - destruct (Path.isSameDrive _ _); [now apply respects_call|].
      apply respects_bind; [apply respects_copyDirectory|].
      intros _. now apply respects_call.
    - intros _. apply respects_bind; [apply R_markMoved|].
      intros _. apply respects_ret. }
  intros [|]; destruct (handleConflicts options);
    solve [exact Hmove | apply respects_ret].
Qed.

Lemma respects_runMoves (fuel : nat) (options : MoveOptions)
      (validMoves : list MovePreview) :
  forall acc, respects R (runMoves fuel options validMoves acc).
Proof.
  induction validMoves as [|move rest IH]; intros acc; cbn [runMoves].
  - apply respects_ret.
  - apply respects_bind; [apply respects_attemptMove|]. intros r. apply IH.
Qed.

Lemma respects_executeMoves (fuel : nat) (moves : list MovePreview)
      (options : MoveOptions) :
  respects R (executeMoves fuel moves options).
Proof.
  unfold executeMoves.
  apply respects_tryCatch; [|intros; apply respects_ret].
  destruct (Nat.eqb _ 0); [apply respects_ret|].
  apply respects_bind; [apply respects_runMoves|]. intros sum.
  repeat (apply respects_bind; [now apply respects_call|]; intros _).
  apply respects_ret.
Qed.

End Respects.

(** *** What a copy emits *)

Lemma emitsOnly_refl (E : Event -> bool) (s : St W) : emitsOnly E s s.
Proof. exists []. now rewrite app_nil_r. Qed.

Lemma emitsOnly_trans (E : Event -> bool) (a b c : St W) :
  emitsOnly E a b -> emitsOnly E b c -> emitsOnly E a c.
Proof.
  intros (e1 & H1 & F1) (e2 & H2 & F2). exists (e1 ++ e2). split.
  - now rewrite H2, H1, app_assoc.
  - rewrite forallb_app, F1, F2. reflexivity.
Qed.

(** [copyDirectory] makes no call but [mkdir], [readdir], [readlink],
    [symlink] and [copyFile]: it deletes and renames nothing. *)
Lemma copyDirectory_emits (fuel : nat) (src dest : string) (st : St W) :
  emitsOnly isCopyEvent st (fst (copyDirectory fuel src dest st)).
Proof.
  apply (respects_copyDirectory (emitsOnly isCopyEvent) isCopyEvent).
  - apply emitsOnly_refl.
  - apply emitsOnly_trans.
  - intros s w e He. exists [e]. simpl. now rewrite He.
  - auto.
Qed.

Lemma copyDirectory_table (fuel : nat) (src dest : string) (st : St W) :
  table (fst (copyDirectory fuel src dest st)) = table st.
Proof.
  apply (respects_copyDirectory (fun s s' => table s' = table s)
                                (fun _ => true)); auto.
  intros a b c Hab Hbc. congruence.
Qed.



End WithHost.

End ExecutorProps.

Module ExecutorRun.
Import Store Planner Executor StoreProps ExecutorProps.

Section WithHost.

Context {W : Type} `{Host W}.

Ltac unfold_exec :=
  unfold attemptMove, moveChecked, relocate, tryCatch, bind, ret,
    mkdir, access, rename, rm, revalidate, markMoved, call in *.

Ltac host_step :=
  match goal with
  | |- context [fs_mkdir ?p ?w] =>
      destruct (fs_mkdir p w) as [? [[]|?]]; cbn [world table trace fst snd]
  | |- context [fs_access ?p ?w] =>
      destruct (fs_access p w) as [? [[]|?]]; cbn [world table trace fst snd]
  | |- context [fs_rename ?a ?b ?w] =>
      destruct (fs_rename a b w) as [? [[]|?]]; cbn [world table trace fst snd]
  | |- context [copyDirectory ?f ?a ?b ?s] =>
      let Hc := fresh "Hcopy" in
      destruct (copyDirectory f a b s) as [? [[]|?|]] eqn:Hc;
      cbn [world table trace fst snd]
  | |- context [fs_rm ?p ?w] =>
      destruct (fs_rm p w) as [? [[]|?]]; cbn [world table trace fst snd]
  | |- context [update ?i ?f ?t] =>
      destruct (update i f t) as [?|?]; cbn [world table trace fst snd]
  | |- context [handleConflicts ?o] =>
      destruct (handleConflicts o); cbn [world table trace fst snd]
  | |- context [Path.isSameDrive ?a ?b] =>
      destruct (Path.isSameDrive a b) eqn:?; cbn [world table trace fst snd]
  end.

(** An entry always comes to a result, for its own key, once the copy
    cannot run out of fuel: nothing thrown leaves the body of the loop. *)
Lemma attemptMove_returns (fuel : nat) (options : MoveOptions)
      (move : MovePreview) (st : St W) :
  copyBounded fuel ->
  exists st' r,
    attemptMove fuel options move st = (st', Return r)
    /\ resultKey r = moveKey move /\ wellFormed r.
Proof.
  intros Hb. unfold_exec.
  repeat host_step.
  all: try (eexists _, _; split; [reflexivity|]; split; [reflexivity|];
            unfold wellFormed; simpl; split; congruence).
  all: exfalso;
    match goal with
    | Hc : copyDirectory ?f ?a ?b ?s = (_, OutOfFuel) |- _ =>
        apply (Hb a b s); rewrite Hc; reflexivity
    end.
Qed.

(** Without the bound an entry comes to a result or runs out of fuel. *)
Lemma attemptMove_outcome (fuel : nat) (options : MoveOptions)
      (move : MovePreview) (st : St W) :
  forall msg, snd (attemptMove fuel options move st) <> Raise msg.
Proof.
  intros msg. unfold_exec.
  repeat host_step; simpl; discriminate.
Qed.

Ltac copy_events :=
  match goal with
  | Hc : copyDirectory ?f ?a ?b ?s = (?s1, _) |- _ =>
      let cp := fresh "cp" in
      let Hcp := fresh "Hcp" in
      let Hall := fresh "Hall" in
      destruct (copyDirectory_emits f a b s) as (cp & Hcp & Hall);
      rewrite Hc in Hcp; cbn [fst trace] in Hcp
  end.

Ltac shape pre rel post :=
  exists pre, rel, post; split;
  [ rewrite ?app_nil_r; repeat rewrite <- app_assoc; reflexivity
  | split;
    [ (exists []; reflexivity) || (eexists; reflexivity)
    | split; [ | reflexivity ] ] ].

(** The events of one entry: an initial part of the checks, then the
    relocation, reached only after all the checks, then the update of
    the store. *)
Lemma attemptMove_shape (fuel : nat) (options : MoveOptions)
      (move : MovePreview) (st : St W) :
  exists pre rel post,
    trace (fst (attemptMove fuel options move st))
    = trace st ++ pre ++ rel ++ post
    /\ isPrefix pre (preChecks move)
    /\ (rel = [] \/ (pre = preChecks move
                      /\ Relocation fuel (from move) (to move) rel))
    /\ forallb isDbEvent post = true.
Proof.
  unfold_exec.
  repeat host_step.
  all: try copy_events.
  all: try rewrite Hcp.
  all: unfold isPrefix, preChecks.
  all: first
    [ shape [EvMkdir (path_dirname (to move))] (@nil Event) (@nil Event);
      now left
    | shape [EvMkdir (path_dirname (to move)); EvAccess (from move)]
            (@nil Event) (@nil Event); now left
    | shape [EvMkdir (path_dirname (to move)); EvAccess (from move);
             EvAccess (to move)] (@nil Event) (@nil Event); now left
    | shape (preChecks move) [EvRename (from move) (to move)]
            [EvDbUpdate (repoId move) (Path.normalizeWindowsPath (to move))];
      right; split; [reflexivity | now apply RelRename]
    | shape (preChecks move) [EvRename (from move) (to move)] (@nil Event);
      right; split; [reflexivity | now apply RelRename]
    | shape (preChecks move) (cp ++ [EvRm (from move)])
            [EvDbUpdate (repoId move) (Path.normalizeWindowsPath (to move))];
      right; split;
      [ reflexivity
      | eapply RelCopyThenDelete; [assumption | exact Hcopy | exact Hcp] ]
    | shape (preChecks move) (cp ++ [EvRm (from move)]) (@nil Event);
      right; split;
      [ reflexivity
      | eapply RelCopyThenDelete; [assumption | exact Hcopy | exact Hcp] ]
    | shape (preChecks move) cp (@nil Event);
      right; split;
      [ reflexivity
      | eapply RelCopyOnly;
        [assumption | exact Hcopy | discriminate | exact Hcp] ] ].
Qed.

Lemma bind_Return {A B : Type} (m : M W A) (k : A -> M W B)
      (st st' : St W) (a : A) :
  m st = (st', Return a) -> bind m k st = k a st'.
Proof. intros Hm. unfold bind. now rewrite Hm. Qed.

(** A symbolic link is read and re-created; it is neither followed nor
    copied as a file. *)
Lemma copyEntry_symlink (recur : string -> string -> M W unit)
      (src dest name : string) (st : St W) :
  let srcPath := path_join src name in
  let destPath := path_join dest name in
  trace (fst (copyEntry recur src dest (Git.mkDirent name Git.KSymlink) st))
  = trace st ++
      match snd (fs_readlink srcPath (world st)) with
      | Ok linkTarget => [EvReadlink srcPath; EvSymlink linkTarget destPath]
      | Throw _ => [EvReadlink srcPath]
      end.
Proof.
  unfold copyEntry, bind, readlink, symlink, call. simpl.
  destruct (fs_readlink _ _) as [w [t|msg]]; simpl; [|reflexivity].
  destruct (fs_symlink _ _ _) as [w' [[]|msg]]; simpl;
    now rewrite <- app_assoc.
Qed.

Lemma fold_record (rs : list MoveResult) :
  forall acc,
    let sum := fold_left (fun a r => record r a) rs acc in
    results sum = results acc ++ rs
    /\ successful sum = successful acc + length (filter r_success rs)
    /\ successful sum + failed sum
       = successful acc + failed acc + length rs.
Proof.
  induction rs as [|r rs IH]; intros acc; simpl.
  - rewrite app_nil_r. repeat split; lia.
  - destruct (IH (record r acc)) as (H1 & H2 & H3).
    split; [|split].
    + rewrite H1. unfold record.
      destruct (r_success r); simpl; now rewrite <- app_assoc.
    + rewrite H2. unfold record. destruct (r_success r); simpl; lia.
    + rewrite H3. unfold record. destruct (r_success r); simpl; lia.
Qed.

(** The loop pushes one result for each entry it is given, in order. *)
Lemma runMoves_results (fuel : nat) (options : MoveOptions) :
  copyBounded fuel ->
  forall (validMoves : list MovePreview) (acc : MoveSummary) (st : St W),
  exists st' rs,
    runMoves fuel options validMoves acc st
    = (st', Return (fold_left (fun a r => record r a) rs acc))
    /\ map resultKey rs = map moveKey validMoves
    /\ Forall wellFormed rs.
Proof.
  intros Hb validMoves.
  induction validMoves as [|move rest IH]; intros acc st; cbn [runMoves].
  - exists st, []. repeat split. constructor.
  - destruct (attemptMove_returns fuel options move st Hb)
      as (st1 & r & Hrun & Hkey & Hwf).
    rewrite (bind_Return _ _ _ _ _ Hrun).
    destruct (IH (record r acc) st1) as (st2 & rs & Hrest & Hkeys & Hwfs).
    exists st2, (r :: rs). rewrite Hrest. simpl. repeat split.
    + now rewrite Hkey, Hkeys.
    + now constructor.
Qed.

Lemma revalidate_ok (p : string) (st : St W) :
  revalidateTotal ->
  exists st', revalidate p st = (st', Return tt) /\ table st' = table st.
Proof.
  intros Hr. unfold revalidate, call. specialize (Hr p (world st)).
  destruct (revalidatePath p (world st)) as [w r]. simpl in Hr. subst r.
  eexists. split; reflexivity.
Qed.

(** [executeMoves] on a batch with a valid entry: the summary of the
    loop, wrapped as a success. *)
Lemma executeMoves_success (fuel : nat) (moves : list MovePreview)
      (options : MoveOptions) (st : St W) :
  copyBounded fuel -> revalidateTotal ->
  filter isValidMove moves <> [] ->
  exists st' rs,
    executeMoves fuel moves options st
    = (st',
       Return (Success (summarize rs)
                 (Some (movedMessage (successful (summarize rs))
                                     (failed (summarize rs))))))
    /\ map resultKey rs = map moveKey (filter isValidMove moves)
    /\ Forall wellFormed rs.
Proof.
  intros Hb Hr Hne. unfold executeMoves.
  destruct (filter isValidMove moves) as [|m valid] eqn:Hf; [congruence|].
  cbn [length Nat.eqb].
  destruct (runMoves_results fuel options Hb (m :: valid)
              (mkSummary 0 0 []) st) as (st1 & rs & Hrun & Hkeys & Hwf).
  destruct (revalidate_ok "/dashboard/repos" st1 Hr) as (st2 & E2 & _).
  destruct (revalidate_ok "/dashboard/triage" st2 Hr) as (st3 & E3 & _).
  destruct (revalidate_ok "/dashboard" st3 Hr) as (st4 & E4 & _).
  unfold tryCatch.
  rewrite (bind_Return _ _ _ _ _ Hrun), (bind_Return _ _ _ _ _ E2),
    (bind_Return _ _ _ _ _ E3), (bind_Return _ _ _ _ _ E4).
  exists st4, rs. repeat split; assumption.
Qed.


(** C8 (as the code has it): on such a host a non-empty batch of valid
    entries always comes to a success-shaped result, with one result for
    each entry and the two counts adding up to the size of the batch,
    however many entries failed, all of them included. *)
Theorem executeMoves_success_shaped (fuel : nat) (moves : list MovePreview)
        (options : MoveOptions) (st : St W)
        (Hcopy : copyBounded fuel) (Hrev : revalidateTotal)
        (Hne : moves <> []) (Hvalid : forallb isValidMove moves = true) :
  exists st' sum msg,
    executeMoves fuel moves options st = (st', Return (Success sum msg))
    /\ map resultKey (results sum) = map moveKey moves
    /\ successful sum + failed sum = length moves
    /\ successful sum = length (filter r_success (results sum)).
Proof.
  assert (Hf : filter isValidMove moves = moves).
  { clear Hne. induction moves as [|m ms IH]; [reflexivity|].
    simpl in *. apply andb_prop in Hvalid. destruct Hvalid as [-> Hms].
    now rewrite IH. }
  destruct (executeMoves_success fuel moves options st Hcopy Hrev)
    as (st' & rs & Hrun & Hkeys & Hwf); [now rewrite Hf|].
  rewrite Hf in Hkeys.
  eexists _, _, _. split; [exact Hrun|].
  destruct (fold_record rs (mkSummary 0 0 [])) as (H1 & H2 & H3).
  unfold summarize. rewrite H1, H3, H2. simpl.
  split; [assumption|]. split; [|reflexivity].
  rewrite <- (length_map resultKey), Hkeys. apply length_map.
Qed.

End WithHost.
End ExecutorRun.

(** ** The executor on the simulated host *)

Module SimProps.
Import Store Planner Executor Sim StoreProps ExecutorProps ExecutorRun.

Lemma length_append (a b : string) :
  String.length (a ++ b) = String.length a + String.length b.
Proof. induction a as [|c a IH]; simpl; [reflexivity | now rewrite IH]. Qed.

Lemma finishes_call {A : Type} (e : Event) (op : Fs -> Fs * Res A) :
  finishes (call e op).
Proof.
  intros st. unfold call. destruct (op (world st)) as [w [a|msg]]; discriminate.
Qed.

Lemma finishes_bind {A B : Type} (m : M Fs A) (k : A -> M Fs B) (st : St Fs) :
  snd (m st) <> OutOfFuel ->
  (forall a st', m st = (st', Return a) -> snd (k a st') <> OutOfFuel) ->
  snd (bind m k st) <> OutOfFuel.
Proof.
  intros Hm Hk. unfold bind.
  destruct (m st) as [st' [a|msg|]]; simpl in *;
    [now apply Hk | discriminate | congruence].
Qed.

Lemma finishes_forEach {A : Type} (xs : list A) (body : A -> M Fs unit) :
  (forall x, finishes (body x)) -> finishes (forEach xs body).
Proof.
  intros Hb. induction xs as [|x xs IH]; intros st; simpl; [discriminate|].
  apply finishes_bind; [apply Hb | intros; apply IH].
Qed.

(** Listing a directory whose path is too long throws. *)
Lemma readdir_length (p : string) (st st' : St Fs)
      (entries : list Git.Dirent) :
  readdir p st = (st', Return entries) -> String.length p <= pathMax.
Proof.
  unfold readdir, call. simpl. unfold sim_readdir.
  destruct (pathMax <? String.length p) eqn:Hlen; [discriminate|].
  intros _. now apply Nat.ltb_ge in Hlen.
Qed.

(** A copy needs no more fuel than the room left for longer paths. *)
Lemma sim_copy_finishes (fuel : nat) :
  forall src dest st,
    1 <= fuel -> pathMax + 2 <= fuel + String.length src ->
    snd (copyDirectory fuel src dest st) <> OutOfFuel.
Proof.
  induction fuel as [|fuel IH]; intros src dest st Hpos Hroom; [lia|].
  cbn [copyDirectory].
  apply finishes_bind; [apply finishes_call|]. intros _ st1 _.
  apply finishes_bind; [apply finishes_call|]. intros entries st2 Hrd.
  apply readdir_length in Hrd.
  apply finishes_forEach. intros entry st3. unfold copyEntry.
  destruct (Git.isSymbolicLink entry).
  - apply finishes_bind; [apply finishes_call|].
    intros; apply finishes_call.
  - destruct (Git.isDirectory entry); [|apply finishes_call].
    apply IH; [lia|].
    simpl. unfold sim_join. rewrite !length_append.
    unfold pathMax in *. simpl. lia.
Qed.

Lemma sim_copyBounded : copyBounded (W := Fs) simFuel.
Proof.
  intros src dest st. apply sim_copy_finishes; unfold simFuel; lia.
Qed.

Lemma sim_revalidateTotal : revalidateTotal (W := Fs).
Proof. intros p w. reflexivity. Qed.

Lemma executeMoves_success_shaped_witness :
  copyBounded (W := Fs) simFuel /\ revalidateTotal (W := Fs)
  /\ [moveApp; moveGone] <> []
  /\ forallb isValidMove [moveApp; moveGone] = true
  /\ exists st' sum msg,
      executeMoves simFuel [moveApp; moveGone] DEFAULT_MOVE_OPTIONS start
      = (st', Return (Success sum msg))
      /\ map resultKey (results sum) = map moveKey [moveApp; moveGone]
      /\ successful sum + failed sum = length [moveApp; moveGone]
      /\ successful sum = length (filter r_success (results sum)).
Proof.
  split; [exact sim_copyBounded|]. split; [exact sim_revalidateTotal|].
  split; [discriminate|]. split; [reflexivity|].
  apply (executeMoves_success_shaped simFuel [moveApp; moveGone]
           DEFAULT_MOVE_OPTIONS start sim_copyBounded sim_revalidateTotal).
  - discriminate.
  - reflexivity.
Defined.

(** C8, the claim as stated fails: a batch of one valid entry whose
    source is gone; every attempted entry fails, and the overall result
    is a success with no move made. *)
Lemma executeMoves_all_failed_is_success :
  forallb isValidMove [moveGone] = true
  /\ snd (executeMoves simFuel [moveGone] DEFAULT_MOVE_OPTIONS start)
     = Return (Success
                 (mkSummary 0 1
                    [failure moveGone "Source directory not found"])
                 (Some "Moved 0 repositories, 1 failed")).
Proof. split; reflexivity. Qed.

(** The trace of the cross-drive move of [moveApp]: the copy, links
    kept, then the delete of the source, then the update of the store. *)
Example moveApp_trace :
  trace (fst (attemptMove simFuel DEFAULT_MOVE_OPTIONS moveApp start))
  = [ EvMkdir "C:/Org/nextjs"; EvAccess "D:/src/app";
      EvAccess "C:/Org/nextjs/app"; EvMkdir "C:/Org/nextjs/app";
      EvReaddir "D:/src/app";
      EvCopyFile "D:/src/app/README.md" "C:/Org/nextjs/app/README.md";
      EvMkdir "C:/Org/nextjs/app/lib"; EvReaddir "D:/src/app/lib";
      EvCopyFile "D:/src/app/lib/main.py" "C:/Org/nextjs/app/lib/main.py";
      EvReadlink "D:/src/app/current";
      EvSymlink "lib" "C:/Org/nextjs/app/current";
      EvRm "D:/src/app"; EvDbUpdate 1 "C:/Org/nextjs/app" ].
Proof. vm_compute. reflexivity. Qed.

End SimProps.

(** ** The results of a batch *)

Module ResultsProps.
Import Store Planner Executor Triage StoreProps ExecutorProps ExecutorRun.



Section WithHost.

Context {W : Type} `{Host W}.




End WithHost.

End ResultsProps.

Module ResultsSim.
Import Store Planner Executor Triage Sim SimProps ResultsProps.



End ResultsSim.

(** ** The move planner *)

Module PlannerProps.
Import Store Planner StoreProps.

Lemma generateConflictFreePath_throws (basePath : string)
      (existingPaths : list string) (m : string) :
  Path.generateConflictFreePath basePath existingPaths = Throw m ->
  m = "Too many path conflicts".
Proof.
  rewrite PathProps.generateConflictFreePath_resolve.
  unfold Path.resolveConflict.
  destruct (negb _); [discriminate|].
  destruct (Path.firstFree _ _); [discriminate|].
  intros Hm. now injection Hm as <-.
Qed.

Lemma truthy_orElse (o : option string) :
  Js.truthyOpt o = true -> Some (orElse o EmptyString) = o.
Proof.
  destruct o as [x|]; simpl; [|discriminate]. now intros ->.
Qed.

Lemma previewOne_accounts (root : string) (repo : Repository)
      (existingPaths : list string) :
  match previewOne root repo existingPaths with
  | Ok (e, _) => accountsFor repo e
  | Throw m => m = "Too many path conflicts"
  end.
Proof.
  unfold previewOne, accountsFor, noThemeEntry.
  destruct (Js.truthyOpt (theme repo)) eqn:Ht; simpl.
  - destruct (Js.arrIncludes existingPaths _).
    + destruct (Path.generateConflictFreePath _ _) as [p|m] eqn:Hg.
      * simpl. repeat split; try discriminate. now apply truthy_orElse.
      * now apply generateConflictFreePath_throws in Hg.
    + simpl. repeat split; try discriminate. now apply truthy_orElse.
  - repeat split; discriminate.
Qed.

Lemma previewLoop_accounts (root : string) (repos : list Repository) :
  forall existingPaths previews,
    match previewLoop root repos existingPaths previews with
    | Ok all =>
        exists new, all = previews ++ new /\ Forall2 accountsFor repos new
    | Throw m => m = "Too many path conflicts"
    end.
Proof.
  induction repos as [|repo rest IH]; intros existingPaths previews;
    cbn [previewLoop].
  - exists []. split; [now rewrite app_nil_r | constructor].
  - pose proof (previewOne_accounts root repo existingPaths) as Hone.
    destruct (previewOne root repo existingPaths) as [[e ex']|m];
      [|exact Hone].
    specialize (IH ex' (previews ++ [e])).
    destruct (previewLoop root rest ex' (previews ++ [e])) as [all|m];
      [|exact IH].
    destruct IH as (new & -> & Hnew).
    exists (e :: new). split; [now rewrite <- app_assoc | now constructor].
Qed.

Lemma accountsFor_ids (rows : list Repository) (previews : list MovePreview) :
  Forall2 accountsFor rows previews -> map repoId previews = map id rows.
Proof.
  induction 1 as [|r e rows previews Hre _ IH]; cbn; [reflexivity|].
  destruct Hre as [-> _]. now rewrite IH.
Qed.

Lemma findManyIn_ids (repoIds : list Z) (t : Table) (i : Z) :
  In i (map id (findManyIn repoIds t)) <-> In i repoIds /\ In i (map id t).
Proof.
  unfold findManyIn. rewrite !in_map_iff. split.
  - intros (r & <- & Hr). apply filter_In in Hr. destruct Hr as [Hr He].
    apply existsb_exists in He. destruct He as (j & Hj & Hij).
    apply Z.eqb_eq in Hij. split; [now rewrite Hij | now exists r].
  - intros (Hi & r & <- & Hr). exists r. split; [reflexivity|].
    apply filter_In. split; [exact Hr|]. apply existsb_exists.
    exists (id r). split; [exact Hi | apply Z.eqb_refl].
Qed.

(** C3 (as the code has it): a preview is returned exactly when the root
    is configured, some requested id is in the store and the suffix
    search is not exhausted.  It then has exactly one entry for each row
    of the store whose id is among the requested ids, in the order of the
    store; a row without a theme has an entry with an empty target and
    the blocking conflict "No theme assigned"; the ids of the entries are
    the requested ids that are in the store, so a requested id that is
    not in the store has no entry.  When none of the requested ids is in
    the store the call fails with "No repositories found". *)
Theorem generateMovePreview_accounts (settings : option Settings)
        (t : Table) (existing : list string) (repoIds : list Z) :
  match generateMovePreview settings t existing repoIds with
  | Success previews _ =>
      rootConfigured settings = true
      /\ findManyIn repoIds t <> []
      /\ Forall2 accountsFor (findManyIn repoIds t) previews
      /\ (forall i, In i (map repoId previews)
                    <-> In i repoIds /\ In i (map id t))
  | Failure e =>
      (rootConfigured settings = false
       /\ e = "Organization root not configured. Update Settings first.")
      \/ (rootConfigured settings = true
          /\ findManyIn repoIds t = []
          /\ e = "No repositories found")
      \/ (rootConfigured settings = true
          /\ findManyIn repoIds t <> []
          /\ e = "Too many path conflicts")
  end.
Proof.
  unfold generateMovePreview, rootConfigured.
  destruct settings as [s|]; [|now left].
  destruct (Js.truthyOpt (organizationRoot s)); cbn [negb]; [|now left].
  pose proof (findManyIn_ids repoIds t) as Hids.
  destruct (findManyIn repoIds t) as [|r rs] eqn:Hf; cbn [length Nat.eqb];
    [right; left; now repeat split|].
  pose proof (previewLoop_accounts (orElse (organizationRoot s) EmptyString)
                (r :: rs) existing []) as Hloop.
  destruct (previewLoop _ (r :: rs) existing []) as [all|m].
  - destruct Hloop as (new & -> & Hnew). cbn [app].
    split; [reflexivity|]. split; [discriminate|]. split; [exact Hnew|].
    intros i. rewrite (accountsFor_ids _ _ Hnew). apply Hids.
  - right. right. repeat split; [discriminate | exact Hloop].
Qed.

(** C3, the claim as stated fails: of three requested ids the one that is
    not in the store has no entry in the preview, and a request for it
    alone is refused. *)
Lemma generateMovePreview_omits_missing_id :
  rootConfigured (Some settingsC) = true
  /\ previewIds (generateMovePreview (Some settingsC) [repoA; repoB] []
                   [1; 2; 3]%Z)
     = Some [1; 2]%Z
  /\ generateMovePreview (Some settingsC) [repoA; repoB] [] [3%Z]
     = Failure "No repositories found".
Proof. repeat split; reflexivity. Qed.

End PlannerProps.

(** ** The invariant between [physicalPath] and [triageStatus] *)

Module InvariantProps.
Import Store Scan Repositories Planner Executor Sim StoreProps ScanProps
       ExecutorProps.









(** The theme assignments write no empty theme: the schema asks for one
    character at least. *)
Lemma assignTheme_themeSet (repoId : Z) (th : string) (t : Table) :
  Forall themeSet t -> Forall themeSet (fst (assignTheme repoId th t)).
Proof.
  intros Ht. unfold assignTheme, assignThemeValid.
  destruct (1 <=? String.length th) eqn:Hlen;
    [|rewrite andb_false_r; exact Ht].
  destruct (negb _); [exact Ht|].
  unfold update. destruct (findUnique repoId t) as [found|]; [|exact Ht].
  simpl. apply Forall_map. eapply Forall_impl; [|exact Ht].
  intros r Hr. destruct (Z.eqb (id r) repoId); [|exact Hr].
  unfold themeSet. simpl. intros Heq. injection Heq as ->. discriminate Hlen.
Qed.

Lemma bulkAssignTheme_themeSet (repoIds : list Z) (th : string) (t : Table) :
  Forall themeSet t -> Forall themeSet (fst (bulkAssignTheme repoIds th t)).
Proof.
  intros Ht. unfold bulkAssignTheme, bulkAssignThemeValid.
  destruct (1 <=? String.length th) eqn:Hlen;
    [|rewrite andb_false_r; exact Ht].
  destruct (negb _); [exact Ht|].
  simpl. unfold updateMany. apply Forall_map.
  eapply Forall_impl; [|exact Ht].
  intros r Hr. destruct (existsb _ repoIds); [|exact Hr].
  unfold themeSet. simpl. intros Heq. injection Heq as ->. discriminate Hlen.
Qed.

Section WithHost.

Context {W : Type} `{Host W}.


End WithHost.




End InvariantProps.

(** ** Re-scanning keeps the themes *)

Module ThemeKeptProps.
Import Store Scan Repositories Planner Executor StoreProps ScanProps
       ExecutorProps InvariantProps.

Lemma themeSet_truthy (r : Repository) :
  themeSet r -> theme r <> None -> Js.truthyOpt (theme r) = true.
Proof.
  unfold themeSet. destruct (theme r) as [x|]; [|congruence].
  intros Hx _. cbn. unfold Js.truthy. apply negb_true_iff, String.eqb_neq.
  congruence.
Qed.

Lemma keeps_theme (t kept : Table) :
  Forall themeSet t -> Forall2 keeps t kept ->
  Forall2 (fun r r' => keeps r r' /\ (theme r <> None -> theme r' = theme r))
          t kept.
Proof.
  intros Hset Hk. induction Hk as [|r r' t kept Hr _ IH]; constructor.
  - split; [exact Hr|]. intros Hth. apply Hr.
    apply themeSet_truthy; [now inversion Hset | exact Hth].
  - apply IH. now inversion Hset.
Qed.

Lemma setTriageStatus_themeSet (repoId : Z) (status : TriageStatus)
      (t : Table) :
  Forall themeSet t -> Forall themeSet (fst (setTriageStatus repoId status t)).
Proof.
  intros Ht. unfold setTriageStatus, update.
  destruct (findUnique repoId t) as [found|]; [|exact Ht].
  cbn [fst]. apply Forall_map. eapply Forall_impl; [|exact Ht].
  intros row Hrow. now destruct (Z.eqb (id row) repoId).
Qed.

Section WithHost.

Context {W : Type} `{Host W}.

Lemma executeMoves_themeSet (fuel : nat) (moves : list MovePreview)
      (options : MoveOptions) (st : St W) :
  Forall themeSet (table st) ->
  Forall themeSet (table (fst (executeMoves fuel moves options st))).
Proof.
  apply (respects_executeMoves
           (fun s s' : St W => Forall themeSet (table s)
                               -> Forall themeSet (table s'))
           (fun _ => true)); auto.
  intros i p s Hs. unfold markMoved.
  destruct (update i _ (table s)) as [t'|msg] eqn:Hu; cbn [fst table];
    [|exact Hs].
  eapply update_inv; [|exact Hs | exact Hu]. intros r Hr. exact Hr.
Qed.

(** C5: on a table with unique ids in which no theme is the empty string,
    the re-scan goes through and keeps every row that was there, with its
    id, name, paths and triage status, and with its theme whenever the
    theme is not null, whatever the classifier suggests; a suggested theme
    is written to rows without a theme only.  No theme is the empty
    string on the tables the actions reach: the scan, the theme
    assignments, the status change and the move execution all leave a
    table without empty themes in that state. *)
Theorem persistScanResults_keeps_theme
        (t : Table) (Hkey : NoDup (map id t)) (Hset : Forall themeSet t) :
  (forall results,
      exists t' c,
        persistScanResults results t = Ok (t', c)
        /\ Forall themeSet t'
        /\ exists kept created,
             t' = kept ++ created
             /\ Forall2 (fun r r' =>
                           keeps r r'
                           /\ (theme r <> None -> theme r' = theme r))
                        t kept)
  /\ (forall repoId th, Forall themeSet (fst (assignTheme repoId th t)))
  /\ (forall repoIds th,
         Forall themeSet (fst (bulkAssignTheme repoIds th t)))
  /\ (forall repoId status,
         Forall themeSet (fst (setTriageStatus repoId status t)))
  /\ (forall fuel moves options (w : W) tr,
         Forall themeSet
           (table (fst (executeMoves fuel moves options (mkSt w t tr))))).
Proof.
  repeat split.
  - intros results.
    destruct (persistScanResults_total results t Hkey)
      as (t' & c & Hok & kept & created & Hsplit & Hkept).
    exists t', c. split; [exact Hok|].
    split; [now apply (persistScanResults_themeSet results t t' c)|].
    exists kept, created. split; [exact Hsplit | now apply keeps_theme].
  - intros. now apply assignTheme_themeSet.
  - intros. now apply bulkAssignTheme_themeSet.
  - intros. now apply setTriageStatus_themeSet.
  - intros. now apply executeMoves_themeSet.
Qed.

End WithHost.

Lemma persistScanResults_keeps_theme_witness :
  NoDup (map id [classified]) /\ Forall themeSet [classified]
  /\ exists t' c,
      persistScanResults [rescanSite] [classified] = Ok (t', c)
      /\ Forall themeSet t'
      /\ exists kept created,
           t' = kept ++ created
           /\ Forall2 (fun r r' =>
                         keeps r r'
                         /\ (theme r <> None -> theme r' = theme r))
                      [classified] kept.
Proof.
  assert (Hkey : NoDup (map id [classified]))
    by (repeat constructor; intros []).
  assert (Hset : Forall themeSet [classified])
    by (repeat constructor; discriminate).
  split; [exact Hkey|]. split; [exact Hset|].
  exact (proj1 (@persistScanResults_keeps_theme Sim.Fs Sim.simHost
                  [classified] Hkey Hset) [rescanSite]).
Defined.

End ThemeKeptProps.


(** ** More on the path utilities *)

Module PathMoreProps.
Import Path PathProps.

Lemma normalizeWindowsPath_idem (p : string) :
  normalizeWindowsPath (normalizeWindowsPath p) = normalizeWindowsPath p.
Proof.
  induction p as [|c p IH]; simpl; [reflexivity|]. rewrite IH. f_equal.
  destruct (Ascii.eqb c backslash) eqn:Hc; [reflexivity | now rewrite Hc].
Qed.

Lemma normalizeWindowsPath_noBackslash (p : string) :
  noBackslash (normalizeWindowsPath p) = true.
Proof.
  induction p as [|c p IH]; simpl; [reflexivity|]. rewrite IH.
  destruct (Ascii.eqb c backslash) eqn:Hc; [reflexivity | now rewrite Hc].
Qed.

Lemma normalizeWindowsPath_length (p : string) :
  String.length (normalizeWindowsPath p) = String.length p.
Proof. induction p as [|c p IH]; simpl; [reflexivity | now rewrite IH]. Qed.

Lemma normalizeWindowsPath_fixed (p : string) :
  noBackslash p = true -> normalizeWindowsPath p = p.
Proof.
  induction p as [|c p IH]; simpl; [reflexivity|]. intros H.
  apply andb_prop in H. destruct H as [Hc Hp]. rewrite (IH Hp).
  destruct (Ascii.eqb c backslash); [discriminate | reflexivity].
Qed.

(** X1: [normalizeWindowsPath] is idempotent, leaves no backslash in its
    result, and keeps the length of the path. *)
Theorem normalizeWindowsPath_canonical (p : string) :
  normalizeWindowsPath (normalizeWindowsPath p) = normalizeWindowsPath p
  /\ noBackslash (normalizeWindowsPath p) = true
  /\ String.length (normalizeWindowsPath p) = String.length p.
Proof.
  repeat split; [apply normalizeWindowsPath_idem
                | apply normalizeWindowsPath_noBackslash
                | apply normalizeWindowsPath_length].
Qed.

Lemma isSep_backslash (c : ascii) :
  isSep c = false -> Ascii.eqb c backslash = false.
Proof. unfold isSep. intros H. apply orb_false_elim in H. tauto. Qed.

Lemma collapseSeps_clean (s : string) :
  noBackslash (collapseSeps s) = true /\ noDoubleSep (collapseSeps s) = true.
Proof.
  induction s as [|c r IH]; [now split|].
  destruct IH as [IHb IHd].
  cbn [collapseSeps]. destruct (isSep c) eqn:Hc.
  - destruct r as [|d r']; [now split|].
    destruct (isSep d) eqn:Hd; [now split|].
    assert (Hr : collapseSeps (String d r') = String d (collapseSeps r'))
      by (cbn [collapseSeps]; now rewrite Hd).
    split.
    + cbn [noBackslash]. fold (noBackslash (collapseSeps (String d r'))).
      now rewrite IHb.
    + rewrite Hr in *. cbn [noDoubleSep] in *.
      rewrite Hd, andb_false_r. rewrite Hd in IHd. exact IHd.
  - split.
    + cbn [noBackslash]. now rewrite (isSep_backslash _ Hc), IHb.
    + cbn [noDoubleSep]. destruct (collapseSeps r) as [|e t] eqn:He;
        [reflexivity|]. now rewrite Hc, IHd.
Qed.

(** X2: whatever the parts, the path [joinPaths] returns has no
    backslash and no two separators in a row. *)
Theorem joinPaths_clean (parts : list string) :
  noBackslash (joinPaths parts) = true
  /\ noDoubleSep (joinPaths parts) = true.
Proof. unfold joinPaths. apply collapseSeps_clean. Qed.

(** What [generateConflictFreePath] returns is not taken, and is the base
    path or one of its numbered candidates. *)
Lemma generateConflictFreePath_Ok
      (basePath : string) (existingPaths : list string) (p : string) :
  generateConflictFreePath basePath existingPaths = Ok p ->
  taken (map (fun q => Js.toLowerCase (normalizeWindowsPath q))
             existingPaths) p = false
  /\ (p = basePath
      \/ exists k, 2 <= k <= 100 /\ p = candidateOf basePath k).
Proof.
  intros Hok. rewrite generateConflictFreePath_resolve in Hok.
  unfold resolveConflict in Hok. unfold taken.
  destruct (negb (Js.arrIncludes _ (Js.toLowerCase
                                      (normalizeWindowsPath basePath))))
    eqn:Hbase.
  - injection Hok as <-. split; [|now left].
    now apply negb_true_iff in Hbase.
  - destruct (firstFree basePath _) as [k|] eqn:Hk; [|discriminate].
    injection Hok as <-. unfold firstFree in Hk. apply find_some in Hk.
    destruct Hk as [Hin Hfree]. apply in_seq in Hin.
    unfold isFree, taken in Hfree. apply negb_true_iff in Hfree.
    split; [exact Hfree|]. right. exists k. split; [lia | reflexivity].
Qed.

(** X3: a path returned by [generateConflictFreePath] is not among
    the existing paths, compared case-insensitively and with unified
    separators, and it is the base path itself or the base path with a
    suffix [-k] for some [k] from 2 to 100. *)
Theorem generateConflictFreePath_free
        (basePath : string) (existingPaths : list string) (p : string)
        (Hok : generateConflictFreePath basePath existingPaths = Ok p) :
  taken (map (fun q => Js.toLowerCase (normalizeWindowsPath q))
             existingPaths) p = false
  /\ (p = basePath
      \/ exists k, 2 <= k <= 100 /\ p = candidateOf basePath k).
Proof. exact (generateConflictFreePath_Ok _ _ _ Hok). Qed.

Lemma generateConflictFreePath_free_witness :
  generateConflictFreePath "X" ["x"; "x-2"] = Ok "X-3"
  /\ taken (map (fun q => Js.toLowerCase (normalizeWindowsPath q))
                ["x"; "x-2"]) "X-3" = false
  /\ ("X-3" = "X" \/ exists k, 2 <= k <= 100 /\ "X-3" = candidateOf "X" k).
Proof.
  split; [vm_compute; reflexivity|].
  apply (generateConflictFreePath_free "X" ["x"; "x-2"] "X-3").
  vm_compute. reflexivity.
Defined.

(** *** Drive letters and WSL paths *)

Lemma letter_not_slash (c : ascii) :
  Js.isLetter (if Ascii.eqb c backslash then slash else c) = true ->
  Ascii.eqb c slash = false
  /\ Ascii.eqb (Js.lowerChar c) backslash = false.
Proof.
  destruct c as [[] [] [] [] [] [] [] []]; intros Hl;
    first [discriminate Hl | split; reflexivity].
Qed.

Lemma getDriveLetter_Some (p : string) (d : ascii) :
  getDriveLetter p = Some d ->
  exists c r,
    normalizeWindowsPath p = String c (String ":"%char r)
    /\ Js.isLetter c = true /\ d = Js.upperChar c.
Proof.
  unfold getDriveLetter.
  destruct (normalizeWindowsPath p) as [|c [|e t]]; try discriminate.
  destruct e as [[] [] [] [] [] [] [] []]; try discriminate.
  destruct (Js.isLetter c) eqn:Hl; [|discriminate].
  intros Hd. injection Hd as <-. now exists c, t.
Qed.

Lemma getDriveLetter_head (c : ascii) (r : string) (d : ascii) :
  getDriveLetter (String c r) = Some d ->
  Ascii.eqb c slash = false
  /\ Ascii.eqb (Js.lowerChar c) backslash = false.
Proof.
  intros Hd. apply getDriveLetter_Some in Hd.
  destruct Hd as (c' & r' & Hn & Hl & _).
  cbn [normalizeWindowsPath] in Hn. injection Hn as Hc _. subst c'.
  now apply letter_not_slash.
Qed.

Lemma isWslPath_no_drive (p : string) :
  isWslPath p = true -> getDriveLetter p = None.
Proof.
  intros Hw. destruct (getDriveLetter p) as [d|] eqn:Hd; [|reflexivity].
  exfalso. destruct p as [|c r]; [discriminate Hd|].
  destruct (getDriveLetter_head c r d Hd) as [Hs Hb]. clear Hd.
  unfold isWslPath, isMntPath in Hw.
  destruct c as [[] [] [] [] [] [] [] []];
    first [discriminate Hs | discriminate Hb | discriminate Hw].
Qed.

(** X4: a path that [isWslPath] recognises has no drive letter, so
    [isSameDrive] is false for it against every path, on either side. *)
Theorem isWslPath_never_same_drive (p q : string)
        (Hwsl : isWslPath p = true) :
  getDriveLetter p = None
  /\ isSameDrive p q = false /\ isSameDrive q p = false.
Proof.
  pose proof (isWslPath_no_drive p Hwsl) as Hd.
  unfold isSameDrive. rewrite Hd.
  repeat split. destruct (getDriveLetter q); reflexivity.
Qed.

Lemma isWslPath_never_same_drive_witness :
  isWslPath "/mnt/c/work/app" = true
  /\ getDriveLetter "/mnt/c/work/app" = None
  /\ isSameDrive "/mnt/c/work/app" "C:/Org/python/app" = false
  /\ isSameDrive "C:/Org/python/app" "/mnt/c/work/app" = false.
Proof.
  split; [reflexivity|].
  exact (isWslPath_never_same_drive "/mnt/c/work/app" "C:/Org/python/app"
           eq_refl).
Defined.

Lemma upperChar_letter (c : ascii) :
  Js.isLetter c = true ->
  Js.isLetter (Js.upperChar c) = true
  /\ Js.upperChar (Js.upperChar c) = Js.upperChar c
  /\ Ascii.eqb c backslash = false.
Proof.
  destruct c as [[] [] [] [] [] [] [] []]; intros Hl;
    first [discriminate Hl | repeat split; reflexivity].
Qed.

Lemma getDriveLetter_drive (c : ascii) (r : string) :
  Js.isLetter c = true ->
  getDriveLetter (String c (String ":"%char r)) = Some (Js.upperChar c).
Proof.
  intros Hl. destruct (upperChar_letter c Hl) as (_ & _ & Hb).
  unfold getDriveLetter. cbn [normalizeWindowsPath]. rewrite Hb.
  change (Ascii.eqb ":"%char backslash) with false. cbv iota.
  now rewrite Hl.
Qed.

(** X5: on a mount path [/mnt/c/rest], with [c] a letter and no line
    terminator in [rest], [normalizeWslPath] returns [C:/rest] with the
    letter in upper case; the result has that drive letter, and the input
    is recognised by [isWslPath]. *)
Theorem normalizeWslPath_mount (c : ascii) (rest : string)
        (Hletter : Js.isLetter c = true)
        (Hline : hasLineTerminator rest = false) :
  normalizeWslPath ("/mnt/" ++ String c ("/" ++ rest))
  = String (Js.upperChar c) (":/" ++ rest)
  /\ getDriveLetter (normalizeWslPath ("/mnt/" ++ String c ("/" ++ rest)))
     = Some (Js.upperChar c)
  /\ isWslPath ("/mnt/" ++ String c ("/" ++ rest)) = true.
Proof.
  assert (Hn : normalizeWslPath ("/mnt/" ++ String c ("/" ++ rest))
               = String (Js.upperChar c) (":/" ++ rest)).
  { unfold normalizeWslPath. cbn. now rewrite Hletter, Hline. }
  destruct (upperChar_letter c Hletter) as (Hl & Hu & Hb).
  split; [exact Hn|]. split.
  - rewrite Hn.
    change (":/" ++ rest)%string with (String ":"%char (String "/"%char rest)).
    rewrite (getDriveLetter_drive _ _ Hl). now rewrite Hu.
  - unfold isWslPath, isMntPath. cbn. now rewrite Hletter.
Qed.

Lemma normalizeWslPath_mount_witness :
  Js.isLetter "d"%char = true
  /\ hasLineTerminator "Projects/app" = false
  /\ normalizeWslPath "/mnt/d/Projects/app" = "D:/Projects/app"
  /\ getDriveLetter (normalizeWslPath "/mnt/d/Projects/app")
     = Some "D"%char
  /\ isWslPath "/mnt/d/Projects/app" = true.
Proof.
  split; [reflexivity|]. split; [reflexivity|].
  exact (normalizeWslPath_mount "d"%char "Projects/app" eq_refl eq_refl).
Defined.

(** *** Segments *)

Lemma splitOn_pieces (s : string) :
  noBackslash s = true ->
  Forall (fun piece => noSep piece = true) (Js.splitOn slash s).
Proof.
  induction s as [|c r IH]; cbn [Js.splitOn noBackslash].
  - intros _. repeat constructor.
  - intros H. apply andb_prop in H. destruct H as [Hc Hr].
    specialize (IH Hr). destruct (Ascii.eqb c slash) eqn:Hs.
    + constructor; [reflexivity | exact IH].
    + destruct (Js.splitOn slash r) as [|h t];
        [repeat constructor; cbn; unfold isSep; rewrite Hs;
         apply negb_true_iff in Hc; now rewrite Hc|].
      inversion IH as [|x l Hh Ht]; subst. constructor; [|exact Ht].
      cbn [noSep]. unfold isSep. rewrite Hs.
      apply negb_true_iff in Hc. now rewrite Hc, Hh.
Qed.

Lemma segments_pieces (p : string) :
  Forall (fun x => Js.truthy x = true /\ noSep x = true)
         (segments (normalizeWindowsPath p)).
Proof.
  unfold segments. apply Forall_forall. intros x Hx.
  apply filter_In in Hx. destruct Hx as [Hin Ht]. split; [exact Ht|].
  pose proof (splitOn_pieces _ (normalizeWindowsPath_noBackslash p)) as Hall.
  now apply (proj1 (Forall_forall _ _) Hall).
Qed.

(** X6: the name [getRepoNameFromPath] returns is never empty and
    contains no separator. *)
Theorem getRepoNameFromPath_segment (repoPath : string) :
  Js.truthy (getRepoNameFromPath repoPath) = true
  /\ noSep (getRepoNameFromPath repoPath) = true.
Proof.
  unfold getRepoNameFromPath.
  destruct (rev (segments (normalizeWindowsPath repoPath)))
    as [|last rest] eqn:Hrev; [now split|].
  assert (Hin : In last (segments (normalizeWindowsPath repoPath))).
  { apply in_rev. rewrite Hrev. now left. }
  exact (proj1 (Forall_forall _ _) (segments_pieces repoPath) last Hin).
Qed.

Lemma noSep_slash (p : string) (c : ascii) (r : string) :
  noSep (String c p) = true -> Ascii.eqb c slash = false.
Proof.
  cbn. unfold isSep. intros H. apply andb_prop in H. destruct H as [H _].
  apply negb_true_iff in H. apply orb_false_elim in H. tauto.
Qed.

Lemma splitOn_app (p r : string) :
  noSep p = true ->
  Js.splitOn slash (p ++ String slash r) = p :: Js.splitOn slash r.
Proof.
  induction p as [|c p IH]; intros Hp.
  - cbn. reflexivity.
  - pose proof (noSep_slash p c r Hp) as Hc.
    cbn [noSep] in Hp. apply andb_prop in Hp. destruct Hp as [_ Hp].
    change (String c p ++ String slash r)%string
      with (String c (p ++ String slash r)).
    cbn [Js.splitOn]. rewrite Hc, (IH Hp). reflexivity.
Qed.

Lemma splitOn_single (p : string) :
  noSep p = true -> Js.splitOn slash p = [p].
Proof.
  induction p as [|c p IH]; intros Hp; [reflexivity|].
  pose proof (noSep_slash p c EmptyString Hp) as Hc.
  cbn [noSep] in Hp. apply andb_prop in Hp. destruct Hp as [_ Hp].
  cbn [Js.splitOn]. now rewrite Hc, (IH Hp).
Qed.

(** Joining segments with slashes and splitting again gives them back. *)
Lemma segments_join (parts : list string) :
  Forall (fun x => Js.truthy x = true /\ noSep x = true) parts ->
  segments (Js.join "/" parts) = parts.
Proof.
  unfold segments.
  induction parts as [|p rest IH]; intros Hall; [reflexivity|].
  inversion Hall as [|x l [Ht Hs] Hrest]; subst.
  destruct rest as [|q rest].
  - cbn [Js.join]. rewrite (splitOn_single p Hs). cbn. now rewrite Ht.
  - change (Js.join "/" (p :: q :: rest))
      with (p ++ String slash (Js.join "/" (q :: rest)))%string.
    rewrite (splitOn_app _ _ Hs). cbn [filter]. rewrite Ht.
    now rewrite (IH Hrest).
Qed.

Lemma join_truthy (p : string) (rest : list string) :
  Js.truthy p = true -> Js.truthy (Js.join "/" (p :: rest)) = true.
Proof.
  destruct p as [|c p]; [discriminate|]. intros _.
  destruct rest; reflexivity.
Qed.

(** X7: for a path of at least two segments, the segments of
    [getParentDirectory] followed by the name of [getRepoNameFromPath]
    are the segments of the path. *)
Theorem parent_and_name (p : string)
        (Hdeep : 2 <= length (segments (normalizeWindowsPath p))) :
  segments (normalizeWindowsPath p)
  = segments (getParentDirectory p) ++ [getRepoNameFromPath p].
Proof.
  pose proof (segments_pieces p) as Hall.
  unfold getParentDirectory, getRepoNameFromPath.
  set (parts := segments (normalizeWindowsPath p)) in *.
  assert (Hne : parts <> []) by (destruct parts; [simpl in Hdeep; lia | discriminate]).
  destruct (length parts <=? 1) eqn:Hlen;
    [apply Nat.leb_le in Hlen; lia|].
  rewrite (app_removelast_last EmptyString Hne) at 1.
  assert (Hlast : match rev parts with
                  | [] => "unknown"
                  | last :: _ => last
                  end = last parts EmptyString).
  { rewrite (app_removelast_last EmptyString Hne) at 1.
    rewrite rev_app_distr. reflexivity. }
  rewrite Hlast. f_equal.
  assert (Hall' : Forall (fun x => Js.truthy x = true /\ noSep x = true)
                         (removelast parts)).
  { apply Forall_forall. intros x Hx.
    apply (proj1 (Forall_forall _ _) Hall).
    rewrite (app_removelast_last EmptyString Hne).
    apply in_or_app. now left. }
  assert (Hjoin : Js.truthy (Js.join "/" (removelast parts)) = true).
  { destruct (removelast parts) as [|x l] eqn:Hrl.
    - exfalso. rewrite (app_removelast_last EmptyString Hne), Hrl in Hdeep.
      simpl in Hdeep. lia.
    - apply join_truthy. now inversion Hall' as [|? ? [Ht _] _]. }
  destruct (hasDrivePrefix (normalizeWindowsPath p)).
  - rewrite Hjoin. symmetry. now apply segments_join.
  - change ("/" ++ Js.join "/" (removelast parts))%string
      with (String slash (Js.join "/" (removelast parts))).
    unfold segments at 1. cbn [Js.splitOn].
    rewrite Ascii.eqb_refl. cbn [filter Js.truthy]. cbn.
    symmetry. now apply segments_join.
Qed.

Lemma parent_and_name_witness :
  2 <= length (segments (normalizeWindowsPath "C:/Users/test/project"))
  /\ segments (normalizeWindowsPath "C:/Users/test/project")
     = segments (getParentDirectory "C:/Users/test/project")
         ++ [getRepoNameFromPath "C:/Users/test/project"].
Proof.
  split; [vm_compute; lia|].
  apply (parent_and_name "C:/Users/test/project"). vm_compute. lia.
Defined.

(** *** Containment *)

Lemma startsWith_refl (s : string) : Js.startsWith s s = true.
Proof.
  induction s as [|c s IH]; [reflexivity|]. cbn.
  now rewrite Ascii.eqb_refl.
Qed.

Lemma startsWith_trans (c : string) :
  forall a b,
    Js.startsWith a b = true -> Js.startsWith b c = true ->
    Js.startsWith a c = true.
Proof.
  induction c as [|x c IH]; intros a b Hab Hbc; [now destruct a|].
  destruct b as [|y b]; [discriminate Hbc|].
  destruct a as [|z a]; [discriminate Hab|].
  cbn in *. destruct (Ascii.eqb z y) eqn:Hzy; [|discriminate].
  destruct (Ascii.eqb y x) eqn:Hyx; [|discriminate].
  apply Ascii.eqb_eq in Hzy, Hyx. subst. rewrite Ascii.eqb_refl.
  now apply (IH a b).
Qed.

(** X8: [isInsideAllowedRoot] is transitive, and every path is
    inside itself. *)
Theorem isInsideAllowedRoot_preorder (cwd a b c : string)
        (Hab : isInsideAllowedRoot cwd a b = true)
        (Hbc : isInsideAllowedRoot cwd b c = true) :
  isInsideAllowedRoot cwd a c = true
  /\ isInsideAllowedRoot cwd a a = true.
Proof.
  unfold isInsideAllowedRoot in *. split.
  - eapply startsWith_trans; eassumption.
  - apply startsWith_refl.
Qed.

Lemma isInsideAllowedRoot_preorder_witness :
  isInsideAllowedRoot "/srv" "/data/org/python/app" "/data/org/python" = true
  /\ isInsideAllowedRoot "/srv" "/data/org/python" "/data/org" = true
  /\ isInsideAllowedRoot "/srv" "/data/org/python/app" "/data/org" = true
  /\ isInsideAllowedRoot "/srv" "/data/org/python/app"
                         "/data/org/python/app" = true.
Proof.
  split; [reflexivity|]. split; [reflexivity|].
  exact (isInsideAllowedRoot_preorder "/srv" "/data/org/python/app"
           "/data/org/python" "/data/org" eq_refl eq_refl).
Defined.

End PathMoreProps.

(** ** Keys of paths, system paths and the deduplication of results *)

Module KeyProps.
Import Path Schemas Scan ScannerResults PathMoreProps.

Lemma lowerChar_facts (c : ascii) :
  Js.lowerChar (Js.lowerChar c) = Js.lowerChar c
  /\ Js.lowerChar (if Ascii.eqb c backslash then slash else c)
     = (if Ascii.eqb (Js.lowerChar c) backslash then slash
        else Js.lowerChar c).
Proof. destruct c as [[] [] [] [] [] [] [] []]; split; reflexivity. Qed.

Lemma toLowerCase_idem (s : string) :
  Js.toLowerCase (Js.toLowerCase s) = Js.toLowerCase s.
Proof.
  induction s as [|c s IH]; simpl; [reflexivity|].
  now rewrite IH, (proj1 (lowerChar_facts c)).
Qed.

Lemma toLowerCase_normalize (s : string) :
  Js.toLowerCase (normalizeWindowsPath s)
  = normalizeWindowsPath (Js.toLowerCase s).
Proof.
  induction s as [|c s IH]; simpl; [reflexivity|].
  now rewrite IH, (proj2 (lowerChar_facts c)).
Qed.

Lemma toLowerCase_app (a b : string) :
  Js.toLowerCase (a ++ b) = (Js.toLowerCase a ++ Js.toLowerCase b)%string.
Proof. induction a as [|c a IH]; simpl; [reflexivity | now rewrite IH]. Qed.

Lemma normalizeWindowsPath_app (a b : string) :
  normalizeWindowsPath (a ++ b)
  = (normalizeWindowsPath a ++ normalizeWindowsPath b)%string.
Proof. induction a as [|c a IH]; simpl; [reflexivity | now rewrite IH]. Qed.

(** The key of a path is canonical: taking the key again changes
    nothing. *)
Lemma pathKey_idem (p : string) : pathKey (pathKey p) = pathKey p.
Proof.
  unfold pathKey.
  rewrite (toLowerCase_normalize (Js.toLowerCase _)), toLowerCase_idem.
  now rewrite <- toLowerCase_normalize, normalizeWindowsPath_idem.
Qed.

Lemma pathKey_normalize (p : string) :
  pathKey (normalizeWindowsPath p) = pathKey p.
Proof. unfold pathKey. now rewrite normalizeWindowsPath_idem. Qed.

Lemma pathKey_lower (p : string) : pathKey (Js.toLowerCase p) = pathKey p.
Proof.
  unfold pathKey. now rewrite <- toLowerCase_normalize, toLowerCase_idem.
Qed.

Lemma startsWith_app (a b x : string) :
  Js.startsWith a x = true -> Js.startsWith (a ++ b) x = true.
Proof.
  revert a. induction x as [|c x IH]; intros a H.
  - destruct a; [destruct b|]; reflexivity.
  - destruct a as [|d a]; [discriminate H|]. cbn in *.
    destruct (Ascii.eqb d c); [now apply IH | discriminate].
Qed.

Lemma existsb_impl {A : Type} (f g : A -> bool) (l : list A) :
  (forall x, f x = true -> g x = true) ->
  existsb f l = true -> existsb g l = true.
Proof.
  intros Hfg H. apply existsb_exists in H. destruct H as (x & Hin & Hx).
  apply existsb_exists. exists x. auto.
Qed.

(** X9: [isSystemPath] is closed under extension: a path that
    starts as a system path is one, whatever is appended to it. *)
Theorem isSystemPath_extension (path rest : string)
        (Hsys : isSystemPath path = true) :
  isSystemPath (path ++ rest) = true.
Proof.
  unfold isSystemPath in *.
  rewrite normalizeWindowsPath_app, toLowerCase_app.
  set (n := Js.toLowerCase (normalizeWindowsPath path)) in *.
  set (m := Js.toLowerCase (normalizeWindowsPath rest)).
  match type of Hsys with
  | (if existsb ?f ?l then true else ?e) = true =>
      destruct (existsb f l) eqn:Hw
  end.
  - erewrite existsb_impl; [reflexivity | | exact Hw].
    intros x Hx. now apply startsWith_app.
  - match goal with |- (if ?b then true else _) = true => destruct b end;
      [reflexivity|].
    match type of Hsys with
    | (if existsb ?f ?l then true else false) = true =>
        destruct (existsb f l) eqn:Hu; [|discriminate]
    end.
    erewrite existsb_impl; [reflexivity | | exact Hu].
    intros x Hx. cbv beta in *. apply orb_true_iff in Hx.
    destruct Hx as [Hx|Hx].
    + now rewrite (startsWith_app _ _ _ Hx).
    + apply String.eqb_eq in Hx. subst x.
      now rewrite (startsWith_app n m n (startsWith_refl n)).
Qed.

Lemma isSystemPath_extension_witness :
  isSystemPath "/usr" = true
  /\ isSystemPath ("/usr" ++ "-projects/tools") = true.
Proof.
  split; [reflexivity|].
  exact (isSystemPath_extension "/usr" "-projects/tools" eq_refl).
Defined.

(** X10: [isSystemPath] does not depend on the case of the letters
    nor on the kind of the separators of its argument. *)
Theorem isSystemPath_by_key (path : string) :
  isSystemPath (Js.toLowerCase path) = isSystemPath path
  /\ isSystemPath (normalizeWindowsPath path) = isSystemPath path.
Proof.
  unfold isSystemPath. fold (pathKey (Js.toLowerCase path)).
  fold (pathKey (normalizeWindowsPath path)). fold (pathKey path).
  now rewrite pathKey_lower, pathKey_normalize.
Qed.

(** *** [deduplicateByPath] *)

Lemma NoDup_app_disj {A : Type} (l l' : list A) (a : A) :
  NoDup (l ++ l') -> In a l -> In a l' -> False.
Proof.
  induction l as [|x l IH]; intros Hnd Hl Hl'; [destruct Hl|].
  cbn in Hnd. inversion Hnd as [|? ? Hni Hnd']. subst.
  destruct Hl as [->|Hl]; [|now apply IH].
  apply Hni. apply in_or_app. now right.
Qed.

Lemma seenHas_In (key : string) (seen : list (string * RepoScanResult)) :
  seenHas key seen = true <-> In key (map fst seen).
Proof.
  unfold seenHas. rewrite existsb_exists, in_map_iff. split.
  - intros (kv & Hin & He). apply String.eqb_eq in He. now exists kv.
  - intros (kv & He & Hin). exists kv. split; [exact Hin|].
    now apply String.eqb_eq.
Qed.

(** The loop only appends to [seen]; what it appends are input results
    under their keys, the keys stay distinct, every input key ends up
    present, and the result kept for a key is the first input result of
    that key. *)
Lemma dedupLoop_spec (results : list RepoScanResult) :
  forall seen,
    NoDup (map fst seen) ->
    exists new,
      dedupLoop results seen = seen ++ new
      /\ NoDup (map fst (seen ++ new))
      /\ Forall (fun kv =>
                   find (fun r => String.eqb (pathKey (sr_path r)) (fst kv))
                        results = Some (snd kv)) new
      /\ (forall r, In r results ->
                    In (pathKey (sr_path r)) (map fst (seen ++ new))).
Proof.
  induction results as [|r rest IH]; intros seen Hnd.
  - exists []. rewrite app_nil_r. repeat split; auto. intros r [].
  - cbn [dedupLoop]. cbv zeta.
    destruct (seenHas (pathKey (sr_path r)) seen) eqn:Hs; cbn [negb].
    + apply seenHas_In in Hs.
      destruct (IH seen Hnd) as (new & He & Hnd' & Hfirst & Hall).
      exists new. repeat split; auto.
      * rewrite Forall_forall in *. intros kv Hin. cbn [find].
        destruct (String.eqb_spec (pathKey (sr_path r)) (fst kv)) as [E|E];
          [|now apply Hfirst].
        exfalso. rewrite map_app in Hnd'.
        apply (NoDup_app_disj _ _ (fst kv) Hnd');
          [now rewrite <- E | now apply in_map].
      * intros x [<-|Hx]; [|now apply Hall].
        rewrite map_app. apply in_or_app. now left.
    + assert (Hn : ~ In (pathKey (sr_path r)) (map fst seen)).
      { intros Hin. apply seenHas_In in Hin. congruence. }
      destruct (IH (seen ++ [(pathKey (sr_path r), r)])) as
          (new & He & Hnd' & Hfirst & Hall).
      { rewrite map_app. cbn. apply NoDup_app; [exact Hnd | | ].
        - repeat constructor. intros [].
        - intros k Hk [<-|[]]. now apply Hn. }
      rewrite <- app_assoc in He, Hnd', Hall. cbn [app] in He, Hnd', Hall.
      exists ((pathKey (sr_path r), r) :: new). repeat split; auto.
      * constructor.
        -- cbn [find fst snd]. now rewrite String.eqb_refl.
        -- rewrite Forall_forall in *. intros kv Hin. cbn [find].
           destruct (String.eqb_spec (pathKey (sr_path r)) (fst kv))
             as [E|E]; [|now apply Hfirst].
           exfalso. rewrite map_app in Hnd'.
           apply NoDup_app_remove_l in Hnd'. cbn in Hnd'.
           inversion Hnd' as [|? ? Hni _]. apply Hni. rewrite E.
           now apply in_map.
      * intros x [<-|Hx]; [|now apply Hall].
        rewrite map_app. apply in_or_app. right. now left.
Qed.

End KeyProps.

(** ** The deduplication of scan results, whatever the case folding *)

Module DedupProps.
Import Scan ScannerResults KeyProps.

Section Fold.

Variable toLowerCase : string -> string.

(** The loop only appends to [seen]; what it appends are input results
    under their keys, the keys stay distinct, every input key ends up
    present, and the result kept for a key is the first input result of
    that key. *)
Lemma foldLoop_spec (results : list RepoScanResult) :
  forall seen,
    NoDup (map fst seen) ->
    exists new,
      ScannerFold.dedupLoop toLowerCase results seen = seen ++ new
      /\ NoDup (map fst (seen ++ new))
      /\ Forall (fun kv =>
                   find (fun r => String.eqb (ScannerFold.pathKey toLowerCase (sr_path r)) (fst kv))
                        results = Some (snd kv)) new
      /\ (forall r, In r results ->
                    In (ScannerFold.pathKey toLowerCase (sr_path r)) (map fst (seen ++ new))).
Proof.
  induction results as [|r rest IH]; intros seen Hnd.
  - exists []. rewrite app_nil_r. repeat split; auto. intros r [].
  - cbn [ScannerFold.dedupLoop]. cbv zeta.
    destruct (seenHas (ScannerFold.pathKey toLowerCase (sr_path r)) seen) eqn:Hs; cbn [negb].
    + apply seenHas_In in Hs.
      destruct (IH seen Hnd) as (new & He & Hnd' & Hfirst & Hall).
      exists new. repeat split; auto.
      * rewrite Forall_forall in *. intros kv Hin. cbn [find].
        destruct (String.eqb_spec (ScannerFold.pathKey toLowerCase (sr_path r)) (fst kv)) as [E|E];
          [|now apply Hfirst].
        exfalso. rewrite map_app in Hnd'.
        apply (NoDup_app_disj _ _ (fst kv) Hnd');
          [now rewrite <- E | now apply in_map].
      * intros x [<-|Hx]; [|now apply Hall].
        rewrite map_app. apply in_or_app. now left.
    + assert (Hn : ~ In (ScannerFold.pathKey toLowerCase (sr_path r)) (map fst seen)).
      { intros Hin. apply seenHas_In in Hin. congruence. }
      destruct (IH (seen ++ [(ScannerFold.pathKey toLowerCase (sr_path r), r)])) as
          (new & He & Hnd' & Hfirst & Hall).
      { rewrite map_app. cbn. apply NoDup_app; [exact Hnd | | ].
        - repeat constructor. intros [].
        - intros k Hk [<-|[]]. now apply Hn. }
      rewrite <- app_assoc in He, Hnd', Hall. cbn [app] in He, Hnd', Hall.
      exists ((ScannerFold.pathKey toLowerCase (sr_path r), r) :: new). repeat split; auto.
      * constructor.
        -- cbn [find fst snd]. now rewrite String.eqb_refl.
        -- rewrite Forall_forall in *. intros kv Hin. cbn [find].
           destruct (String.eqb_spec (ScannerFold.pathKey toLowerCase (sr_path r)) (fst kv))
             as [E|E]; [|now apply Hfirst].
           exfalso. rewrite map_app in Hnd'.
           apply NoDup_app_remove_l in Hnd'. cbn in Hnd'.
           inversion Hnd' as [|? ? Hni _]. apply Hni. rewrite E.
           now apply in_map.
      * intros x [<-|Hx]; [|now apply Hall].
        rewrite map_app. apply in_or_app. right. now left.
Qed.

(** On results whose keys are distinct and not yet seen, the loop keeps
    every result. *)
Lemma foldLoop_distinct (results : list RepoScanResult) :
  forall seen,
    NoDup (ScannerFold.resultKeys toLowerCase results) ->
    (forall k, In k (ScannerFold.resultKeys toLowerCase results) ->
               ~ In k (map fst seen)) ->
    ScannerFold.dedupLoop toLowerCase results seen
    = seen ++ map (fun r => (ScannerFold.pathKey toLowerCase (sr_path r), r)) results.
Proof.
  induction results as [|r rest IH]; intros seen Hnd Hdis.
  - cbn. now rewrite app_nil_r.
  - cbn [ScannerFold.dedupLoop]. cbv zeta.
    cbn [ScannerFold.resultKeys map] in Hnd, Hdis.
    inversion Hnd as [|? ? Hni Hnd']. subst.
    destruct (seenHas (ScannerFold.pathKey toLowerCase (sr_path r)) seen) eqn:Hs.
    + apply seenHas_In in Hs. exfalso. apply (Hdis _ (or_introl eq_refl) Hs).
    + cbn [negb]. rewrite IH; [now rewrite <- app_assoc | exact Hnd' |].
      intros k Hk Hin. rewrite map_app in Hin. apply in_app_or in Hin.
      destruct Hin as [Hin|[<-|[]]].
      * apply (Hdis k); [now right | exact Hin].
      * now apply Hni.
Qed.

(** X11: whatever [toLowerCase] does, the results kept by
    [deduplicateByPath] have pairwise different keys, the key of every
    input result is among them, each result kept is the first input
    result of its key, and deduplicating again changes nothing. *)
Theorem deduplicateByPath_first_of_each_key
        (results : list RepoScanResult) :
  let kept := ScannerFold.deduplicateByPath toLowerCase results in
  NoDup (ScannerFold.resultKeys toLowerCase kept)
  /\ (forall r, In r results ->
                In (ScannerFold.pathKey toLowerCase (sr_path r))
                   (ScannerFold.resultKeys toLowerCase kept))
  /\ Forall (fun k =>
               find (fun r => String.eqb (ScannerFold.pathKey toLowerCase (sr_path r))
                                         (ScannerFold.pathKey toLowerCase (sr_path k)))
                    results = Some k) kept
  /\ ScannerFold.deduplicateByPath toLowerCase kept = kept.
Proof.
  cbv zeta. unfold ScannerFold.deduplicateByPath.
  destruct (foldLoop_spec results [] (NoDup_nil _))
    as (new & He & Hnd & Hfirst & Hall).
  cbn [app] in He, Hnd, Hall. rewrite He.
  assert (Hkeys : map fst new
                  = ScannerFold.resultKeys toLowerCase (map snd new)).
  { unfold ScannerFold.resultKeys. rewrite map_map. apply map_ext_in.
    intros kv Hin.
    rewrite Forall_forall in Hfirst. specialize (Hfirst kv Hin).
    apply find_some in Hfirst. destruct Hfirst as [_ E].
    apply String.eqb_eq in E. now symmetry. }
  rewrite <- Hkeys. repeat split; auto.
  - rewrite Forall_forall in *. intros k Hin. apply in_map_iff in Hin.
    destruct Hin as (kv & <- & Hin). specialize (Hfirst kv Hin).
    pose proof (find_some _ _ Hfirst) as [_ E]. apply String.eqb_eq in E.
    now rewrite E.
  - rewrite foldLoop_distinct.
    + cbn [app]. rewrite map_map. cbn [snd]. now rewrite map_id.
    + now rewrite <- Hkeys.
    + intros k _ [].
Qed.

End Fold.

(** [ScannerResults.deduplicateByPath] is the function at the ASCII
    folding. *)
Lemma deduplicateByPath_ascii (results : list RepoScanResult) :
  ScannerResults.deduplicateByPath results
  = ScannerFold.deduplicateByPath Js.toLowerCase results.
Proof. reflexivity. Qed.

End DedupProps.

(** ** The upsert of scan results, counted *)

Module ScanCountProps.
Import Store Scan ScannerResults StoreProps ScanProps KeyProps.

Lemma knownKey_In (t : Table) (k : string) :
  knownKey t k = true <-> In k (rowKeys t).
Proof.
  unfold knownKey. rewrite existsb_exists. split.
  - intros (x & Hin & He). apply String.eqb_eq in He. now subst.
  - intros Hin. exists k. split; [exact Hin | apply String.eqb_refl].
Qed.

(** The lookup in the path map finds an id exactly for the keys of the
    rows. *)
Lemma mapGet_known (t : Table) (key : string) :
  if knownKey t key
  then exists i, mapGet key (existingPathMap t) = Some i /\ In i (map id t)
  else mapGet key (existingPathMap t) = None.
Proof.
  destruct (knownKey t key) eqn:Hk.
  - destruct (mapGet key (existingPathMap t)) as [i|] eqn:Hg.
    + exists i. split; [reflexivity | now apply (mapGet_In key)].
    + exfalso. unfold mapGet in Hg.
      destruct (find _ _) as [kv|] eqn:Hf; [discriminate|].
      apply knownKey_In in Hk. unfold rowKeys in Hk.
      apply in_map_iff in Hk. destruct Hk as (r & Hr & Hin).
      pose proof (find_none _ _ Hf (key, id r)) as Hn.
      cbn [fst] in Hn. rewrite String.eqb_refl in Hn.
      assert (false = true); [|discriminate]. symmetry. apply Hn.
      apply -> in_rev. unfold existingPathMap. apply in_map_iff.
      exists r. split; [|exact Hin]. now rewrite <- Hr.
  - unfold mapGet. destruct (find _ _) as [kv|] eqn:Hf; [|reflexivity].
    exfalso. apply find_some in Hf. destruct Hf as [Hin He].
    apply in_rev in Hin. apply String.eqb_eq in He.
    unfold existingPathMap in Hin. apply in_map_iff in Hin.
    destruct Hin as (r & Hr & Hin). subst kv. cbn [fst] in He.
    assert (knownKey t key = true); [|congruence].
    apply knownKey_In. unfold rowKeys. apply in_map_iff.
    exists r. split; [exact He | exact Hin].
Qed.

Lemma freshKeys_snoc (t : Table) (done : list RepoScanResult)
      (res : RepoScanResult) :
  freshKeys t (done ++ [res])
  = freshKeys t done
    ++ (if knownKey t (pathKey (sr_path res)) then []
        else [pathKey (sr_path res)]).
Proof.
  unfold freshKeys, resultKeys. rewrite map_app, filter_app. cbn.
  now destruct (knownKey t _).
Qed.

Lemma nextId_positive (t : Table) : (0 < nextId t)%Z.
Proof.
  unfold nextId. destruct (fold_max_ge t 0%Z) as [H _]. lia.
Qed.

Lemma upsertOne_counted (t cur : Table) (done : list RepoScanResult)
      (c : Counters) (res : RepoScanResult) :
  Forall (fun r => (0 < id r)%Z) t ->
  scanInv t done cur c ->
  exists cur' c',
    upsertOne (existingPathMap t) res (cur, c) = Ok (cur', c')
    /\ scanInv t (done ++ [res]) cur' c'.
Proof.
  intros Hpos (Hinv & Hids & Hp & Hkeys & Hnew & Hsum). unfold upsertOne.
  set (mk := fun i' => mkRepository i' _ _ _ _ _ _ _ _).
  fold (pathKey (sr_path res)).
  pose proof (mapGet_known t (pathKey (sr_path res))) as Hget.
  assert (Hlen : length (done ++ [res]) = S (length done)).
  { rewrite length_app. cbn. lia. }
  pose proof (freshKeys_snoc t done res) as Hsnoc.
  unfold scanInv. rewrite Hlen, Hsnoc. clear Hlen Hsnoc.
  destruct (knownKey t (pathKey (sr_path res))) eqn:Hk.
  - destruct Hget as (i & -> & Hi).
    assert (Hi0 : negb (Z.eqb i 0) = true).
    { apply in_map_iff in Hi. destruct Hi as (r & <- & Hr).
      rewrite Forall_forall in Hpos. specialize (Hpos r Hr).
      apply negb_true_iff, Z.eqb_neq. lia. }
    rewrite Hi0. destruct (findUnique_In i cur (Hids _ Hi)) as [e He].
    rewrite He, (update_Ok _ _ _ (Hids _ Hi)).
    set (g := fun r => if Z.eqb (id r) i then refresh (Some e) res r else r).
    assert (Hg : forall r, id (g r) = id r
                           /\ originalPath (g r) = originalPath r).
    { intros r. unfold g. destruct (Z.eqb (id r) i); [|now split].
      split; apply refresh_fields. }
    eexists _, _. split; [reflexivity|].
    split; [now apply loopInv_update|]. split; [|split; [|split; [|split]]].
    + intros j Hj. rewrite map_map.
      erewrite map_ext; [now apply Hids | intros r; apply Hg].
    + rewrite Forall_forall in *. intros r Hr. apply in_map_iff in Hr.
      destruct Hr as (r0 & <- & Hr0). rewrite (proj1 (Hg r0)). now apply Hp.
    + rewrite app_nil_r, <- Hkeys. unfold rowKeys. rewrite map_map.
      apply map_ext. intros r. now rewrite (proj2 (Hg r)).
    + cbn. now rewrite app_nil_r.
    + cbn. lia.
  - rewrite Hget. eexists _, _. split; [reflexivity|].
    split; [apply loopInv_create; [reflexivity | exact Hinv]|].
    unfold create. split; [|split; [|split; [|split]]].
    + intros j Hj. rewrite map_app. apply in_or_app. left. now apply Hids.
    + apply Forall_app. split; [exact Hp|]. constructor; [|constructor].
      apply nextId_positive.
    + unfold rowKeys in *. rewrite map_app, Hkeys, <- app_assoc.
      subst mk. cbn [map app originalPath].
      now rewrite pathKey_normalize.
    + cbn. rewrite length_app. cbn. lia.
    + cbn. lia.
Qed.

Lemma upsertLoop_counted (t : Table) (results : list RepoScanResult) :
  Forall (fun r => (0 < id r)%Z) t ->
  forall done cur c,
    scanInv t done cur c ->
    exists cur' c',
      upsertLoop (existingPathMap t) results (cur, c) = Ok (cur', c')
      /\ scanInv t (done ++ results) cur' c'.
Proof.
  intros Hpos. induction results as [|res results IH]; intros done cur c Hinv;
    cbn [upsertLoop].
  - exists cur, c. now rewrite app_nil_r.
  - destruct (upsertOne_counted t cur done c res Hpos Hinv)
      as (cur1 & c1 & -> & Hinv1).
    destruct (IH _ _ _ Hinv1) as (cur2 & c2 & He & Hinv2).
    exists cur2, c2. split; [exact He|].
    now rewrite <- app_assoc in Hinv2.
Qed.

(** With unique positive ids the upsert goes through, and its outcome is
    the state described by [scanInv] for all the results. *)
Lemma persistScanResults_counted (results : list RepoScanResult)
      (t : Table) :
  NoDup (map id t) ->
  Forall (fun r => (0 < id r)%Z) t ->
  exists t' c,
    persistScanResults results t = Ok (t', c)
    /\ scanInv t results t' c.
Proof.
  intros Hnd Hpos. unfold persistScanResults.
  apply (upsertLoop_counted t results Hpos [] t (mkCounters 0 0)).
  unfold scanInv. split; [now apply loopInv_start|].
  split; [auto|]. split; [exact Hpos|]. cbn. now rewrite app_nil_r.
Qed.

Lemma rowKeys_length (t : Table) : length (rowKeys t) = length t.
Proof. unfold rowKeys. apply length_map. Qed.

(** X13: when the keys of the rows are pairwise different, they
    still are after the upsert of deduplicated scan results. *)
Theorem persistScanResults_unique_keys (found : list RepoScanResult)
        (t : Table)
        (Hunique : NoDup (map id t))
        (Hpositive : Forall (fun r => (0 < id r)%Z) t)
        (Hkeys : NoDup (rowKeys t)) :
  exists t' c,
    persistScanResults (deduplicateByPath found) t = Ok (t', c)
    /\ NoDup (rowKeys t').
Proof.
  destruct (persistScanResults_counted (deduplicateByPath found) t
              Hunique Hpositive)
    as (t' & c & He & _ & _ & _ & Hk & _).
  exists t', c. split; [exact He|]. rewrite Hk.
  apply NoDup_app; [exact Hkeys | |].
  - unfold freshKeys. apply NoDup_filter.
    pose proof (dedupLoop_spec found [] (NoDup_nil _))
      as (new & Hd & Hnd & Hfirst & _).
    cbn [app] in Hd, Hnd. unfold deduplicateByPath. rewrite Hd.
    replace (resultKeys (map snd new)) with (map fst new); [exact Hnd|].
    unfold resultKeys. rewrite map_map. apply map_ext_in. intros kv Hin.
    rewrite Forall_forall in Hfirst. specialize (Hfirst kv Hin).
    apply find_some in Hfirst. destruct Hfirst as [_ E].
    apply String.eqb_eq in E. now symmetry.
  - intros k Hk1 Hk2. unfold freshKeys in Hk2. apply filter_In in Hk2.
    destruct Hk2 as [_ Hk2]. apply knownKey_In in Hk1.
    rewrite Hk1 in Hk2. discriminate.
Qed.

Lemma persistScanResults_unique_keys_witness :
  exists t' c,
    persistScanResults
      (deduplicateByPath [rescanSite; rescanTool; rescanSite]) [classified]
    = Ok (t', c)
    /\ NoDup (rowKeys t').
Proof.
  apply (persistScanResults_unique_keys
           [rescanSite; rescanTool; rescanSite] [classified]).
  - repeat constructor. intros [].
  - repeat constructor.
  - repeat constructor. intros [].
Defined.

(** X14: the upsert of the same results a second time creates no
    row: every result is counted as an update, and the ids and the
    original paths of the rows are unchanged. *)
Theorem persistScanResults_again (results : list RepoScanResult)
        (t t1 : Table) (c1 : Counters)
        (Hunique : NoDup (map id t))
        (Hpositive : Forall (fun r => (0 < id r)%Z) t)
        (Hfirst : persistScanResults results t = Ok (t1, c1)) :
  exists t2 c2,
    persistScanResults results t1 = Ok (t2, c2)
    /\ newRepos c2 = 0
    /\ updatedRepos c2 = length results
    /\ map id t2 = map id t1
    /\ map originalPath t2 = map originalPath t1.
Proof.
  destruct (persistScanResults_counted results t Hunique Hpositive)
    as (t' & c & He & (Hnd1 & _) & _ & Hpos1 & Hkeys1 & _).
  rewrite Hfirst in He. injection He as <- <-.
  destruct (persistScanResults_counted results t1 Hnd1 Hpos1)
    as (t2 & c2 & He2 & (_ & kept & created & Hsplit & Hkept) & _ & _
        & Hkeys2 & Hnew & Hsum).
  assert (Hnone : freshKeys t1 results = []).
  { unfold freshKeys.
    assert (Hall : forall l, incl l (resultKeys results) ->
                             filter (fun k => negb (knownKey t1 k)) l = []).
    { induction l as [|k l IH]; intros Hl; [reflexivity|]. cbn.
      assert (Hk : knownKey t1 k = true).
      { apply knownKey_In. rewrite Hkeys1. apply in_or_app.
        destruct (knownKey t k) eqn:Hkt;
          [left; now apply knownKey_In|].
        right. unfold freshKeys. apply filter_In.
        split; [apply Hl; now left | now rewrite Hkt]. }
      rewrite Hk. cbn. apply IH. intros x Hx. apply Hl. now right. }
    apply Hall, incl_refl. }
  rewrite Hnone in *. cbn [length] in *. rewrite app_nil_r in Hkeys2.
  assert (Hc : created = []).
  { apply (f_equal (@length _)) in Hkeys2.
    rewrite !rowKeys_length, Hsplit, length_app in Hkeys2.
    pose proof (Forall2_length Hkept) as Hl.
    destruct created; [reflexivity | cbn in Hkeys2; lia]. }
  subst created. rewrite app_nil_r in Hsplit. subst kept.
  exists t2, c2. split; [exact He2|]. repeat split; try lia.
  - now apply keeps_ids.
  - clear -Hkept. induction Hkept as [|r r' l l' Hk _ IH]; cbn;
      [reflexivity|].
    destruct Hk as (_ & _ & -> & _). now rewrite IH.
Qed.

Lemma persistScanResults_again_witness :
  exists t2 c2,
    persistScanResults [rescanSite; rescanTool]
      [ classified;
        mkRepository 9 "tool" None "c:/SRC/Tool" None (Some "python")
                     Pending (Some "abc123") true ]
    = Ok (t2, c2)
    /\ newRepos c2 = 0
    /\ updatedRepos c2 = 2
    /\ map id t2 = [8%Z; 9%Z]
    /\ map originalPath t2 = ["C:/src/site"; "c:/SRC/Tool"].
Proof.
  refine (persistScanResults_again [rescanSite; rescanTool] [classified]
            _ (mkCounters 1 1) _ _ eq_refl).
  - repeat constructor. intros [].
  - repeat constructor.
Defined.

End ScanCountProps.

(** ** The upsert of scan results, counted, whatever the case folding *)

Module ScanFoldProps.
Import Store Scan ScannerResults StoreProps ScanProps PathMoreProps
       ScanCountProps.

Section Fold.

Variable toLowerCase : string -> string.

Lemma fold_knownKey_In (t : Table) (k : string) :
  ScanFold.knownKey toLowerCase t k = true
  <-> In k (ScanFold.rowKeys toLowerCase t).
Proof.
  unfold ScanFold.knownKey. rewrite existsb_exists. split.
  - intros (x & Hin & He). apply String.eqb_eq in He. now subst.
  - intros Hin. exists k. split; [exact Hin | apply String.eqb_refl].
Qed.

Lemma fold_mapGet_In (key : string) (t : Table) (i : Z) :
  mapGet key (ScanFold.existingPathMap toLowerCase t) = Some i ->
  In i (map id t).
Proof.
  unfold mapGet.
  destruct (find _ (rev (ScanFold.existingPathMap toLowerCase t)))
    as [kv|] eqn:Hf; [|discriminate].
  intros Hi. injection Hi as <-.
  apply find_some in Hf. destruct Hf as [Hin _].
  apply in_rev in Hin. unfold ScanFold.existingPathMap in Hin.
  apply in_map_iff in Hin. destruct Hin as [r [<- Hr]].
  simpl. now apply in_map.
Qed.

(** The lookup in the path map finds an id exactly for the keys of the
    rows. *)
Lemma fold_mapGet_known (t : Table) (key : string) :
  if ScanFold.knownKey toLowerCase t key
  then exists i,
         mapGet key (ScanFold.existingPathMap toLowerCase t) = Some i
         /\ In i (map id t)
  else mapGet key (ScanFold.existingPathMap toLowerCase t) = None.
Proof.
  destruct (ScanFold.knownKey toLowerCase t key) eqn:Hk.
  - destruct (mapGet key (ScanFold.existingPathMap toLowerCase t))
      as [i|] eqn:Hg.
    + exists i. split; [reflexivity | now apply (fold_mapGet_In key)].
    + exfalso. unfold mapGet in Hg.
      destruct (find _ _) as [kv|] eqn:Hf; [discriminate|].
      apply fold_knownKey_In in Hk. unfold ScanFold.rowKeys in Hk.
      apply in_map_iff in Hk. destruct Hk as (r & Hr & Hin).
      pose proof (find_none _ _ Hf (key, id r)) as Hn.
      cbn [fst] in Hn. rewrite String.eqb_refl in Hn.
      assert (false = true); [|discriminate]. symmetry. apply Hn.
      apply -> in_rev. unfold ScanFold.existingPathMap. apply in_map_iff.
      exists r. split; [|exact Hin]. now rewrite <- Hr.
  - unfold mapGet. destruct (find _ _) as [kv|] eqn:Hf; [|reflexivity].
    exfalso. apply find_some in Hf. destruct Hf as [Hin He].
    apply in_rev in Hin. apply String.eqb_eq in He.
    unfold ScanFold.existingPathMap in Hin. apply in_map_iff in Hin.
    destruct Hin as (r & Hr & Hin). subst kv. cbn [fst] in He.
    assert (ScanFold.knownKey toLowerCase t key = true); [|congruence].
    apply fold_knownKey_In. unfold ScanFold.rowKeys. apply in_map_iff.
    exists r. split; [exact He | exact Hin].
Qed.

Lemma fold_freshKeys_snoc (t : Table) (done : list RepoScanResult)
      (res : RepoScanResult) :
  ScanFold.freshKeys toLowerCase t (done ++ [res])
  = ScanFold.freshKeys toLowerCase t done
    ++ (if ScanFold.knownKey toLowerCase t
             (ScannerFold.pathKey toLowerCase (sr_path res))
        then []
        else [ScannerFold.pathKey toLowerCase (sr_path res)]).
Proof.
  unfold ScanFold.freshKeys, ScannerFold.resultKeys.
  rewrite map_app, filter_app. cbn.
  now destruct (ScanFold.knownKey toLowerCase t _).
Qed.

Lemma fold_upsertOne_counted (t cur : Table) (done : list RepoScanResult)
      (c : Counters) (res : RepoScanResult) :
  Forall (fun r => (0 < id r)%Z) t ->
  ScanFold.scanInv toLowerCase t done cur c ->
  exists cur' c',
    ScanFold.upsertOne toLowerCase (ScanFold.existingPathMap toLowerCase t)
                       res (cur, c)
    = Ok (cur', c')
    /\ ScanFold.scanInv toLowerCase t (done ++ [res]) cur' c'.
Proof.
  intros Hpos (Hinv & Hids & Hp & Hkeys & Hnew & Hsum).
  unfold ScanFold.upsertOne.
  set (mk := fun i' => mkRepository i' _ _ _ _ _ _ _ _).
  fold (ScannerFold.pathKey toLowerCase (sr_path res)).
  pose proof (fold_mapGet_known t
                (ScannerFold.pathKey toLowerCase (sr_path res))) as Hget.
  assert (Hlen : length (done ++ [res]) = S (length done)).
  { rewrite length_app. cbn. lia. }
  pose proof (fold_freshKeys_snoc t done res) as Hsnoc.
  unfold ScanFold.scanInv. rewrite Hlen, Hsnoc. clear Hlen Hsnoc.
  destruct (ScanFold.knownKey toLowerCase t
              (ScannerFold.pathKey toLowerCase (sr_path res))) eqn:Hk.
  - destruct Hget as (i & -> & Hi).
    assert (Hi0 : negb (Z.eqb i 0) = true).
    { apply in_map_iff in Hi. destruct Hi as (r & <- & Hr).
      rewrite Forall_forall in Hpos. specialize (Hpos r Hr).
      apply negb_true_iff, Z.eqb_neq. lia. }
    rewrite Hi0. destruct (findUnique_In i cur (Hids _ Hi)) as [e He].
    rewrite He, (update_Ok _ _ _ (Hids _ Hi)).
    set (g := fun r => if Z.eqb (id r) i then refresh (Some e) res r else r).
    assert (Hg : forall r, id (g r) = id r
                           /\ originalPath (g r) = originalPath r).
    { intros r. unfold g. destruct (Z.eqb (id r) i); [|now split].
      split; apply refresh_fields. }
    eexists _, _. split; [reflexivity|].
    split; [now apply loopInv_update|]. split; [|split; [|split; [|split]]].
    + intros j Hj. rewrite map_map.
      erewrite map_ext; [now apply Hids | intros r; apply Hg].
    + rewrite Forall_forall in *. intros r Hr. apply in_map_iff in Hr.
      destruct Hr as (r0 & <- & Hr0). rewrite (proj1 (Hg r0)). now apply Hp.
    + rewrite app_nil_r, <- Hkeys. unfold ScanFold.rowKeys. rewrite map_map.
      apply map_ext. intros r. now rewrite (proj2 (Hg r)).
    + cbn. now rewrite app_nil_r.
    + cbn. lia.
  - rewrite Hget. eexists _, _. split; [reflexivity|].
    split; [apply loopInv_create; [reflexivity | exact Hinv]|].
    unfold create. split; [|split; [|split; [|split]]].
    + intros j Hj. rewrite map_app. apply in_or_app. left. now apply Hids.
    + apply Forall_app. split; [exact Hp|]. constructor; [|constructor].
      apply nextId_positive.
    + unfold ScanFold.rowKeys in *. rewrite map_app, Hkeys, <- app_assoc.
      subst mk. cbn [map app originalPath]. unfold ScannerFold.pathKey.
      now rewrite normalizeWindowsPath_idem.
    + cbn. rewrite length_app. cbn. lia.
    + cbn. lia.
Qed.

Lemma fold_upsertLoop_counted (t : Table) (results : list RepoScanResult) :
  Forall (fun r => (0 < id r)%Z) t ->
  forall done cur c,
    ScanFold.scanInv toLowerCase t done cur c ->
    exists cur' c',
      ScanFold.upsertLoop toLowerCase
        (ScanFold.existingPathMap toLowerCase t) results (cur, c)
      = Ok (cur', c')
      /\ ScanFold.scanInv toLowerCase t (done ++ results) cur' c'.
Proof.
  intros Hpos. induction results as [|res results IH]; intros done cur c Hinv;
    cbn [ScanFold.upsertLoop].
  - exists cur, c. now rewrite app_nil_r.
  - destruct (fold_upsertOne_counted t cur done c res Hpos Hinv)
      as (cur1 & c1 & -> & Hinv1).
    destruct (IH _ _ _ Hinv1) as (cur2 & c2 & He & Hinv2).
    exists cur2, c2. split; [exact He|].
    now rewrite <- app_assoc in Hinv2.
Qed.

Lemma fold_persistScanResults_counted (results : list RepoScanResult)
      (t : Table) :
  NoDup (map id t) ->
  Forall (fun r => (0 < id r)%Z) t ->
  exists t' c,
    ScanFold.persistScanResults toLowerCase results t = Ok (t', c)
    /\ ScanFold.scanInv toLowerCase t results t' c.
Proof.
  intros Hnd Hpos. unfold ScanFold.persistScanResults.
  apply (fold_upsertLoop_counted t results Hpos [] t (mkCounters 0 0)).
  unfold ScanFold.scanInv. split; [now apply loopInv_start|].
  split; [auto|]. split; [exact Hpos|]. cbn. now rewrite app_nil_r.
Qed.

(** X12: whatever [toLowerCase] does, on a table with unique positive ids
    the upsert of the scan results goes through; one row is created for
    each result whose key no row of the table has, in the order of the
    results, and appended to the table; [newRepos] counts these rows, and
    [newRepos] and [updatedRepos] add up to the number of results. *)
Theorem persistScanResults_counts (results : list RepoScanResult)
        (t : Table)
        (Hunique : NoDup (map id t))
        (Hpositive : Forall (fun r => (0 < id r)%Z) t) :
  exists t' c,
    ScanFold.persistScanResults toLowerCase results t = Ok (t', c)
    /\ ScanFold.rowKeys toLowerCase t'
       = ScanFold.rowKeys toLowerCase t
         ++ ScanFold.freshKeys toLowerCase t results
    /\ newRepos c = length (ScanFold.freshKeys toLowerCase t results)
    /\ newRepos c + updatedRepos c = length results
    /\ length t' = length t + newRepos c.
Proof.
  destruct (fold_persistScanResults_counted results t Hunique Hpositive)
    as (t' & c & He & _ & _ & _ & Hkeys & Hnew & Hsum).
  exists t', c. repeat split; auto.
  apply (f_equal (@length _)) in Hkeys.
  unfold ScanFold.rowKeys in Hkeys at 1 2.
  rewrite length_app, !length_map in Hkeys. lia.
Qed.

End Fold.

(** [Scan.persistScanResults] is the function at the ASCII folding. *)
Lemma persistScanResults_ascii (results : list RepoScanResult) (t : Table) :
  Scan.persistScanResults results t
  = ScanFold.persistScanResults Js.toLowerCase results t.
Proof. reflexivity. Qed.

Lemma persistScanResults_counts_witness :
  exists t' c,
    ScanFold.persistScanResults Js.toLowerCase [rescanSite; rescanTool]
                                [classified] = Ok (t', c)
    /\ ScanFold.rowKeys Js.toLowerCase t'
       = ScanFold.rowKeys Js.toLowerCase [classified]
         ++ ScanFold.freshKeys Js.toLowerCase [classified]
                               [rescanSite; rescanTool]
    /\ newRepos c
       = length (ScanFold.freshKeys Js.toLowerCase [classified]
                                    [rescanSite; rescanTool])
    /\ newRepos c + updatedRepos c = 2
    /\ length t' = 1 + newRepos c.
Proof.
  apply (persistScanResults_counts Js.toLowerCase
           [rescanSite; rescanTool] [classified]).
  - repeat constructor. intros [].
  - repeat constructor.
Defined.

End ScanFoldProps.

(** ** The theme classifier: range and text scoring *)

Module ClassifierProps.
Import Scanner ScannerProps.

Lemma In_insertDesc (x y : string * nat) (l : list (string * nat)) :
  y = x \/ In y l -> In y (insertDesc x l).
Proof.
  induction l as [|z l IH]; simpl.
  - intros [->|[]]. now left.
  - destruct (snd z <? snd x); simpl.
    + intros [->|[->|Hy]]; auto.
    + intros [->|[->|Hy]]; auto.
Qed.

Lemma In_sortDesc (y : string * nat) (l : list (string * nat)) :
  In y l -> In y (sortDesc l).
Proof.
  unfold sortDesc.
  assert (G : forall acc, In y acc \/ In y l ->
                          In y (fold_left (fun a x => insertDesc x a) l acc)).
  { induction l as [|x l IH]; simpl; intros acc [Hy|Hy]; auto;
      try contradiction; apply IH.
    - left. apply In_insertDesc. now right.
    - destruct Hy as [->|Hy]; [left; apply In_insertDesc; now left|].
      now right. }
  intros Hy. apply G. now right.
Qed.

(** The first entry of the sorted scores has the largest score. *)
Lemma insertDesc_head (x : string * nat) (l : list (string * nat)) :
  (forall h r, l = h :: r -> Forall (fun y => snd y <= snd h) l) ->
  forall h r, insertDesc x l = h :: r ->
              Forall (fun y => snd y <= snd h) (insertDesc x l).
Proof.
  intros Hl h r He. destruct l as [|z l]; simpl in *.
  - injection He as <- <-. repeat constructor.
  - specialize (Hl z l eq_refl).
    destruct (snd z <? snd x) eqn:Hlt.
    + injection He as <- <-. apply Nat.ltb_lt in Hlt.
      constructor; [lia|]. eapply Forall_impl; [|exact Hl].
      cbv beta. intros a Ha. lia.
    + injection He as <- <-. apply Nat.ltb_ge in Hlt.
      inversion Hl as [|? ? Hz Hrest]. subst.
      constructor; [lia|]. apply Forall_forall. intros a Ha.
      apply insertDesc_In in Ha. destruct Ha as [->|Ha]; [exact Hlt|].
      rewrite Forall_forall in Hrest. now apply Hrest.
Qed.

Lemma sortDesc_head (l : list (string * nat)) (h : string * nat)
      (r : list (string * nat)) :
  sortDesc l = h :: r -> Forall (fun y => snd y <= snd h) l.
Proof.
  unfold sortDesc.
  assert (G : forall acc,
             (forall h r, acc = h :: r ->
                          Forall (fun y => snd y <= snd h) acc) ->
             forall h r,
               fold_left (fun a x => insertDesc x a) l acc = h :: r ->
               Forall (fun y => snd y <= snd h)
                      (fold_left (fun a x => insertDesc x a) l acc)).
  { induction l as [|x l IH]; simpl; intros acc Hacc h0 r0 He;
      [now apply (Hacc h0 r0)|].
    apply (IH (insertDesc x acc)) with (r := r0); [|exact He].
    now apply insertDesc_head. }
  intros He. specialize (G [] (fun _ _ E => Forall_nil _) h r He).
  rewrite Forall_forall in *. intros y Hy. apply G.
  now apply (In_sortDesc y l).
Qed.

(** X15: [suggestTheme] returns one of the five themes "archived",
    "nextjs", "python", "experiments" and "unclassified". *)
Theorem suggestTheme_known_theme (input : ThemeSuggestionInput) :
  In (suggestTheme input)
     ["archived"; "nextjs"; "python"; "experiments"; "unclassified"].
Proof.
  unfold suggestTheme.
  repeat match goal with
         | |- In (if ?c then _ else _) _ =>
             destruct c; [cbn; tauto|]
         end.
  destruct (0 <? String.length (textContentOf input)); [|cbn; tauto].
  destruct (sortDesc _) as [|best rest] eqn:Hs; [cbn; tauto|].
  destruct (2 <=? snd best); [|cbn; tauto].
  assert (Hin : In best (best :: rest)) by now left.
  rewrite <- Hs in Hin. apply sortDesc_In, filter_In in Hin.
  destruct Hin as [Hin _]. apply in_map_iff in Hin.
  destruct Hin as (tk & <- & Htk). cbn [fst].
  apply (in_map fst) in Htk.
  change (map fst THEME_KEYWORDS)
    with ["nextjs"; "python"; "experiments"; "archived"] in Htk.
  cbn [In] in *. tauto.
Qed.

(** X16: on an input with text only (no package file, no file
    list, no URL), [suggestTheme] returns "unclassified" exactly when no
    archival keyword occurs in the text and every other theme has fewer
    than two of its keywords in it; a theme it returns other than
    "archived" and "unclassified" has at least two keywords in the text,
    and no theme has more. *)
Theorem suggestTheme_text_scoring (readme description : option string) :
  let input := mkInput None None None readme description in
  let text := textContentOf input in
  (suggestTheme input = "unclassified"
   <-> forall th kws, In (th, kws) THEME_KEYWORDS ->
                      score text kws < (if String.eqb th "archived"
                                        then 1 else 2))
  /\ (suggestTheme input <> "archived" ->
      suggestTheme input <> "unclassified" ->
      exists kws,
        In (suggestTheme input, kws) THEME_KEYWORDS
        /\ 2 <= score text kws
        /\ forall th' kws', In (th', kws') THEME_KEYWORDS ->
                            score text kws' <= score text kws).
Proof.
  cbv zeta. set (input := mkInput None None None readme description).
  set (text := textContentOf input).
  set (scores := map (fun tk => (fst tk, score text (snd tk)))
                     THEME_KEYWORDS).
  assert (Hscores : forall th kws, In (th, kws) THEME_KEYWORDS ->
                                   In (th, score text kws) scores).
  { intros th kws Hin. unfold scores. apply in_map_iff.
    now exists (th, kws). }
  assert (Hback : forall e, In e scores ->
                            exists kws, In (fst e, kws) THEME_KEYWORDS
                                        /\ snd e = score text kws).
  { intros e He. unfold scores in He. apply in_map_iff in He.
    destruct He as ([th kws] & <- & Hin). now exists kws. }
  assert (Hempty : String.length text = 0 ->
                   forall kws, score text kws = 0 \/ In EmptyString kws).
  { intros Hl kws. destruct text; [|discriminate Hl].
    unfold score. induction kws as [|k kws IH]; [now left|].
    destruct k as [|c k]; [right; now left|]. cbn.
    destruct IH as [IH|IH]; [now left | right; now right]. }
  unfold suggestTheme. fold input. fold text.
  change (urlIncludes (remoteUrl input) "archived") with false.
  change (urlIncludes (remoteUrl input) "deprecated") with false.
  change (hasDependency (packageJson input) "next") with false.
  change (hasDevDependency (packageJson input) "next") with false.
  change (hasDependency (packageJson input) "react") with false.
  change (hasDependency (packageJson input) "vue") with false.
  change (files input) with (@None (list string)).
  cbn [orb andb negb existsb].
  destruct (existsb _ archivedKeywords) eqn:Harch.
  { apply existsb_score in Harch. split.
    - split; [discriminate|]. intros H.
      specialize (H "archived" archivedKeywords).
      cbn [String.eqb] in H.
      assert (score text archivedKeywords < 1); [|lia].
      apply H. cbn. tauto.
    - intros H. now contradiction H. }
  assert (Harch0 : score text archivedKeywords = 0).
  { destruct (score text archivedKeywords) eqn:E; [reflexivity|].
    assert (existsb (fun kw => Js.includes text kw) archivedKeywords = true);
      [|congruence].
    apply existsb_score. lia. }
  fold scores.
  destruct (0 <? String.length text) eqn:Hlen.
  2:{ apply Nat.ltb_ge in Hlen.
      assert (Hz : forall th kws, In (th, kws) THEME_KEYWORDS ->
                                  score text kws = 0).
      { intros th kws Hin. destruct (Hempty ltac:(lia) kws) as [H|H];
          [exact H|].
        exfalso. cbn in Hin.
        destruct Hin as [E|[E|[E|[E|[]]]]]; injection E as <- <-;
          cbn in H; intuition discriminate. }
      split; [|intros _ H; now contradiction H].
      split; [|reflexivity]. intros _ th kws Hin.
      rewrite (Hz th kws Hin). destruct (String.eqb th "archived"); lia. }
  destruct (sortDesc (filter _ scores)) as [|best rest] eqn:Hs.
  { split; [|intros _ H; now contradiction H].
    split; [|reflexivity]. intros _ th kws Hin.
    destruct (score text kws) eqn:E;
      [destruct (String.eqb th "archived"); lia|].
    exfalso. assert (Hin' : In (th, score text kws)
                               (sortDesc (filter (fun e => 0 <? snd e) scores))).
    { apply In_sortDesc, filter_In. split; [now apply Hscores|].
      cbn [snd]. rewrite E. reflexivity. }
    rewrite Hs in Hin'. destruct Hin'. }
  pose proof (sortDesc_head _ _ _ Hs) as Hmax.
  assert (Hbest : In best (filter (fun e => 0 <? snd e) scores)).
  { apply sortDesc_In. rewrite Hs. now left. }
  apply filter_In in Hbest. destruct Hbest as [Hbest Hpos].
  apply Nat.ltb_lt in Hpos.
  destruct (Hback best Hbest) as (bk & Hbk & Hsc).
  assert (Hle : forall th kws, In (th, kws) THEME_KEYWORDS ->
                               score text kws <= snd best).
  { intros th kws Hin. destruct (score text kws) eqn:E; [lia|].
    rewrite Forall_forall in Hmax. rewrite <- E.
    apply (Hmax (th, score text kws)). apply filter_In.
    split; [now apply Hscores|]. cbn [snd]. rewrite E. reflexivity. }
  assert (Hna : fst best <> "archived").
  { intros E. pose proof (best_archived text best rest Hs E). lia. }
  destruct (2 <=? snd best) eqn:H2.
  - apply Nat.leb_le in H2. split.
    + split.
      * intros E. exfalso. cbn in Hbk.
        destruct Hbk as [B|[B|[B|[B|[]]]]]; injection B as B _;
          rewrite <- B in E; discriminate E.
      * intros H. exfalso. specialize (H (fst best) bk Hbk).
        apply String.eqb_neq in Hna. rewrite Hna in H. lia.
    + intros _ _. exists bk. split; [exact Hbk|]. split; [lia|].
      intros th' kws' Hin. rewrite <- Hsc. now apply (Hle th').
  - apply Nat.leb_gt in H2. split; [|intros _ H; now contradiction H].
    split; [|reflexivity]. intros _ th kws Hin.
    destruct (String.eqb_spec th "archived") as [->|Hne].
    + cbn in Hin.
      destruct Hin as [B|[B|[B|[B|[]]]]]; try discriminate B.
      injection B as <-. lia.
    + specialize (Hle th kws Hin). lia.
Qed.

End ClassifierProps.

(** ** The preview handed to the executor *)

Module PreviewProps.
Import Store Planner Executor ScannerResults StoreProps PathProps
       PathMoreProps KeyProps PlannerProps.

Lemma arrIncludes_In (l : list string) (x : string) :
  Js.arrIncludes l x = true <-> In x l.
Proof.
  unfold Js.arrIncludes. rewrite existsb_exists. split.
  - intros (y & Hin & He). apply String.eqb_eq in He. now subst.
  - intros Hin. exists x. split; [exact Hin | apply String.eqb_refl].
Qed.

Lemma setAdd_In (x y : string) (s : list string) :
  In y (setAdd x s) <-> y = x \/ In y s.
Proof.
  unfold setAdd. destruct (Js.arrIncludes s x) eqn:Hx.
  - apply arrIncludes_In in Hx. split; [now right|].
    intros [->|H]; assumption.
  - rewrite in_app_iff. cbn. intuition.
Qed.

Lemma collapseSeps_nonempty (s : string) :
  s <> EmptyString -> Path.collapseSeps s <> EmptyString.
Proof.
  induction s as [|c r IH]; intros Hs; [now contradiction Hs|].
  cbn [Path.collapseSeps]. destruct (Path.isSep c); [|discriminate].
  destruct r as [|d r']; [discriminate|].
  destruct (Path.isSep d); [|discriminate]. apply IH. discriminate.
Qed.

Lemma joinPaths_two_nonempty (a b : string) :
  Path.joinPaths [a; b] <> EmptyString.
Proof.
  unfold Path.joinPaths. apply collapseSeps_nonempty.
  cbn [Path.stripAllButLast Js.join].
  destruct (Path.stripTrailingSeps a); discriminate.
Qed.

Lemma candidateOf_nonempty (base : string) (k : nat) :
  Path.candidateOf base k <> EmptyString.
Proof. unfold Path.candidateOf. destruct base; discriminate. Qed.

(** A numbered candidate is on the drive of its base path. *)
Lemma getDriveLetter_candidateOf (base : string) (k : nat) :
  Path.getDriveLetter (Path.candidateOf base k) = Path.getDriveLetter base.
Proof.
  unfold Path.candidateOf, Path.getDriveLetter.
  destruct base as [|c [|d r]]; [|reflexivity..].
  cbn [append Path.normalizeWindowsPath].
  destruct (Path.normalizeWindowsPath (Js.showNat k)) as [|e t];
    [reflexivity|].
  destruct e as [[] [] [] [] [] [] [] []]; reflexivity.
Qed.

Lemma isSameDrive_candidateOf (src base : string) (k : nat) :
  Path.isSameDrive src (Path.candidateOf base k)
  = Path.isSameDrive src base.
Proof.
  unfold Path.isSameDrive. now rewrite getDriveLetter_candidateOf.
Qed.

Lemma isValidMove_true (e : MovePreview) :
  conflicts e = [] -> to e <> EmptyString -> isValidMove e = true.
Proof.
  intros Hc Ht. unfold isValidMove. rewrite Hc. cbn.
  now apply negb_true_iff, String.eqb_neq.
Qed.

(** The entry of a row without a theme: blocked, and nothing is
    reserved. *)
Lemma previewOne_unthemed (root : string) (repo : Repository)
      (ex : list string) :
  Js.truthyOpt (theme repo) = false ->
  exists e, previewOne root repo ex = Ok (e, ex) /\ isValidMove e = false.
Proof.
  intros Ht. unfold previewOne. rewrite Ht. cbn [negb].
  eexists. split; reflexivity.
Qed.

(** The entry of a row with a theme: executable, its target was not
    reserved and is reserved afterwards, and it carries the cross-drive
    warning exactly when source and target are not on one drive. *)
Lemma previewOne_themed (root : string) (repo : Repository)
      (ex ex' : list string) (e : MovePreview) :
  Js.truthyOpt (theme repo) = true ->
  previewOne root repo ex = Ok (e, ex') ->
  isValidMove e = true
  /\ ~ In (pathKey (to e)) ex
  /\ (forall x, In x ex' <-> x = pathKey (to e) \/ In x ex)
  /\ (In "Cross-drive move (will copy and delete)" (warnings e)
      <-> Path.isSameDrive (from e) (to e) = false).
Proof.
  intros Ht. unfold previewOne. rewrite Ht. cbn [negb]. cbv zeta.
  set (th := orElse (theme repo) EmptyString).
  set (target := Path.joinPaths [Path.joinPaths [root; th]; name repo]).
  set (source := orElse (physicalPath repo) (originalPath repo)).
  set (w1 := if isDirty repo then ["Repository has uncommitted changes"]
             else []).
  fold (pathKey target).
  assert (Hw1 : ~ In "Cross-drive move (will copy and delete)" w1).
  { unfold w1. destruct (isDirty repo); cbn; [|tauto].
    intros [E|[]]. discriminate E. }
  assert (Hw2 : In "Cross-drive move (will copy and delete)"
                   (if negb (Path.isSameDrive source target)
                    then w1 ++ ["Cross-drive move (will copy and delete)"]
                    else w1)
                <-> Path.isSameDrive source target = false).
  { destruct (Path.isSameDrive source target); cbn [negb].
    - split; [intros Hin; now apply Hw1 in Hin | discriminate].
    - split; [reflexivity|]. intros _. apply in_or_app. right. now left. }
  destruct (Js.arrIncludes ex (pathKey target)) eqn:Hinc.
  - destruct (Path.generateConflictFreePath target ex) as [p|m] eqn:Hg;
      [|discriminate].
    intros He. injection He as <- <-. cbn [to from warnings conflicts].
    fold (pathKey p).
    destruct (generateConflictFreePath_Ok _ _ _ Hg) as [Hfree Hp].
    split; [|split; [|split]].
    + apply isValidMove_true; [reflexivity|]. cbn [to].
      destruct Hp as [->|(k & _ & ->)];
        [apply joinPaths_two_nonempty | apply candidateOf_nonempty].
    + intros Hin. unfold Path.taken in Hfree. fold (pathKey p) in Hfree.
      assert (Js.arrIncludes (map (fun q => Js.toLowerCase
                                     (Path.normalizeWindowsPath q)) ex)
                             (pathKey p) = true); [|congruence].
      apply arrIncludes_In. apply in_map_iff. exists (pathKey p).
      split; [apply pathKey_idem | exact Hin].
    + intros x. apply setAdd_In.
    + rewrite in_app_iff. cbn [In].
      assert (Hsame : Path.isSameDrive source p
                      = Path.isSameDrive source target).
      { destruct Hp as [->|(k & _ & ->)];
          [reflexivity | apply isSameDrive_candidateOf]. }
      rewrite Hsame, <- Hw2. split; [|now left].
      intros [H|[H|[]]]; [exact H | discriminate H].
  - intros He. injection He as <- <-. cbn [to from warnings conflicts].
    fold (pathKey target). split; [|split; [|split]].
    + apply isValidMove_true; [reflexivity|]. cbn [to].
      apply joinPaths_two_nonempty.
    + intros Hin. apply arrIncludes_In in Hin. congruence.
    + intros x. apply setAdd_In.
    + exact Hw2.
Qed.

(** The loop of the planner: entries are appended, one for each row; the
    entries the executor accepts are those of the rows with a theme, their
    targets have pairwise different keys, none of them reserved before,
    and each carries the cross-drive warning exactly when source and
    target are not on one drive. *)
Lemma previewLoop_targets (root : string) (repos : list Repository) :
  forall ex acc all,
    previewLoop root repos ex acc = Ok all ->
    exists new,
      all = acc ++ new
      /\ Forall2 (fun r e => isValidMove e = Js.truthyOpt (theme r))
                 repos new
      /\ NoDup (map (fun e => pathKey (to e)) (filter isValidMove new))
      /\ Forall (fun e => ~ In (pathKey (to e)) ex)
                (filter isValidMove new)
      /\ Forall (fun e =>
                   isValidMove e = true ->
                   (In "Cross-drive move (will copy and delete)"
                       (warnings e)
                    <-> Path.isSameDrive (from e) (to e) = false)) new.
Proof.
  induction repos as [|repo rest IH]; intros ex acc all;
    cbn [previewLoop].
  - intros He. injection He as <-. exists []. rewrite app_nil_r.
    repeat split; constructor.
  - destruct (previewOne root repo ex) as [[e ex']|m] eqn:Hone;
      [|discriminate].
    intros Hall. destruct (IH _ _ _ Hall) as (new & -> & Hv & Hnd & Hex & Hw).
    exists (e :: new). split; [now rewrite <- app_assoc|].
    destruct (Js.truthyOpt (theme repo)) eqn:Ht.
    + destruct (previewOne_themed _ _ _ _ _ Ht Hone)
        as (Hvalid & Hfresh & Hset & Hcross).
      cbn [filter]. rewrite Hvalid. cbn [map].
      split; [constructor; [congruence | exact Hv]|].
      split; [|split].
      * constructor; [|exact Hnd]. intros Hin. apply in_map_iff in Hin.
        destruct Hin as (e' & Hk & Hin'). rewrite Forall_forall in Hex.
        apply (Hex e' Hin'). apply Hset. left. exact Hk.
      * constructor; [exact Hfresh|]. eapply Forall_impl; [|exact Hex].
        cbv beta. intros e' Hn Hin. apply Hn, Hset. now right.
      * constructor; [intros _; exact Hcross | exact Hw].
    + destruct (previewOne_unthemed root repo ex Ht) as (e0 & He0 & Hinv).
      rewrite He0 in Hone. injection Hone as <- <-.
      cbn [filter]. rewrite Hinv.
      split; [constructor; [congruence | exact Hv]|].
      split; [exact Hnd|]. split; [exact Hex|].
      constructor; [congruence | exact Hw].
Qed.

Lemma generateMovePreview_loop (settings : option Settings) (t : Table)
      (existing : list string) (repoIds : list Z)
      (previews : list MovePreview) (msg : option string) :
  generateMovePreview settings t existing repoIds = Success previews msg ->
  exists root,
    previewLoop root (findManyIn repoIds t) existing [] = Ok previews.
Proof.
  unfold generateMovePreview. destruct settings as [s|]; [|discriminate].
  destruct (negb _); [discriminate|].
  destruct (Nat.eqb _ 0); [discriminate|].
  destruct (previewLoop _ _ existing []) as [all|m] eqn:Hl; [|discriminate].
  intros He. injection He as <- _. eexists. exact Hl.
Qed.

(** X17: in a preview that is returned, the entries the executor
    accepts (no conflict, a non-empty target) are exactly the entries of
    the rows that have a theme. *)
Theorem generateMovePreview_executable (settings : option Settings)
        (t : Table) (existing : list string) (repoIds : list Z) :
  match generateMovePreview settings t existing repoIds with
  | Success previews _ =>
      Forall2 (fun r e => isValidMove e = Js.truthyOpt (theme r))
              (findManyIn repoIds t) previews
  | Failure _ => True
  end.
Proof.
  destruct (generateMovePreview settings t existing repoIds)
    as [previews msg|] eqn:Hg; [|exact I].
  destruct (generateMovePreview_loop _ _ _ _ _ _ Hg) as (root & Hl).
  destruct (previewLoop_targets _ _ _ _ _ Hl) as (new & -> & Hv & _).
  exact Hv.
Qed.

(** X18: in a preview that is returned, the targets of the
    executable entries have pairwise different keys, and none of them is
    among the existing paths the planner was given. *)
Theorem generateMovePreview_targets_distinct (settings : option Settings)
        (t : Table) (existing : list string) (repoIds : list Z) :
  match generateMovePreview settings t existing repoIds with
  | Success previews _ =>
      NoDup (map (fun e => pathKey (to e)) (filter isValidMove previews))
      /\ Forall (fun e => ~ In (pathKey (to e)) existing)
                (filter isValidMove previews)
  | Failure _ => True
  end.
Proof.
  destruct (generateMovePreview settings t existing repoIds)
    as [previews msg|] eqn:Hg; [|exact I].
  destruct (generateMovePreview_loop _ _ _ _ _ _ Hg) as (root & Hl).
  destruct (previewLoop_targets _ _ _ _ _ Hl)
    as (new & -> & _ & Hnd & Hex & _).
  split; assumption.
Qed.

(** X19: an executable entry of a preview carries the warning
    "Cross-drive move (will copy and delete)" exactly when its source and
    its final target, after the resolution of a conflict, are not on one
    drive: exactly when the executor will copy and delete. *)
Theorem generateMovePreview_cross_drive_warning
        (settings : option Settings) (t : Table) (existing : list string)
        (repoIds : list Z) :
  match generateMovePreview settings t existing repoIds with
  | Success previews _ =>
      Forall (fun e =>
                isValidMove e = true ->
                (In "Cross-drive move (will copy and delete)" (warnings e)
                 <-> Path.isSameDrive (from e) (to e) = false)) previews
  | Failure _ => True
  end.
Proof.
  destruct (generateMovePreview settings t existing repoIds)
    as [previews msg|] eqn:Hg; [|exact I].
  destruct (generateMovePreview_loop _ _ _ _ _ _ Hg) as (root & Hl).
  destruct (previewLoop_targets _ _ _ _ _ Hl)
    as (new & -> & _ & _ & _ & Hw).
  exact Hw.
Qed.

End PreviewProps.

(** ** The executor and the store; the copy and the paths it touches *)

Module TriageProps.
Import Store Planner Executor ScannerResults Triage StoreProps ExecutorProps
       KeyProps PreviewProps.

Section WithHost.

Context {W : Type} `{Host W}.

Ltac unfold_exec :=
  unfold attemptMove, moveChecked, relocate, tryCatch, bind, ret,
    mkdir, access, rename, rm, revalidate, markMoved, call in *.

Ltac host_case :=
  match goal with
  | |- context [fs_mkdir ?p ?w] =>
      destruct (fs_mkdir p w) as [? [[]|?]]; cbn [world table trace fst snd]
  | |- context [fs_access ?p ?w] =>
      destruct (fs_access p w) as [? [[]|?]]; cbn [world table trace fst snd]
  | |- context [fs_rename ?a ?b ?w] =>
      destruct (fs_rename a b w) as [? [[]|?]]; cbn [world table trace fst snd]
  | |- context [copyDirectory ?f ?a ?b ?s] =>
      let Ht := fresh "Htable" in
      pose proof (copyDirectory_table f a b s) as Ht;
      destruct (copyDirectory f a b s) as [? [[]|?|]];
      cbn [world table trace fst snd] in Ht |- *
  | |- context [fs_rm ?p ?w] =>
      destruct (fs_rm p w) as [? [[]|?]]; cbn [world table trace fst snd]
  | |- context [handleConflicts ?o] =>
      destruct (handleConflicts o); cbn [world table trace fst snd]
  | |- context [Path.isSameDrive ?a ?b] =>
      destruct (Path.isSameDrive a b) eqn:?; cbn [world table trace fst snd]
  end.

(** X20: whatever the host does, the move of one entry changes
    the store in one way only: when its result is a success, the row of
    the entry has been given the normalized target as physical path and
    the status [auto]; when the result is a failure, or none is reached,
    the store is as before. *)
Theorem attemptMove_store (fuel : nat) (options : MoveOptions)
        (move : MovePreview) (st : St W) :
  let moved :=
    update (repoId move)
           (fun r => setStatus Auto
                       (setPhysicalPath
                          (Some (Path.normalizeWindowsPath (to move))) r))
           (table st) in
  let st' := fst (attemptMove fuel options move st) in
  match snd (attemptMove fuel options move st) with
  | Return r =>
      if r_success r then moved = Ok (table st')
      else table st' = table st
  | _ => table st' = table st
  end.
Proof.
  cbv zeta. unfold_exec.
  repeat host_case.
  all: try reflexivity.
  all: try rewrite Htable.
  all: try match goal with
           | |- context [update ?i ?f ?t] =>
               destruct (update i f t) as [t'|msg] eqn:Hu
           end.
  all: cbn [world table trace fst snd r_success success failure];
    try reflexivity; try assumption.
Qed.

Lemma relocated_refl (t : Table) : Forall2 relocated t t.
Proof. induction t; constructor; [now left | assumption]. Qed.

Lemma relocated_trans (a b c : Table) :
  Forall2 relocated a b -> Forall2 relocated b c -> Forall2 relocated a c.
Proof.
  intros Hab. revert c. induction Hab as [|x y a b Hxy _ IH]; intros c Hbc;
    inversion Hbc as [|y' z b' c' Hyz Hrest]; subst; constructor.
  - destruct Hyz as [->|(q & ->)]; [exact Hxy|].
    right. destruct Hxy as [->|(p & ->)]; [now exists q|].
    exists q. reflexivity.
  - now apply IH.
Qed.

Lemma markMoved_relocated (i : Z) (p : string) :
  respects (fun s s' : St W => Forall2 relocated (table s) (table s'))
           (markMoved i p).
Proof.
  intros st. unfold markMoved, update.
  destruct (findUnique i (table st)); cbn [fst table];
    [|apply relocated_refl].
  induction (table st) as [|row t IH]; cbn [map]; constructor; [|exact IH].
  destruct (Z.eqb (id row) i); [right; now exists p | now left].
Qed.

(** X21: whatever the batch and the host, [executeMoves] leaves
    the rows of the store in place and in order, each of them untouched
    or changed in its physical path, now set, and its status, now [auto],
    only. *)
Theorem executeMoves_relocates_only (fuel : nat) (moves : list MovePreview)
        (options : MoveOptions) (st : St W) :
  Forall2 relocated (table st)
          (table (fst (executeMoves fuel moves options st))).
Proof.
  apply (respects_executeMoves
           (fun s s' : St W => Forall2 relocated (table s) (table s'))
           (fun _ => true)).
  - intros s. apply relocated_refl.
  - intros a b c. apply relocated_trans.
  - intros s w e _. apply relocated_refl.
  - reflexivity.
  - reflexivity.
  - apply markMoved_relocated.
Qed.

(** X22: with conflict handling [skip] or [fail], an entry whose
    source and target both exist is refused after the three checks, with
    the message of the mode: nothing is renamed, copied or deleted, and
    the store is untouched. *)
Theorem attemptMove_keeps_existing_target
        (fuel : nat) (options : MoveOptions) (move : MovePreview)
        (st : St W) (w1 w2 w3 : W)
        (Hmode : handleConflicts options <> Suffix)
        (Hdir : fs_mkdir (path_dirname (to move)) (world st) = (w1, Ok tt))
        (Hsource : fs_access (from move) w1 = (w2, Ok tt))
        (Htarget : fs_access (to move) w2 = (w3, Ok tt)) :
  attemptMove fuel options move st
  = (mkSt w3 (table st) (trace st ++ preChecks move),
     Return (failure move (targetExistsMessage (handleConflicts options)))).
Proof.
  unfold_exec. unfold preChecks.
  rewrite Hdir. cbn [world table trace]. rewrite Hsource.
  cbn [world table trace]. rewrite Htarget. cbn [world table trace].
  destruct (handleConflicts options); [now contradiction Hmode| |];
    cbn [targetExistsMessage]; now rewrite <- !app_assoc.
Qed.

(** X23: an entry whose source cannot be accessed is refused with
    "Source directory not found" after the creation of the target's
    parent directory and the check of the source: the target is not
    looked at, nothing is moved, and the store is untouched. *)
Theorem attemptMove_source_missing
        (fuel : nat) (options : MoveOptions) (move : MovePreview)
        (st : St W) (w1 w2 : W) (msg : string)
        (Hdir : fs_mkdir (path_dirname (to move)) (world st) = (w1, Ok tt))
        (Hsource : fs_access (from move) w1 = (w2, Throw msg)) :
  attemptMove fuel options move st
  = (mkSt w2 (table st)
          (trace st ++ [EvMkdir (path_dirname (to move));
                        EvAccess (from move)]),
     Return (failure move "Source directory not found")).
Proof.
  unfold_exec.
  rewrite Hdir. cbn [world table trace]. rewrite Hsource.
  cbn [world table trace]. now rewrite <- !app_assoc.
Qed.

(** *** Where a copy reads and writes *)

Lemma emitsPlaced_refl (src dest : string) (s : St W) :
  emitsPlaced src dest s s.
Proof. exists []. split; [now rewrite app_nil_r | constructor]. Qed.

Lemma emitsPlaced_trans (src dest : string) (a b c : St W) :
  emitsPlaced src dest a b -> emitsPlaced src dest b c ->
  emitsPlaced src dest a c.
Proof.
  intros (e1 & H1 & F1) (e2 & H2 & F2). exists (e1 ++ e2). split.
  - now rewrite H2, H1, app_assoc.
  - apply Forall_app. now split.
Qed.

Lemma emitsPlaced_call {A : Type} (src dest : string) (e : Event)
      (op : W -> W * Res A) :
  placed src dest e -> respects (emitsPlaced src dest) (call e op).
Proof.
  intros He st. unfold call.
  destruct (op (world st)) as [w [a|msg]]; cbn [fst];
    exists [e]; split; try reflexivity; now repeat constructor.
Qed.

Lemma copyDirectory_placed (src dest : string) (fuel : nat) :
  forall s d,
    Mirror src dest s d ->
    respects (emitsPlaced src dest) (copyDirectory fuel s d).
Proof.
  pose proof (emitsPlaced_refl src dest) as Hrefl.
  pose proof (emitsPlaced_trans src dest) as Htrans.
  induction fuel as [|fuel IH]; intros s d Hm; cbn [copyDirectory].
  - intros st. apply Hrefl.
  - apply respects_bind; [exact Htrans | |].
    { apply emitsPlaced_call. now exists s. }
    intros _. apply respects_bind; [exact Htrans | |].
    { apply emitsPlaced_call. now exists d. }
    intros entries. apply respects_forEach; [exact Hrefl | exact Htrans |].
    intros entry. unfold copyEntry.
    assert (Hchild : Mirror src dest (path_join s (Git.d_name entry))
                            (path_join d (Git.d_name entry)))
      by now constructor.
    destruct (Git.isSymbolicLink entry).
    + apply respects_bind; [exact Htrans | |].
      { apply emitsPlaced_call. eexists. exact Hchild. }
      intros linkTarget. apply emitsPlaced_call. eexists. exact Hchild.
    + destruct (Git.isDirectory entry); [now apply IH|].
      apply emitsPlaced_call. exact Hchild.
Qed.

(** X24: every event of [copyDirectory] reads below the source
    and writes below the destination, at the same relative place:
    directories are listed and links read below the source, directories
    and links are made at the mirrored path below the destination, and a
    file is copied to the mirrored path. *)
Theorem copyDirectory_mirrors (fuel : nat) (src dest : string) (st : St W) :
  exists evs,
    trace (fst (copyDirectory fuel src dest st)) = trace st ++ evs
    /\ Forall (placed src dest) evs.
Proof. apply (copyDirectory_placed src dest fuel src dest). constructor. Qed.

(** *** [getExistingPaths] *)

Lemma setAdd_keys (x : string) (s : list string) :
  NoDup s -> Forall (fun p => pathKey p = p) s ->
  NoDup (setAdd (pathKey x) s)
  /\ Forall (fun p => pathKey p = p) (setAdd (pathKey x) s).
Proof.
  intros Hnd Hk. unfold setAdd.
  destruct (Js.arrIncludes s (pathKey x)) eqn:Hin; [now split|].
  split.
  - apply NoDup_app; [exact Hnd | repeat constructor; intros [] |].
    intros a Ha [<-|[]]. apply arrIncludes_In in Ha. congruence.
  - apply Forall_app. split; [exact Hk|].
    constructor; [apply pathKey_idem | constructor].
Qed.

Lemma addRepoPaths_keys (themePath : string) (repos : list Git.Dirent) :
  forall paths,
    NoDup paths -> Forall (fun p => pathKey p = p) paths ->
    NoDup (addRepoPaths themePath repos paths)
    /\ Forall (fun p => pathKey p = p) (addRepoPaths themePath repos paths)
    /\ incl paths (addRepoPaths themePath repos paths).
Proof.
  unfold addRepoPaths.
  induction repos as [|repo repos IH]; intros paths Hnd Hk; cbn [fold_left].
  - repeat split; auto. apply incl_refl.
  - destruct (Git.isDirectory repo); [|now apply IH].
    destruct (setAdd_keys (path_join themePath (Git.d_name repo)) paths
                Hnd Hk) as [Hnd' Hk'].
    destruct (IH _ Hnd' Hk') as (H1 & H2 & H3).
    repeat split; auto. intros x Hx. apply H3.
    apply setAdd_In. now right.
Qed.

Lemma readdir_reads (p : string) (st : St W) :
  table (fst (readdir p st)) = table st
  /\ trace (fst (readdir p st)) = trace st ++ [EvReaddir p].
Proof.
  unfold readdir, call.
  destruct (fs_readdir p (world st)) as [w [a|msg]]; now split.
Qed.

Lemma themesLoop_reads (root : string) (themes : list Git.Dirent) :
  forall paths st,
    NoDup paths -> Forall (fun p => pathKey p = p) paths ->
    let out := themesLoop root themes paths st in
    NoDup (snd out)
    /\ Forall (fun p => pathKey p = p) (snd out)
    /\ table (fst out) = table st
    /\ emitsOnly isReaddir st (fst out).
Proof.
  induction themes as [|theme rest IH]; intros paths st Hnd Hk;
    cbn [themesLoop]; cbv zeta.
  - repeat split; auto. apply emitsOnly_refl.
  - destruct (negb (Git.isDirectory theme)); [now apply IH|].
    set (themePath := path_join root (Git.d_name theme)).
    destruct (readdir_reads themePath st) as [Ht Htr].
    assert (Hstep : emitsOnly isReaddir st (fst (readdir themePath st))).
    { exists [EvReaddir themePath]. now split. }
    destruct (readdir themePath st) as [st' [repos|msg|]];
      cbn [fst snd] in *; [|now repeat split..].
    destruct (addRepoPaths_keys themePath repos paths Hnd Hk)
      as (Hnd' & Hk' & _).
    destruct (IH _ st' Hnd' Hk') as (H1 & H2 & H3 & H4).
    repeat split; auto; [congruence|].
    eapply emitsOnly_trans; [exact Hstep | exact H4].
Qed.

(** X25: [getExistingPaths] only lists directories and leaves the
    store alone; the paths it returns are pairwise different and are
    keys, lower case with forward slashes, whether a listing has thrown
    or not. *)
Theorem getExistingPaths_reads_keys (root : string) (st : St W) :
  let out := getExistingPaths root st in
  NoDup (snd out)
  /\ Forall (fun p => pathKey p = p) (snd out)
  /\ table (fst out) = table st
  /\ emitsOnly isReaddir st (fst out).
Proof.
  cbv zeta. unfold getExistingPaths.
  destruct (readdir_reads root st) as [Ht Htr].
  assert (Hstep : emitsOnly isReaddir st (fst (readdir root st))).
  { exists [EvReaddir root]. now split. }
  destruct (readdir root st) as [st' [themes|msg|]];
    cbn [fst snd] in *; [|repeat split; auto; constructor..].
  destruct (themesLoop_reads root themes [] st' (NoDup_nil _)
              (Forall_nil _)) as (H1 & H2 & H3 & H4).
  repeat split; auto; [congruence|].
  eapply emitsOnly_trans; [exact Hstep | exact H4].
Qed.

End WithHost.

End TriageProps.

(** ** Refused entries on the simulated host *)

Module TriageSim.
Import Store Planner Executor Triage Sim TriageProps.

Lemma attemptMove_keeps_existing_target_witness :
  handleConflicts (mkOptions false Skip) <> Suffix
  /\ attemptMove simFuel (mkOptions false Skip)
       (mkPreview 2 "lib" "C:/src/lib" "C:/Org" "nextjs" [] []) start
     = (mkSt (disk ++ [("C:", NDir)]) rows
             (preChecks
                (mkPreview 2 "lib" "C:/src/lib" "C:/Org" "nextjs" [] [])),
        Return (failure
                  (mkPreview 2 "lib" "C:/src/lib" "C:/Org" "nextjs" [] [])
                  "Target already exists (skipped)")).
Proof.
  split; [discriminate|].
  apply (attemptMove_keeps_existing_target simFuel (mkOptions false Skip)
           (mkPreview 2 "lib" "C:/src/lib" "C:/Org" "nextjs" [] []) start
           (disk ++ [("C:", NDir)]) (disk ++ [("C:", NDir)])
           (disk ++ [("C:", NDir)])).
  - discriminate.
  - reflexivity.
  - reflexivity.
  - reflexivity.
Defined.

Lemma attemptMove_source_missing_witness :
  attemptMove simFuel DEFAULT_MOVE_OPTIONS moveGone start
  = (mkSt (disk ++ [("C:/Org/python", NDir)]) rows
          [EvMkdir "C:/Org/python"; EvAccess "C:/src/gone"],
     Return (failure moveGone "Source directory not found")).
Proof.
  exact (attemptMove_source_missing simFuel DEFAULT_MOVE_OPTIONS moveGone
           start (disk ++ [("C:/Org/python", NDir)])
           (disk ++ [("C:/Org/python", NDir)])
           "ENOENT: no such file or directory" eq_refl eq_refl).
Defined.

End TriageSim.

(** ** The walker: termination and soundness *)

Module GitWalkProps.
Import Git GitWalk.

Section Walker.

Variable normalizeForFs : string -> string.
Variable readdir : string -> Res (list Dirent).

Lemma scanEntries_queue (current : QueueItem) (entries : list Dirent) :
  forall queue,
    scanEntries current entries queue
    = (fst (scanEntries current entries []),
       queue ++ snd (scanEntries current entries [])).
Proof.
  induction entries as [|e entries IH]; intros queue; cbn [scanEntries].
  - now rewrite app_nil_r.
  - destruct (negb (isDirectory e)); [apply IH|].
    destruct (String.eqb (d_name e) ".git");
      [cbn; now rewrite app_nil_r|].
    destruct (Js.startsWith (d_name e) "."); [apply IH|].
    destruct (shouldSkipDirectory (d_name e)); [apply IH|].
    cbv zeta. rewrite IH, (IH ([] ++ _)). cbn [fst snd app].
    now rewrite <- app_assoc.
Qed.

Lemma scanEntries_depth (current : QueueItem) (entries : list Dirent) :
  forall queue,
    Forall (fun item => q_depth item = q_depth current + 1) queue ->
    Forall (fun item => q_depth item = q_depth current + 1)
           (snd (scanEntries current entries queue)).
Proof.
  induction entries as [|e entries IH]; intros queue Hq; cbn [scanEntries];
    [exact Hq|].
  destruct (negb (isDirectory e)); [now apply IH|].
  destruct (String.eqb (d_name e) ".git"); [exact Hq|].
  destruct (Js.startsWith (d_name e) "."); [now apply IH|].
  destruct (shouldSkipDirectory (d_name e)); [now apply IH|].
  apply IH. apply Forall_app. split; [exact Hq|]. now repeat constructor.
Qed.

Lemma scanEntries_yield (current : QueueItem) (entries : list Dirent) :
  forall queue,
    fst (scanEntries current entries queue) = []
    \/ (fst (scanEntries current entries queue) = [q_path current]
        /\ existsb isMarker entries = true).
Proof.
  induction entries as [|e entries IH]; intros queue; cbn [scanEntries];
    [now left|].
  cbn [existsb]. unfold isMarker at 1.
  destruct (isDirectory e); cbn [negb andb];
    [|destruct (IH queue) as [Hn|[Hy Hm]]; [now left | right; now split]].
  destruct (String.eqb (d_name e) ".git"); [right; now split|].
  cbn [orb].
  destruct (Js.startsWith (d_name e) "."); [apply IH|].
  destruct (shouldSkipDirectory (d_name e)); apply IH.
Qed.

Lemma work_positive (levels : nat) (item : QueueItem) :
  1 <= work readdir levels item.
Proof. destruct levels; cbn; lia. Qed.

Lemma queueWork_app (maxDepth : nat) (a b : list QueueItem) :
  queueWork readdir maxDepth (a ++ b)
  = queueWork readdir maxDepth a + queueWork readdir maxDepth b.
Proof. unfold queueWork. now rewrite map_app, list_sum_app. Qed.

Lemma queueWork_children (maxDepth : nat) (current : QueueItem) :
  q_depth current <= maxDepth ->
  work readdir (levelsLeft maxDepth current) current
  = 1 + queueWork readdir maxDepth (children readdir current).
Proof.
  intros Hd. unfold levelsLeft at 1.
  replace (maxDepth + 1 - q_depth current)
    with (S (maxDepth - q_depth current)) by lia.
  cbn [work]. f_equal. unfold queueWork. f_equal.
  apply map_ext_in. intros item Hin.
  assert (Hdepth : q_depth item = q_depth current + 1).
  { unfold children in Hin.
    destruct (readdir (q_path current)) as [entries|]; [|destruct Hin].
    pose proof (scanEntries_depth current entries [] (Forall_nil _)) as Hall.
    rewrite Forall_forall in Hall. now apply Hall. }
  unfold levelsLeft. rewrite Hdepth. f_equal. lia.
Qed.

(** With more fuel than the work of its queue the loop ends. *)
Lemma walk_enough (maxDepth : nat) :
  forall fuel queue,
    queueWork readdir maxDepth queue < fuel ->
    exists out, walk readdir fuel maxDepth queue = Some out.
Proof.
  induction fuel as [|fuel IH]; intros queue Hw; [lia|].
  cbn [walk]. destruct queue as [|current rest]; [now exists []|].
  change (queueWork readdir maxDepth (current :: rest))
    with (work readdir (levelsLeft maxDepth current) current
          + queueWork readdir maxDepth rest) in Hw.
  pose proof (work_positive (levelsLeft maxDepth current) current) as Hpos.
  destruct (maxDepth <? q_depth current) eqn:Hdepth; [apply IH; lia|].
  apply Nat.ltb_ge in Hdepth.
  rewrite (queueWork_children maxDepth current Hdepth) in Hw.
  unfold children in Hw.
  destruct (readdir (q_path current)) as [entries|msg]; [|apply IH; lia].
  rewrite (scanEntries_queue current entries rest).
  destruct (IH (rest ++ snd (scanEntries current entries []))) as [out Hout].
  { rewrite queueWork_app. lia. }
  rewrite Hout. cbn [option_map]. eauto.
Qed.

(** More fuel does not change what the loop yields. *)
Lemma walk_more (maxDepth : nat) :
  forall fuel queue out more,
    walk readdir fuel maxDepth queue = Some out ->
    walk readdir (fuel + more) maxDepth queue = Some out.
Proof.
  induction fuel as [|fuel IH]; intros queue out more; [discriminate|].
  cbn [walk Nat.add]. destruct queue as [|current rest]; [auto|].
  destruct (maxDepth <? q_depth current); [apply IH|].
  destruct (readdir (q_path current)) as [entries|msg]; [|apply IH].
  destruct (scanEntries current entries rest) as [yielded queue'].
  destruct (walk readdir fuel maxDepth queue') as [out'|] eqn:Hw;
    [|discriminate].
  now rewrite (IH _ _ more Hw).
Qed.

Lemma walk_sound (maxDepth : nat) :
  forall fuel queue out,
    walk readdir fuel maxDepth queue = Some out ->
    Forall (hasMarker readdir) out.
Proof.
  induction fuel as [|fuel IH]; intros queue out; [discriminate|].
  cbn [walk]. destruct queue as [|current rest].
  - intros E. injection E as <-. constructor.
  - destruct (maxDepth <? q_depth current); [apply IH|].
    destruct (readdir (q_path current)) as [entries|msg] eqn:Hr; [|apply IH].
    pose proof (scanEntries_yield current entries rest) as Hy.
    destruct (scanEntries current entries rest) as [yielded queue'].
    cbn [fst] in Hy.
    destruct (walk readdir fuel maxDepth queue') as [out'|] eqn:Hw;
      [|discriminate].
    intros E. injection E as <-. apply Forall_app.
    split; [|now apply (IH queue')].
    destruct Hy as [->|[-> Hm]]; [constructor|].
    constructor; [|constructor]. now exists entries.
Qed.

(** X26: on every file system and for every depth limit the loop
    of [findGitRepos] ends, directory cycles included: some fuel gives a
    result, and more fuel gives the same result. *)
Theorem findGitRepos_terminates (directory : string) (maxDepth : nat) :
  exists fuel out,
    findGitRepos normalizeForFs readdir fuel directory maxDepth = Some out
    /\ forall more,
         findGitRepos normalizeForFs readdir (fuel + more) directory maxDepth
         = Some out.
Proof.
  unfold findGitRepos.
  set (queue := [mkItem (normalizeForFs directory) 0]).
  destruct (walk_enough maxDepth (S (queueWork readdir maxDepth queue)) queue)
    as [out Hout]; [lia|].
  exists (S (queueWork readdir maxDepth queue)), out.
  split; [exact Hout|]. intros more. now apply walk_more.
Qed.

(** X27: every path [findGitRepos] yields is a directory that can
    be listed and whose listing has a directory named [.git]. *)
Theorem findGitRepos_sound (fuel : nat) (directory : string)
        (maxDepth : nat) (out : list string)
        (Hrun : findGitRepos normalizeForFs readdir fuel directory maxDepth
                = Some out) :
  Forall (hasMarker readdir) out.
Proof. exact (walk_sound maxDepth fuel _ out Hrun). Qed.

End Walker.

Lemma findGitRepos_sound_witness :
  Forall (hasMarker (tableFs nestedBeforeMarker)) ["/r"; "/r/a"].
Proof.
  exact (findGitRepos_sound (fun p => p) (tableFs nestedBeforeMarker)
           16 "/r" 5 ["/r"; "/r/a"] eq_refl).
Defined.

End GitWalkProps.

(** ** The progress of a scan *)

Module ProgressProps.
Import Progress.

Lemma step_consistent (c : Cell) (op : Op) :
  consistent c -> consistent (step c op).
Proof.
  unfold consistent. destruct c as [flag p]. destruct op; cbn.
  - intros _. repeat split. discriminate.
  - unfold cancelScan, isScanInProgress. cbn.
    destruct (status p) eqn:Hs; cbn; rewrite ?Hs; auto.
    intros (H1 & _). repeat split; [exact H1 | discriminate].
  - destruct (status p); auto.
  - intros _. discriminate.
  - intros _. split; discriminate.
  - intros _. repeat split.
Qed.

(** X28: after any sequence of calls to the operations of the
    progress module, the progress a client reads is consistent: idle has
    no start time, no completion time and no error; scanning has a start
    time, no completion time, no error, and is not cancelled; cancelled
    has both times and the cancellation flag set; completed has a
    completion time; error has a completion time and an error. *)
Theorem progress_consistent (ops : list Op) : consistent (run ops).
Proof.
  unfold run.
  assert (G : forall c, consistent c -> consistent (fold_left step ops c)).
  { induction ops as [|op ops IH]; intros c Hc; [exact Hc|].
    cbn [fold_left]. apply IH. now apply step_consistent. }
  apply G. cbn. repeat split.
Qed.

End ProgressProps.

(** ** Assigning themes *)

Module AssignProps.
Import Store Planner Executor Repositories StoreProps PlannerProps
       PreviewProps.

Lemma update_absent (i : Z) (g : Repository -> Repository) (t : Table) :
  findUnique i t = None ->
  map (fun r => if Z.eqb (id r) i then g r else r) t = t.
Proof.
  unfold findUnique. induction t as [|r t IH]; cbn; [reflexivity|].
  destruct (Z.eqb (id r) i); [discriminate|]. intros Hf. now rewrite IH.
Qed.

(** The rows after [assignTheme], whether it succeeded or not. *)
Lemma assignTheme_table (repoId : Z) (th : string) (t : Table) :
  assignThemeValid repoId th = true ->
  fst (assignTheme repoId th t)
  = map (fun r => if Z.eqb (id r) repoId
                  then setStatus Manual (setTheme (Some th) r) else r) t.
Proof.
  intros Hv. unfold assignTheme, update. rewrite Hv. cbn [negb].
  destruct (findUnique repoId t) eqn:Hf; cbn [fst]; [reflexivity|].
  symmetry. now apply update_absent.
Qed.

Lemma updateMany_cons (i : Z) (ids : list Z) (th : string) (t : Table) :
  updateMany ids (fun r => setStatus Manual (setTheme (Some th) r))
    (map (fun r => if Z.eqb (id r) i
                   then setStatus Manual (setTheme (Some th) r) else r) t)
  = updateMany (i :: ids)
      (fun r => setStatus Manual (setTheme (Some th) r)) t.
Proof.
  unfold updateMany. rewrite map_map. apply map_ext. intros r.
  cbn [existsb]. destruct (Z.eqb (id r) i); cbn [orb id setStatus setTheme].
  - now destruct (existsb _ ids).
  - reflexivity.
Qed.

(** X29: with valid arguments, [bulkAssignTheme] leaves the store
    as [assignTheme] called for each id in turn does, ids that are not in
    the store and repeated ids included. *)
Theorem bulkAssignTheme_one_by_one (repoIds : list Z) (th : string)
        (t : Table) (Hvalid : bulkAssignThemeValid repoIds th = true) :
  fst (bulkAssignTheme repoIds th t)
  = fold_left (fun acc i => fst (assignTheme i th acc)) repoIds t.
Proof.
  unfold bulkAssignTheme. rewrite Hvalid. cbn [negb fst].
  unfold bulkAssignThemeValid in Hvalid.
  apply andb_prop in Hvalid. destruct Hvalid as [Hids Hth].
  apply andb_prop in Hids. destruct Hids as [Hpos _].
  revert t. induction repoIds as [|i ids IH]; intros t.
  - cbn. unfold updateMany. cbn. apply map_id.
  - cbn [forallb] in Hpos. apply andb_prop in Hpos.
    destruct Hpos as [Hi Hrest]. cbn [fold_left].
    rewrite assignTheme_table
      by (unfold assignThemeValid; now rewrite Hi, Hth).
    rewrite <- (IH Hrest). symmetry. apply updateMany_cons.
Qed.

Lemma bulkAssignTheme_one_by_one_witness :
  fst (bulkAssignTheme [2; 7; 2]%Z "python" Sim.rows)
  = fold_left (fun acc i => fst (assignTheme i "python" acc))
              [2; 7; 2]%Z Sim.rows.
Proof.
  exact (bulkAssignTheme_one_by_one [2; 7; 2]%Z "python" Sim.rows eq_refl).
Defined.

Lemma findManyIn_one (i : Z) (t : Table) :
  In i (map id t) ->
  findManyIn [i] t <> []
  /\ Forall (fun r => id r = i) (findManyIn [i] t).
Proof.
  intros Hin. unfold findManyIn. split.
  - apply in_map_iff in Hin. destruct Hin as (r & Hr & Hin).
    assert (Hf : In r (filter (fun r => existsb (Z.eqb (id r)) [i]) t)).
    { apply filter_In. split; [exact Hin|]. cbn. rewrite Hr, Z.eqb_refl.
      reflexivity. }
    intros E. rewrite E in Hf. destruct Hf.
  - apply Forall_forall. intros r Hr. apply filter_In in Hr.
    destruct Hr as [_ Hr]. cbn in Hr. rewrite orb_false_r in Hr.
    now apply Z.eqb_eq.
Qed.

(** X30: on the store that [assignTheme] leaves when it is called with
    valid arguments on an id of the store, a preview requested for that
    id, when one is returned, is not empty and has only executable
    entries for that id, with the theme assigned.  The statement is about
    the store only: the result the action reports also depends on the
    calls of [revalidatePath] that follow the update. *)
Theorem assignTheme_makes_plannable (repoId : Z) (th : string) (t : Table)
        (settings : option Settings) (existing : list string)
        (Hvalid : assignThemeValid repoId th = true)
        (Hfound : In repoId (map id t)) :
  match generateMovePreview settings (fst (assignTheme repoId th t))
          existing [repoId] with
  | Success previews _ =>
      previews <> []
      /\ Forall (fun e => Planner.repoId e = repoId /\ p_theme e = th
                          /\ isValidMove e = true) previews
  | Failure e =>
      rootConfigured settings = false \/ e = "Too many path conflicts"
  end.
Proof.
  - rewrite (assignTheme_table _ _ _ Hvalid).
    set (g := fun r => if Z.eqb (id r) repoId
                       then setStatus Manual (setTheme (Some th) r) else r).
    assert (Hg : forall r, id (g r) = id r).
    { intros r. unfold g. now destruct (Z.eqb (id r) repoId). }
    assert (Hin : In repoId (map id (map g t))).
    { rewrite map_map. erewrite map_ext; [exact Hfound | exact Hg]. }
    destruct (findManyIn_one repoId (map g t) Hin) as [Hne Hids].
    assert (Hth : Forall (fun r => theme r = Some th)
                         (findManyIn [repoId] (map g t))).
    { apply Forall_forall. intros r Hr.
      pose proof (proj1 (Forall_forall _ _) Hids r Hr) as Hid.
      unfold findManyIn in Hr. apply filter_In in Hr. destruct Hr as [Hr _].
      apply in_map_iff in Hr. destruct Hr as (r0 & <- & _).
      rewrite Hg in Hid. unfold g. apply Z.eqb_eq in Hid.
      now rewrite Hid. }
    assert (Htruthy : Js.truthyOpt (Some th) = true).
    { unfold assignThemeValid in Hvalid. apply andb_prop in Hvalid.
      destruct Hvalid as [_ Hlen]. destruct th; [discriminate Hlen|].
      reflexivity. }
    unfold generateMovePreview, rootConfigured.
    destruct settings as [s|]; [|now left].
    destruct (Js.truthyOpt (organizationRoot s)); cbn [negb]; [|now left].
    destruct (findManyIn [repoId] (map g t)) as [|r rs] eqn:Hf;
      [now contradiction Hne|].
    cbn [length Nat.eqb].
    pose proof (previewLoop_accounts
                  (orElse (organizationRoot s) EmptyString)
                  (r :: rs) existing []) as Hacc.
    destruct (previewLoop _ (r :: rs) existing []) as [all|m] eqn:Hl;
      [|now right].
    destruct Hacc as (new & -> & Hnew).
    destruct (previewLoop_targets _ _ _ _ _ Hl) as (new' & E & Hv & _).
    cbn [app] in E. subst new'. split.
    + inversion Hnew. discriminate.
    + clear Hl Hf Hne. revert Hids Hth Hv.
      induction Hnew as [|x e xs es Hxe _ IH]; intros Hids Hth Hv;
        [constructor|].
      inversion Hids as [|? ? Hid Hids']. inversion Hth as [|? ? Ht Hth'].
      inversion Hv as [|? ? ? ? Hve Hv']. subst.
      constructor; [|now apply IH].
      destruct Hxe as (Hrid & _ & _ & Hthemed).
      rewrite Ht in Hthemed, Hve.
      destruct (Hthemed Htruthy) as [_ Hp]. injection Hp as Hp.
      rewrite Hve, Htruthy. repeat split; congruence.
Qed.

Lemma assignTheme_makes_plannable_witness :
  match generateMovePreview (Some settingsC)
          (fst (assignTheme 2 "python" [repoA; repoB])) [] [2%Z] with
  | Success previews _ =>
      previews <> []
      /\ Forall (fun e => Planner.repoId e = 2%Z /\ p_theme e = "python"
                          /\ isValidMove e = true) previews
  | Failure e =>
      rootConfigured (Some settingsC) = false
      \/ e = "Too many path conflicts"
  end.
Proof.
  apply (assignTheme_makes_plannable 2 "python" [repoA; repoB]
           (Some settingsC) []).
  - reflexivity.
  - cbn. tauto.
Defined.

End AssignProps.

(** ** The relocation of an entry *)

Module RelocateProps.
Import Store Planner Executor Relocate StoreProps ExecutorProps.

Section WithHost.

Context {W : Type} `{Host W}.

Lemma St_eta (st : St W) : st = mkSt (world st) (table st) (trace st).
Proof. now destruct st. Qed.

Section Level.

Variable fuel : nat.

Hypothesis copy_level :
  forall src dest st,
    snd (copyDirectory fuel src dest st) <> OutOfFuel ->
    exists cp w r,
      CopyTree src dest (world st) cp w r
      /\ copyDirectory fuel src dest st
         = (mkSt w (table st) (trace st ++ cp), outcomeOf r).

Lemma copyEntry_one (src dest : string) (entry : Git.Dirent) (st : St W) :
  snd (copyEntry (copyDirectory fuel) src dest entry st) <> OutOfFuel ->
  exists evs w r,
    CopyOne src dest entry (world st) evs w r
    /\ copyEntry (copyDirectory fuel) src dest entry st
       = (mkSt w (table st) (trace st ++ evs), outcomeOf r).
Proof.
  unfold copyEntry.
  destruct (Git.isSymbolicLink entry) eqn:Hlink.
  - intros _. unfold bind, readlink, symlink, call.
    destruct (fs_readlink _ (world st)) as [w1 [linkTarget|msg]] eqn:Hread;
      cbn [world table trace].
    + destruct (fs_symlink linkTarget _ w1) as [w2 r] eqn:Hmake.
      eexists _, w2, r. split; [now eapply CopyLink; eauto|].
      rewrite <- app_assoc. now destruct r as [[]|msg].
    + eexists _, w1, (Throw msg). split; [now eapply CopyLinkUnread|].
      reflexivity.
  - destruct (Git.isDirectory entry) eqn:Hdir.
    + intros Hfuel. destruct (copy_level _ _ st Hfuel) as (cp & w & r & Hcp & E).
      exists cp, w, r. split; [now apply CopySubdirectory | exact E].
    + intros _. unfold copyFile, call.
      destruct (fs_copyFile _ _ (world st)) as [w1 r] eqn:Hcopy.
      eexists _, w1, r. split; [now eapply CopyPlainFile; eauto|].
      now destruct r as [[]|msg].
Qed.

Lemma forEach_entries (src dest : string) (entries : list Git.Dirent) :
  forall st,
    snd (forEach entries (copyEntry (copyDirectory fuel) src dest) st)
    <> OutOfFuel ->
    exists evs w r,
      CopyEntries src dest entries (world st) evs w r
      /\ forEach entries (copyEntry (copyDirectory fuel) src dest) st
         = (mkSt w (table st) (trace st ++ evs), outcomeOf r).
Proof.
  induction entries as [|entry rest IH]; intros st; cbn [forEach].
  - intros _. exists [], (world st), (Ok tt). split; [constructor|].
    unfold ret. cbn [outcomeOf]. now rewrite app_nil_r, <- St_eta.
  - unfold bind at 1 2.
    destruct (copyEntry (copyDirectory fuel) src dest entry st)
      as [st1 o1] eqn:Hone.
    intros Hfuel.
    assert (Hfuel1 : snd (copyEntry (copyDirectory fuel) src dest entry st)
                     <> OutOfFuel).
    { rewrite Hone. cbn [snd]. intros ->. now apply Hfuel. }
    destruct (copyEntry_one src dest entry st Hfuel1)
      as (evs1 & w1 & r1 & Hcp1 & E1).
    rewrite Hone in E1. injection E1 as -> ->.
    destruct r1 as [[]|msg]; cbn [outcomeOf] in *.
    + destruct (IH _ Hfuel) as (evs2 & w2 & r2 & Hcp2 & E2).
      cbn [world table trace] in *.
      exists (evs1 ++ evs2), w2, r2. split; [now eapply CopyNext; eauto|].
      now rewrite E2, app_assoc.
    + exists evs1, w1, (Throw msg). split; [now apply CopyStops|].
      reflexivity.
Qed.

End Level.

(** A copy that ends is a copy of the tree: the calls it makes, the
    world it leaves and its result are those of [CopyTree], and it does
    not touch the store. *)
Lemma copyDirectory_tree (fuel : nat) :
  forall src dest st,
    snd (copyDirectory fuel src dest st) <> OutOfFuel ->
    exists cp w r,
      CopyTree src dest (world st) cp w r
      /\ copyDirectory fuel src dest st
         = (mkSt w (table st) (trace st ++ cp), outcomeOf r).
Proof.
  induction fuel as [|fuel IH]; intros src dest st; cbn [copyDirectory].
  - intros Hfuel. now contradiction Hfuel.
  - unfold bind, mkdir, readdir, call.
    destruct (fs_mkdir dest (world st)) as [w1 [[]|msg]] eqn:Hmk;
      cbn [world table trace].
    2:{ intros _. eexists _, w1, (Throw msg).
        split; [now apply CopyNoTarget | reflexivity]. }
    destruct (fs_readdir src w1) as [w2 [entries|msg]] eqn:Hls;
      cbn [world table trace].
    2:{ intros _. eexists _, w2, (Throw msg).
        split; [now eapply CopyNoListing; eauto|].
        now rewrite <- app_assoc. }
    intros Hfuel.
    destruct (forEach_entries fuel IH src dest entries _ Hfuel)
      as (evs & w3 & r & Hcp & E).
    cbn [world table trace] in *.
    exists (EvMkdir dest :: EvReaddir src :: evs), w3, r.
    split; [now eapply CopyListed; eauto|].
    rewrite E. now rewrite <- !app_assoc.
Qed.

(** For an entry whose checks have passed, the step "perform the move" is
    run from the state the checks have left and is a relocation. *)
Lemma relocation_passed (fuel : nat) (options : MoveOptions)
        (move : MovePreview) (st : St W) (w1 w2 w3 : W) (r3 : Res unit)
        (Hdir : fs_mkdir (path_dirname (to move)) (world st) = (w1, Ok tt))
        (Hsource : fs_access (from move) w1 = (w2, Ok tt))
        (Htarget : fs_access (to move) w2 = (w3, r3))
        (Hgo : handleConflicts options = Suffix
               \/ exists msg, r3 = Throw msg)
        (Hfuel : snd (copyDirectory fuel (from move) (to move)
                        (mkSt w3 (table st) (trace st ++ preChecks move)))
                 <> OutOfFuel) :
  exists rel w r,
    Relocated (from move) (to move) w3 rel w r
    /\ settled move (mkSt w3 (table st) (trace st ++ preChecks move))
               rel w r (attemptMove fuel options move st).
Proof.
  set (checked := mkSt w3 (table st) (trace st ++ preChecks move)) in *.
  assert (Hrun :
            attemptMove fuel options move st
            = tryCatch
                (bind (relocate fuel (from move) (to move)) (fun _ =>
                 bind (markMoved (repoId move)
                                 (Path.normalizeWindowsPath (to move)))
                      (fun _ => ret (success move))))
                (fun msg => ret (failure move msg)) checked).
  { unfold attemptMove, moveChecked, tryCatch, bind, ret, mkdir, access,
      call.
    rewrite Hdir. cbn [world table trace]. rewrite Hsource.
    cbn [world table trace]. rewrite Htarget. cbn [world table trace].
    unfold checked, preChecks. rewrite <- !app_assoc.
    destruct r3 as [[]|msg3].
    - destruct Hgo as [->|(msg & Hmsg)]; [reflexivity | discriminate Hmsg].
    - reflexivity. }
  rewrite Hrun. clear Hrun. subst checked. unfold relocate.
  destruct (Path.isSameDrive (from move) (to move)) eqn:Hdrive.
  - unfold tryCatch, bind, ret, rename, call. cbn [world table trace].
    destruct (fs_rename (from move) (to move) w3) as [w4 r] eqn:Hren.
    exists [EvRename (from move) (to move)], w4, r.
    split; [now apply RelocatedByRename|].
    unfold settled. destruct r as [[]|msg]; [|reflexivity].
    unfold markMoved. cbn [world table trace].
    destruct (update _ _ (table st)); now rewrite <- app_assoc.
  - destruct (copyDirectory_tree fuel _ _ _ Hfuel)
      as (cp & wc & rc & Hcp & E). cbn [world table trace] in Hcp, E.
    unfold tryCatch, bind at 1 2. rewrite E.
    destruct rc as [[]|msg]; cbn [outcomeOf].
    + unfold bind, ret, rm, call. cbn [world table trace].
      destruct (fs_rm (from move) wc) as [w5 r] eqn:Hrm.
      exists (cp ++ [EvRm (from move)]), w5, r.
      split; [now eapply RelocatedByCopy; eauto|].
      unfold settled. destruct r as [[]|msg].
      * unfold markMoved. cbn [world table trace].
        destruct (update _ _ (table st)); now rewrite <- !app_assoc.
      * cbn [table trace]. now rewrite <- !app_assoc.
    + exists cp, wc, (Throw msg). split; [now apply RelocatedNot|].
      reflexivity.
Qed.

(** C1: every entry the executor handles goes through the checks, and
    either is refused by them with an error, nothing moved and the store
    untouched, or is relocated from the state the checks have left: on
    one drive by a single rename from the source to the target; across
    drives by the copy of the tree, in which a symbolic link is read and
    made again as a link and never followed, and then by the delete of
    the source, made after the last call of the copy and only when the
    copy has ended without a throw.  The store is updated after a
    relocation that has not thrown, and the entry is then a success; a
    throw makes it a failure, and after a copy that throws nothing is
    deleted. *)
Theorem relocation_order (fuel : nat) (options : MoveOptions)
        (move : MovePreview) (st : St W) (Hcopy : copyBounded fuel) :
  exists pre w3 verdict,
    Checked options move (world st) pre w3 verdict
    /\ match verdict with
       | Some msg =>
           attemptMove fuel options move st
           = (mkSt w3 (table st) (trace st ++ pre),
              Return (failure move msg))
       | None =>
           exists rel w r,
             Relocated (from move) (to move) w3 rel w r
             /\ settled move (mkSt w3 (table st) (trace st ++ pre))
                        rel w r (attemptMove fuel options move st)
       end.
Proof.
  destruct (fs_mkdir (path_dirname (to move)) (world st))
    as [w1 [[]|msg1]] eqn:Hdir.
  2:{ eexists _, w1, (Some msg1). split; [now apply CheckedNoParent|].
      unfold attemptMove, tryCatch, bind, mkdir, call, ret.
      now rewrite Hdir. }
  destruct (fs_access (from move) w1) as [w2 [[]|msg2]] eqn:Hsource.
  2:{ eexists _, w2, (Some _).
      split; [now eapply CheckedNoSource; eauto|].
      unfold attemptMove, tryCatch, bind, mkdir, access, call, ret.
      rewrite Hdir. cbn [world table trace]. rewrite Hsource.
      cbn [world table trace]. now rewrite <- !app_assoc. }
  destruct (fs_access (to move) w2) as [w3 r3] eqn:Htarget.
  assert (Hcases : (r3 = Ok tt /\ handleConflicts options <> Suffix)
                   \/ (handleConflicts options = Suffix
                       \/ exists msg, r3 = Throw msg)).
  { destruct r3 as [[]|msg3]; [|right; right; now exists msg3].
    destruct (handleConflicts options); [right; now left | left | left];
      split; (reflexivity || discriminate). }
  destruct Hcases as [[-> Hmode]|Hgo].
  - eexists _, w3, (Some _).
    split; [now eapply CheckedTargetExists; eauto|].
    unfold attemptMove, moveChecked, tryCatch, bind, mkdir, access, call,
      ret.
    rewrite Hdir. cbn [world table trace]. rewrite Hsource.
    cbn [world table trace]. rewrite Htarget. cbn [world table trace].
    unfold preChecks.
    destruct (handleConflicts options); [now contradiction Hmode| |];
      cbn [Triage.targetExistsMessage]; now rewrite <- !app_assoc.
  - exists (preChecks move), w3, None.
    split; [now eapply CheckedPassed; eauto|].
    apply (relocation_passed fuel options move st w1 w2 w3 r3 Hdir Hsource
             Htarget Hgo).
    apply Hcopy.
Qed.

End WithHost.

End RelocateProps.

(** ** A relocation across drives on the simulated host *)

Module RelocateSim.
Import Store Planner Executor Relocate Sim SimProps RelocateProps.

Lemma relocation_order_witness :
  copyBounded (W := Fs) simFuel
  /\ exists pre w3 verdict,
      Checked DEFAULT_MOVE_OPTIONS moveApp (world start) pre w3 verdict
      /\ match verdict with
         | Some msg =>
             attemptMove simFuel DEFAULT_MOVE_OPTIONS moveApp start
             = (mkSt w3 (table start) (trace start ++ pre),
                Return (failure moveApp msg))
         | None =>
             exists rel w r,
               Relocated (from moveApp) (to moveApp) w3 rel w r
               /\ settled moveApp
                          (mkSt w3 (table start) (trace start ++ pre))
                          rel w r
                          (attemptMove simFuel DEFAULT_MOVE_OPTIONS moveApp
                                       start)
         end.
Proof.
  split; [exact sim_copyBounded|].
  exact (relocation_order simFuel DEFAULT_MOVE_OPTIONS moveApp start
           sim_copyBounded).
Defined.

(** The relocation of [moveApp] on the simulated host: the checks pass,
    the tree is copied with its link made again as a link, the source is
    deleted after the copy, and the row is updated. *)
Example moveApp_relocated :
  exists cp w1 w2,
    Checked DEFAULT_MOVE_OPTIONS moveApp (world start) (preChecks moveApp)
            (disk ++ [("C:/Org/nextjs", NDir)]) None
    /\ CopyTree (from moveApp) (to moveApp)
                (disk ++ [("C:/Org/nextjs", NDir)]) cp w1 (Ok tt)
    /\ In (EvSymlink "lib" "C:/Org/nextjs/app/current") cp
    /\ fs_rm (from moveApp) w1 = (w2, Ok tt)
    /\ trace (fst (attemptMove simFuel DEFAULT_MOVE_OPTIONS moveApp start))
       = preChecks moveApp ++ cp ++ [EvRm (from moveApp)]
         ++ [EvDbUpdate 1 "C:/Org/nextjs/app"]
    /\ snd (attemptMove simFuel DEFAULT_MOVE_OPTIONS moveApp start)
       = Return (success moveApp).
Proof.
  assert (Hpass : Checked DEFAULT_MOVE_OPTIONS moveApp (world start)
                          (preChecks moveApp)
                          (disk ++ [("C:/Org/nextjs", NDir)]) None).
  { eapply (CheckedPassed DEFAULT_MOVE_OPTIONS moveApp (world start)
              (disk ++ [("C:/Org/nextjs", NDir)])
              (disk ++ [("C:/Org/nextjs", NDir)])
              (disk ++ [("C:/Org/nextjs", NDir)])
              (Throw "ENOENT: no such file or directory"));
      try reflexivity.
    right. now eexists. }
  destruct (copyDirectory_tree simFuel (from moveApp) (to moveApp)
              (mkSt (disk ++ [("C:/Org/nextjs", NDir)]) rows
                    (preChecks moveApp)))
    as (cp & w1 & r & Hcp & E); [apply sim_copyBounded|].
  cbn [world table trace] in Hcp, E.
  assert (Hr := f_equal snd E).
  assert (Ht := f_equal (fun x => skipn 3 (trace (fst x))) E).
  assert (Hw := f_equal (fun x => world (fst x)) E).
  vm_compute in Hr, Ht, Hw.
  destruct r as [[]|msg]; [|discriminate Hr].
  subst cp w1.
  eexists _, _, _.
  split; [exact Hpass|]. split; [exact Hcp|].
  repeat split; vm_compute; auto 20.
Qed.

End RelocateSim.
